(** * hls.js [src/utils/mp4-tools.ts]: a shallow embedding and its properties

    The ISO-BMFF helpers of hls.js (box search, big-endian readers and the
    32-bit writer, [sidx], [tfdt], [trun], [emsg] and SEI handling) are
    embedded as Rocq functions and the properties of the specification are
    stated over them.

    Conventions of the embedding.
    - A [Uint8Array] is a [list byte]; an index is a [Z]; an access outside
      the array gives [None] (JavaScript's [undefined]).
    - JavaScript numbers that the code only ever uses as integers are [Z];
      numbers that may carry a fraction (a time offset in seconds, a time in
      seconds) are [Q].  Where the code computes a time it writes back or
      hands on ([offsetStartDTS], [parseSamples]) the arithmetic is that of
      IEEE doubles, every operation rounded to the nearest double
      ([Double]); elsewhere a number stands for its exact value, and the
      properties that depend on it say so.
    - The 32-bit operators ([<<], [>>], [>>>], [|], [&]) convert their
      operands with [ToInt32] as ECMAScript prescribes, written out on [Z].
    - A box view ([Mp4BoxData]) keeps the array it points into next to its
      bounds, as the source's object does.
    - An exception is a value: a computation that can throw has type
      [completion A]. *)

From Stdlib Require Import String Ascii QArith Qround Qabs Qpower.
From Stdlib Require Import Strings.Byte.
From Stdlib Require Import ZArith List Lia Bool.
Import ListNotations.
Local Open Scope Z_scope.

(* ================================================================== *)
(** ** Numbers and the 32-bit operators *)

Module JS.

Definition ToInt32 (z : Z) : Z :=
  (z + 2147483648) mod 4294967296 - 2147483648.

Definition ToUint32 (z : Z) : Z := z mod 4294967296.

Definition ToUint8 (z : Z) : Z := z mod 256.

(** [Math.trunc]: the integer part a fractional number is cut to before
    any 32-bit conversion. *)
Definition truncate (x : Q) : Z :=
  if Qle_bool 0 x then Qfloor x else Qceiling x.

Definition NumberToInt32 (x : Q) : Z := ToInt32 (truncate x).

(** [undefined] converts to 0 under the integer operators. *)
Definition int (v : option Z) : Z :=
  match v with Some z => z | None => 0 end.

(** [a << k], [a >> k], [a >>> k], [a | b], [a & b] for [0 <= k < 32]. *)
Definition shl (a k : Z) : Z := ToInt32 (Z.shiftl (ToInt32 a) k).
Definition sar (a k : Z) : Z := Z.shiftr (ToInt32 a) k.
Definition shr (a k : Z) : Z := Z.shiftr (ToUint32 a) k.
Definition bor (a b : Z) : Z := Z.lor (ToInt32 a) (ToInt32 b).
Definition band (a b : Z) : Z := Z.land (ToInt32 a) (ToInt32 b).

End JS.

(* ================================================================== *)
(** ** Typed arrays *)

Definition Uint8Array := list byte.

Definition byteLength (a : Uint8Array) : Z := Z.of_nat (length a).

Definition byteValue (b : byte) : Z := Z.of_N (Byte.to_N b).

Definition byteOfZ (z : Z) : byte :=
  match Byte.of_N (Z.to_N (JS.ToUint8 z)) with
  | Some b => b
  | None => x00
  end.

Definition inRange (a : Uint8Array) (i : Z) : bool :=
  (0 <=? i) && (i <? byteLength a).

(** [a[i]] *)
Definition get (a : Uint8Array) (i : Z) : option Z :=
  if inRange a i then option_map byteValue (nth_error a (Z.to_nat i))
  else None.

(** [a[i] = v]: the value is stored modulo 256; a store outside the array
    is ignored. *)
Definition set (a : Uint8Array) (i : Z) (v : Z) : Uint8Array :=
  if inRange a i
  then firstn (Z.to_nat i) a ++ byteOfZ v :: skipn (S (Z.to_nat i)) a
  else a.

(** The relative index of [subarray] and [slice]: a negative index counts
    from the end, and both ends are clamped to the array. *)
Definition relIndex (len i : Z) : Z :=
  if i <? 0 then Z.max (len + i) 0 else Z.min i len.

(** [a.subarray(b, e)].  A view and a copy are the same list here. *)
Definition subarray (a : Uint8Array) (b e : Z) : Uint8Array :=
  let len := byteLength a in
  let b' := relIndex len b in
  let e' := relIndex len e in
  firstn (Z.to_nat (e' - b')) (skipn (Z.to_nat b') a).

(** [String.fromCharCode.apply(null, data)] *)
Definition bin2str (d : Uint8Array) : string := string_of_list_byte d.

(* ================================================================== *)
(** ** Box views and the readers *)

Record Mp4BoxData := mkBox { data : Uint8Array; start : Z; end_ : Z }.

(** The argument type [Uint8Array | Mp4BoxData]. *)
Inductive BufferOrBox :=
| Raw (a : Uint8Array)
| View (b : Mp4BoxData).

(** ['data' in buffer]: a view shifts the offset by its start. *)
Definition backing (buffer : BufferOrBox) : Uint8Array :=
  match buffer with Raw a => a | View b => data b end.

Definition absolute (buffer : BufferOrBox) (offset : Z) : Z :=
  match buffer with Raw _ => offset | View b => offset + start b end.

Definition readUint16 (buffer : BufferOrBox) (offset : Z) : Z :=
  let offset := absolute buffer offset in
  let buffer := backing buffer in
  let val := JS.bor (JS.shl (JS.int (get buffer offset)) 8)
                    (JS.int (get buffer (offset + 1))) in
  if val <? 0 then 65536 + val else val.

Definition readUint32 (buffer : BufferOrBox) (offset : Z) : Z :=
  let offset := absolute buffer offset in
  let buffer := backing buffer in
  let val :=
    JS.bor (JS.bor (JS.bor (JS.shl (JS.int (get buffer offset)) 24)
                           (JS.shl (JS.int (get buffer (offset + 1))) 16))
                   (JS.shl (JS.int (get buffer (offset + 2))) 8))
           (JS.int (get buffer (offset + 3))) in
  if val <? 0 then 4294967296 + val else val.

(** [writeUint32] patches the backing array in place; the patched array is
    returned (for a view, as the same view over the patched array). *)
Definition rebase (buffer : BufferOrBox) (a : Uint8Array) : BufferOrBox :=
  match buffer with
  | Raw _ => Raw a
  | View b => View (mkBox a (start b) (end_ b))
  end.

Definition writeUint32 (buffer : BufferOrBox) (offset : Z) (value : Q)
  : BufferOrBox :=
  let offset := absolute buffer offset in
  let a := backing buffer in
  let v := JS.NumberToInt32 value in
  let a := set a offset (JS.sar v 24) in
  let a := set a (offset + 1) (JS.band (JS.sar v 16) 255) in
  let a := set a (offset + 2) (JS.band (JS.sar v 8) 255) in
  let a := set a (offset + 3) (JS.band v 255) in
  rebase buffer a.

(* ================================================================== *)
(** ** [findBox] *)

(** The source loop
    [for (let i = start; i < end; ) { ...; i = endbox; }]
    as a recursion on the cursor [i].  [fuel] bounds the number of
    iterations; [None] means the bound was reached with [i < end] still
    true.  [deeper] is the search of a matched box for the rest of the
    path: [None] when [path.length === 1]. *)
Section SiblingScan.

Variable data : Uint8Array.
Variable name : string.
Variable deeper : option (Z -> Z -> option (list Mp4BoxData)).
Variable limit : Z.

(** [endbox = size > 1 ? i + size : end] *)
Definition boxEnd (i : Z) : Z :=
  let size := readUint32 (Raw data) i in
  if size >? 1 then i + size else limit.

Definition boxType (i : Z) : string :=
  bin2str (subarray data (i + 4) (i + 8)).

Fixpoint scan (fuel : nat) (i : Z) : option (list Mp4BoxData) :=
  if i <? limit then
    match fuel with
    | O => None
    | S fuel' =>
        let endbox := boxEnd i in
        let found :=
          if String.eqb (boxType i) name then
            match deeper with
            | None => Some [mkBox data (i + 8) endbox]
            | Some search => search (i + 8) endbox
            end
          else Some [] in
        match found, scan fuel' endbox with
        | Some subresults, Some results => Some (subresults ++ results)
        | _, _ => None
        end
    end
  else Some [].

End SiblingScan.

(** [findBox] on the range [start, end_) of [data].  The recursion follows
    the path; every sibling loop is given as many iterations as its range
    has bytes. *)
Fixpoint findBoxIn (path : list string) (data : Uint8Array) (start end_ : Z)
  {struct path} : option (list Mp4BoxData) :=
  match path with
  | [] => Some []
  | name :: rest =>
      scan data name
           (match rest with
            | [] => None
            | _ :: _ => Some (findBoxIn rest data)
            end)
           end_ (Z.to_nat (end_ - start)) start
  end.

(** The inner search of a step along the path: none at its last segment. *)
Definition deeperOf (rest : list string) (data : Uint8Array)
  : option (Z -> Z -> option (list Mp4BoxData)) :=
  match rest with
  | [] => None
  | _ :: _ => Some (findBoxIn rest data)
  end.

Definition bounds (input : BufferOrBox) : Z * Z :=
  match input with
  | Raw a => (0, byteLength a)
  | View b => (start b, end_ b)
  end.

Definition findBoxRun (input : BufferOrBox) (path : list string)
  : option (list Mp4BoxData) :=
  findBoxIn path (backing input) (fst (bounds input)) (snd (bounds input)).

(** [findBox(input, path)]; that the run always ends with a result is
    [findBox_terminates] below. *)
Definition findBox (input : BufferOrBox) (path : list string)
  : list Mp4BoxData :=
  match findBoxRun input path with
  | Some results => results
  | None => []
  end.

(** What a matching box at [i] contributes: the view itself at the end of
    the path, the results of the search inside it otherwise. *)
Definition matched (data : Uint8Array) (rest : list string) (limit i : Z)
  : list Mp4BoxData :=
  match rest with
  | [] => [mkBox data (i + 8) (boxEnd data limit i)]
  | _ :: _ => findBox (View (mkBox data (i + 8) (boxEnd data limit i))) rest
  end.

(** The inner search gives a result on every range. *)
Definition deeperTotal (deeper : option (Z -> Z -> option (list Mp4BoxData)))
  : Prop :=
  forall search, deeper = Some search ->
  forall s e, exists r, search s e = Some r.

(** The container a box found at [path ++ [name]] was scanned in: the
    input's own range when [path] is empty, a box found at [path]
    otherwise. *)
Definition container (input : BufferOrBox) : Mp4BoxData :=
  mkBox (backing input) (fst (bounds input)) (snd (bounds input)).

Definition enclosing (input : BufferOrBox) (path : list string)
  (c : Mp4BoxData) : Prop :=
  match path with
  | [] => c = container input
  | _ :: _ => In c (findBox input path)
  end.

(** The size field at [i] stays inside a container that ends at [limit]:
    a size above 1 covers the 8-byte header and does not pass the end; a
    size of 0 or 1 (the box extends to the end) leaves room for the
    header. *)
Definition sizeFits (a : Uint8Array) (limit i : Z) : Prop :=
  let size := readUint32 (Raw a) i in
  (1 < size -> 8 <= size /\ i + size <= limit) /\
  (size <= 1 -> i + 8 <= limit).

(** The readers and the search are unfolded by name only. *)
Arguments get : simpl never.
Arguments set : simpl never.
Arguments subarray : simpl never.
Arguments readUint16 : simpl never.
Arguments readUint32 : simpl never.
Arguments writeUint32 : simpl never.
Arguments boxEnd : simpl never.
Arguments boxType : simpl never.
Arguments findBox : simpl never.

(* ================================================================== *)
(** ** Exceptions *)

Inductive JsError := TypeError | RangeError.

Inductive completion (A : Type) :=
| Normal (a : A)
| Throw (e : JsError).
Arguments Normal {A} a.
Arguments Throw {A} e.

Definition bind {A B} (c : completion A) (k : A -> completion B)
  : completion B :=
  match c with
  | Normal a => k a
  | Throw e => Throw e
  end.

Notation "x <- c ;; k" := (bind c (fun x => k))
  (at level 61, c at next level, right associativity).
Notation "' pat <- c ;; k" := (bind c (fun pat => k))
  (at level 61, pat pattern, c at next level, right associativity).

(** [try { body } catch (e) { handler }] *)
Definition tryCatch {A} (body : completion A) (handler : JsError -> completion A)
  : completion A :=
  match body with
  | Normal a => Normal a
  | Throw e => handler e
  end.

(** [array.map(f)] with a callback that may throw. *)
Fixpoint mapM {A B} (f : A -> completion B) (l : list A)
  : completion (list B) :=
  match l with
  | [] => Normal []
  | x :: l' => y <- f x ;; ys <- mapM f l' ;; Normal (y :: ys)
  end.

(** [array.reduce(f, init)] with a callback that may throw. *)
Fixpoint reduceM {A S} (f : S -> A -> completion S) (l : list A) (init : S)
  : completion S :=
  match l with
  | [] => Normal init
  | x :: l' => s <- f init x ;; reduceM f l' s
  end.

(* ================================================================== *)
(** ** [DataView] *)

(** The big-endian value of four bytes of [a] from [i], an absent byte
    counting as 0. *)
Definition bigEndian32 (a : Uint8Array) (i : Z) : Z :=
  JS.int (get a i) * 16777216 + JS.int (get a (i + 1)) * 65536
  + JS.int (get a (i + 2)) * 256 + JS.int (get a (i + 3)).

(** A [DataView] over the whole of [view]: a read that does not fit
    inside it throws a [RangeError]. *)
Definition fits (view : Uint8Array) (offset width : Z) : bool :=
  (0 <=? offset) && (offset + width <=? byteLength view).

Definition getUint8 (view : Uint8Array) (offset : Z) : completion Z :=
  if fits view offset 1 then Normal (JS.int (get view offset))
  else Throw RangeError.

Definition getUint32 (view : Uint8Array) (offset : Z) : completion Z :=
  if fits view offset 4 then Normal (bigEndian32 view offset)
  else Throw RangeError.

Definition getInt32 (view : Uint8Array) (offset : Z) : completion Z :=
  if fits view offset 4 then Normal (JS.ToInt32 (bigEndian32 view offset))
  else Throw RangeError.

Definition getBigUint64 (view : Uint8Array) (offset : Z) : completion Z :=
  if fits view offset 8
  then Normal (bigEndian32 view offset * 4294967296
               + bigEndian32 view (offset + 4))
  else Throw RangeError.

(* ================================================================== *)
(** ** [parseSegmentIndex] *)

Module JSNumber.

(** [a / b] on integers: [None] when the quotient is not a finite number
    (the divisor is 0). *)
Definition divide (a b : Z) : option Q :=
  if b =? 0 then None else Some (inject_Z a / inject_Z b)%Q.

(** [a < b] on finite numbers. *)
Definition ltb (a b : Q) : bool := negb (Qle_bool b a).

End JSNumber.

(* ================================================================== *)
(** ** Double-precision arithmetic *)

(** JavaScript numbers are IEEE 754 doubles: an operation gives the exact
    result rounded to the nearest double, ties to the even mantissa.  A
    finite double is held as the rational it stands for.  The sign of
    zero is not kept: no operation below divides by a variable. *)
Module Double.

Inductive t :=
| fin (q : Q)
| pinf
| ninf
| nan.

(** [2^k] for any integer [k]. *)
Definition pow2 (k : Z) : Q := (2 ^ k)%Q.

(** The binary exponent of [x <> 0]: the [e] with
    [2^(e-1) <= |x| < 2^e]. *)
Definition magnitude (x : Q) : Z :=
  let y := Qabs x in
  if Qle_bool 1 y then Z.log2 (Qfloor y) + 1
  else 1 - Z.log2_up (Qceiling (/ y)).

(** The nearest integer, a tie going to the even one. *)
Definition nearestEven (x : Q) : Z :=
  let f := Qfloor x in
  match (x - inject_Z f ?= 1 # 2)%Q with
  | Lt => f
  | Gt => f + 1
  | Eq => if Z.even f then f else f + 1
  end.

(** The nearest number with a 53-bit mantissa and an exponent of at
    least -1074 (the subnormal range), in lowest terms. *)
Definition round (x : Q) : Q :=
  let x := Qred x in
  if Qeq_bool x 0 then 0
  else
    let e := Z.max (magnitude x - 53) (-1074) in
    Qred (inject_Z (nearestEven (x / pow2 e)) * pow2 e).

(** The largest double. *)
Definition maxValue : Q := inject_Z (2 ^ 1024 - 2 ^ 971).

(** The double an exact result rounds to: an infinity past the largest
    double. *)
Definition ofQ (x : Q) : t :=
  let r := round x in
  if Qle_bool (- maxValue) r && Qle_bool r maxValue then fin r
  else if Qle_bool 0 r then pinf else ninf.

Definition ofZ (z : Z) : t := ofQ (inject_Z z).

Definition opp (a : t) : t :=
  match a with
  | fin x => fin (Qred (- x))
  | pinf => ninf
  | ninf => pinf
  | nan => nan
  end.

(** [a + b] *)
Definition add (a b : t) : t :=
  match a, b with
  | nan, _ | _, nan => nan
  | fin x, fin y => ofQ (x + y)
  | pinf, ninf | ninf, pinf => nan
  | pinf, _ | _, pinf => pinf
  | ninf, _ | _, ninf => ninf
  end.

(** [a - b] *)
Definition sub (a b : t) : t := add a (opp b).

(** [a * b] *)
Definition mul (a b : t) : t :=
  match a, b with
  | nan, _ | _, nan => nan
  | fin x, fin y => ofQ (x * y)
  | fin x, pinf | pinf, fin x =>
      if Qeq_bool x 0 then nan else if Qle_bool 0 x then pinf else ninf
  | fin x, ninf | ninf, fin x =>
      if Qeq_bool x 0 then nan else if Qle_bool 0 x then ninf else pinf
  | pinf, pinf | ninf, ninf => pinf
  | pinf, ninf | ninf, pinf => ninf
  end.

(** [a / d] for a finite [d > 0]. *)
Definition divBy (a : t) (d : Q) : t :=
  match a with
  | fin x => ofQ (x / d)
  | other => other
  end.

(** [a % d] for a finite [d > 0]: the remainder has the sign of [a] and
    is exact. *)
Definition remBy (a : t) (d : Q) : t :=
  match a with
  | fin x => fin (Qred (x - d * inject_Z (JS.truncate (x / d))))
  | _ => nan
  end.

(** [Math.max(a, 0)] *)
Definition max0 (a : t) : t :=
  match a with
  | fin x => if Qle_bool x 0 then fin 0 else a
  | pinf => pinf
  | ninf => fin 0
  | nan => nan
  end.

(** [Math.floor(a)] *)
Definition floor (a : t) : t :=
  match a with
  | fin x => fin (inject_Z (Qfloor x))
  | other => other
  end.

(** The finite number with the same 32-bit conversion: [NaN] and the
    infinities convert to 0, as 0 does. *)
Definition operand (a : t) : Q :=
  match a with
  | fin x => x
  | _ => 0
  end.

(** [a + b] for integer-valued doubles whose sum stays below the largest
    double, as an integer. *)
Definition plus (a b : Z) : Z := Qfloor (round (inject_Z (a + b))).

(** The integers every one of which is a double. *)
Definition exact (z : Z) : Prop := Z.abs z <= 2 ^ 53.

End Double.

Record SidxReference := mkSidxReference {
  referenceSize : Z;
  subsegmentDuration : Z;
  info_duration : option Q;
  info_start : Z;
  info_end : Z
}.

Record SidxInfo := mkSidxInfo {
  earliestPresentationTime : Z;
  sidx_timescale : Z;
  sidx_version : option Z;
  referencesCount : Z;
  references : list SidxReference;
  moovEndOffset : option Z
}.

(** [x === n] for a possibly undefined byte [x]. *)
Definition isByte (x : option Z) (n : Z) : bool :=
  match x with Some z => z =? n | None => false end.

(** The reference type of a reference word:
    [(referenceInfo & 0x80000000) >>> 31]. *)
Definition referenceTypeOf (referenceInfo : Z) : Z :=
  JS.shr (JS.band referenceInfo 2147483648) 31.

(** The loop over the references, [remaining] iterations to go; [None] is
    the [return null] of the hierarchical case. *)
Fixpoint sidxReferences (sidx : Mp4BoxData) (timescale : Z) (remaining : nat)
  (index startByte : Z) (references : list SidxReference)
  : option (list SidxReference) :=
  match remaining with
  | O => Some references
  | S remaining' =>
      let referenceIndex := index in
      let referenceInfo := readUint32 (View sidx) referenceIndex in
      let referenceIndex := referenceIndex + 4 in
      let referenceSize := JS.band referenceInfo 2147483647 in
      let referenceType := referenceTypeOf referenceInfo in
      if referenceType =? 1 then None
      else
        let subsegmentDuration := readUint32 (View sidx) referenceIndex in
        let referenceIndex := referenceIndex + 4 in
        let references :=
          references ++
          [mkSidxReference referenceSize subsegmentDuration
             (JSNumber.divide subsegmentDuration timescale)
             startByte (startByte + referenceSize - 1)] in
        let startByte := startByte + referenceSize in
        let referenceIndex := referenceIndex + 4 in
        sidxReferences sidx timescale remaining' referenceIndex startByte
                       references
  end.

(** Where the code reads the reference count and the first reference,
    relative to the start of the [sidx] payload. *)
Definition sidxCountIndex (version : option Z) : Z :=
  let index := if isByte version 0 then 8 else 16 in
  let index := index + 4 in
  let index := if isByte version 0 then index + 8 else index + 16 in
  index + 2.

Definition parseSegmentIndex (initSegment : Uint8Array) : option SidxInfo :=
  let moovBox := findBox (Raw initSegment) ["moov"%string] in
  let moovEndOffset := option_map end_ (hd_error moovBox) in
  let sidxBox := findBox (Raw initSegment) ["sidx"%string] in
  match hd_error sidxBox with
  | None => None
  | Some sidx =>
      let version := get (data sidx) 0 in
      let index := if isByte version 0 then 8 else 16 in
      let timescale := readUint32 (View sidx) index in
      let index := sidxCountIndex version in
      let startByte := end_ sidx + 0 in
      let referencesCount := readUint16 (View sidx) index in
      let index := index + 2 in
      match sidxReferences sidx timescale (Z.to_nat referencesCount)
                           index startByte [] with
      | None => None
      | Some references =>
          Some (mkSidxInfo 0 timescale version referencesCount references
                           moovEndOffset)
      end
  end.

(* ================================================================== *)
(** ** [segmentValidRange] *)

(** Modelled from the spec: [sliceUint8] of [src/utils/typed-array], a file
    that is not among the sources.  The spec has the valid part be
    everything up to an offset and the remainder be the tail that starts at
    it, so [sliceUint8(array, start, end)] is the copy of the bytes from
    [start] up to, not including, [end], and up to the end of the array
    when [end] is left out, with the index conventions of
    [Uint8Array.prototype.slice]. *)
Definition sliceUint8 (array : Uint8Array) (start : Z) (end_ : option Z)
  : Uint8Array :=
  subarray array start
           (match end_ with Some e => e | None => byteLength array end).

Record SegmentedRange := mkSegmentedRange {
  valid : option Uint8Array;
  remainder : option Uint8Array
}.

(** [moofs] is an array, so [!moofs] is never true; [rev] exposes the last
    element when there are two or more. *)
Definition segmentValidRange (data : Uint8Array) : SegmentedRange :=
  let moofs := findBox (Raw data) ["moof"%string] in
  match rev moofs with
  | last :: _ :: _ =>
      mkSegmentedRange (Some (sliceUint8 data 0 (Some (start last - 8))))
                       (Some (sliceUint8 data (start last - 8) None))
  | _ => mkSegmentedRange None (Some data)
  end.

(* ================================================================== *)
(** ** [parseSampleFlags], [parseTrun], [parseSamples] *)

Record SampleFlags := mkSampleFlags {
  isLeading : Z;
  dependsOn : Z;
  isDependedOn : Z;
  hasRedundancy : Z;
  paddingValue : Z;
  isNonSyncSample : Z;
  degradationPriority : Z
}.

Definition parseSampleFlags (flags : Uint8Array) : SampleFlags :=
  let f i := JS.int (get flags i) in
  mkSampleFlags
    (JS.shr (JS.band (f 0) 12) 2)
    (JS.band (f 0) 3)
    (JS.shr (JS.band (f 1) 192) 6)
    (JS.shr (JS.band (f 1) 48) 4)
    (JS.shr (JS.band (f 1) 14) 1)
    (JS.band (f 1) 1)
    (JS.bor (JS.shl (f 2) 8) (f 3)).

Record TrunSample := mkTrunSample {
  flags : option SampleFlags;
  duration : option Z;
  size : option Z;
  compositionTimeOffset : option Z;
  dts : option Z;
  pts : option Z;
  trackId : option Z
}.

Record TrunInfo := mkTrunInfo {
  trun_version : option Z;
  trun_flags : Uint8Array;
  samples : list TrunSample;
  dataOffset : option Z
}.

(** An optional 32-bit field: read at [offset] when [present] is not 0,
    and the offset after it. *)
Definition optionalUint32 (view : Uint8Array) (present : Z) (offset : Z)
  : completion (option Z * Z) :=
  if present =? 0 then Normal (None, offset)
  else v <- getUint32 view offset ;; Normal (Some v, offset + 4).

Section TrunSamples.

Variable data : Uint8Array.
Variables sampleDurationPresent sampleSizePresent sampleFlagsPresent
          sampleCompositionTimeOffsetPresent : Z.

(** [while (sampleCount--) { ... }] *)
Fixpoint trunLoop (sampleCount : nat) (offset : Z) (samples : list TrunSample)
  : completion (list TrunSample) :=
  match sampleCount with
  | O => Normal samples
  | S sampleCount' =>
      '(duration, offset) <-
        optionalUint32 data sampleDurationPresent offset ;;
      '(size, offset) <- optionalUint32 data sampleSizePresent offset ;;
      let '(flags, offset) :=
        if sampleFlagsPresent =? 0 then (None, offset)
        else (Some (parseSampleFlags (subarray data offset (offset + 4))),
              offset + 4) in
      '(compositionTimeOffset, offset) <-
        optionalUint32 data sampleCompositionTimeOffsetPresent offset ;;
      trunLoop sampleCount' offset
               (samples ++ [mkTrunSample flags duration size
                              compositionTimeOffset None None None])
  end.

End TrunSamples.

Definition parseTrun (trun : Mp4BoxData) : completion TrunInfo :=
  let data := subarray (data trun) (start trun) (end_ trun) in
  let version := get data 0 in
  let flags := subarray data 1 4 in
  let view := data in
  let dataOffsetPresent := JS.band (JS.int (get flags 2)) 1 in
  let firstSampleFlagsPresent := JS.band (JS.int (get flags 2)) 4 in
  let sampleDurationPresent := JS.band (JS.int (get flags 1)) 1 in
  let sampleSizePresent := JS.band (JS.int (get flags 1)) 2 in
  let sampleFlagsPresent := JS.band (JS.int (get flags 1)) 4 in
  let sampleCompositionTimeOffsetPresent := JS.band (JS.int (get flags 1)) 8 in
  sampleCount <- getUint32 view 4 ;;
  let offset := 8 in
  '(dataOffset, offset) <-
    (if dataOffsetPresent =? 0 then Normal (None, offset)
     else v <- getInt32 view offset ;; Normal (Some v, offset + 4)) ;;
  '(samples, sampleCount, offset) <-
    (if negb (firstSampleFlagsPresent =? 0) && negb (sampleCount =? 0) then
       let flags := parseSampleFlags (subarray data offset (offset + 4)) in
       let offset := offset + 4 in
       '(duration, offset) <-
         optionalUint32 view sampleDurationPresent offset ;;
       '(size, offset) <- optionalUint32 view sampleSizePresent offset ;;
       '(compositionTimeOffset, offset) <-
         optionalUint32 view sampleCompositionTimeOffsetPresent offset ;;
       Normal ([mkTrunSample (Some flags) duration size compositionTimeOffset
                  None None None],
               sampleCount - 1, offset)
     else Normal ([], sampleCount, offset)) ;;
  samples <-
    trunLoop view sampleDurationPresent sampleSizePresent sampleFlagsPresent
             sampleCompositionTimeOffsetPresent
             (Z.to_nat sampleCount) offset samples ;;
  Normal (mkTrunInfo version flags samples dataOffset).

Record TfhdInfo := mkTfhdInfo {
  tfhd_version : option Z;
  tfhd_flags : Uint8Array;
  tfhd_trackId : Z;
  baseDataOffset : option Z;
  sampleDescriptionIndex : option Z;
  defaultSampleDuration : option Z;
  defaultSampleSize : option Z;
  defaultSampleFlags : option Z;
  durationIsEmpty : option bool;
  baseDataOffsetIsMoof : option bool
}.

(** The body of [samples.forEach]: the sample with its defaults and times
    filled in, and the decode time of the next one.  The times are
    integer-valued doubles (a base time as [parseTfdt] gives it, 32-bit
    durations and offsets), and the two sums are rounded. *)
Definition stampSample (defaultSampleDuration defaultSampleSize trackId : Z)
  (currentDts : Z) (sample : TrunSample) : TrunSample * Z :=
  let duration :=
    match duration sample with Some d => d | None => defaultSampleDuration end in
  let size :=
    match size sample with Some s => s | None => defaultSampleSize end in
  let compositionTimeOffset :=
    match compositionTimeOffset sample with Some c => c | None => 0 end in
  (mkTrunSample (flags sample) (Some duration) (Some size)
                (Some compositionTimeOffset)
                (Some currentDts)
                (Some (Double.plus currentDts compositionTimeOffset))
                (Some trackId),
   Double.plus currentDts duration).

Fixpoint stampSamples (defaultSampleDuration defaultSampleSize trackId : Z)
  (currentDts : Z) (samples : list TrunSample) : list TrunSample * Z :=
  match samples with
  | [] => ([], currentDts)
  | sample :: rest =>
      let '(sample, currentDts) :=
        stampSample defaultSampleDuration defaultSampleSize trackId
                    currentDts sample in
      let '(rest, currentDts) :=
        stampSamples defaultSampleDuration defaultSampleSize trackId
                     currentDts rest in
      (sample :: rest, currentDts)
  end.

(** The body of [truns.forEach], over the pair of [currentDts] and
    [allSamples]. *)
Definition parseSamplesStep (defaultSampleDuration defaultSampleSize trackId : Z)
  (state : Z * list TrunSample) (trun : Mp4BoxData)
  : completion (Z * list TrunSample) :=
  let '(currentDts, allSamples) := state in
  trackRun <- parseTrun trun ;;
  let '(samples, currentDts) :=
    stampSamples defaultSampleDuration defaultSampleSize trackId currentDts
                 (samples trackRun) in
  Normal (currentDts, allSamples ++ samples).

Definition parseSamples (truns : list Mp4BoxData) (baseMediaDecodeTime : Z)
  (tfhd : TfhdInfo) : completion (list TrunSample) :=
  let currentDts := baseMediaDecodeTime in
  let defaultSampleDuration := JS.int (defaultSampleDuration tfhd) in
  let defaultSampleSize := JS.int (defaultSampleSize tfhd) in
  let trackId := tfhd_trackId tfhd in
  state <- reduceM (parseSamplesStep defaultSampleDuration defaultSampleSize
                                     trackId)
                   truns (currentDts, []) ;;
  Normal (snd state).




(* ================================================================== *)
(** ** [readNullTerminatedString], [parseId3TrackSamples] *)

Definition ID3_SCHEME_ID_URIS : list string :=
  ["https://aomedia.org/emsg/ID3";
   "https://developer.apple.com/streaming/emsg-id3"]%string.

(** The loop of [readNullTerminatedString]: the index of the first byte
    from [i] on that is 0 or past the end ([String.fromCharCode(undefined)]
    is the null character too). *)
Fixpoint terminatorFrom (buffer : Uint8Array) (fuel : nat) (i : Z) : Z :=
  match fuel with
  | O => i
  | S fuel' =>
      if negb (JS.int (get buffer i) =? 0) && (i <? byteLength buffer)
      then terminatorFrom buffer fuel' (i + 1)
      else i
  end.

Definition readNullTerminatedString (buffer : Uint8Array) (offset : Z)
  : string :=
  let i := terminatorFrom buffer (length buffer) offset in
  bin2str (subarray buffer offset i).

Record Id3Sample := mkId3Sample {
  id3_timescale : Z;
  id3_pts : Z;
  id3_dts : Z;
  id3_duration : option Z;
  id3_id : Z;
  schemeIdUri : string;
  id3_value : string;
  id3_data : Uint8Array
}.

Definition stringLength (s : string) : Z := Z.of_nat (String.length s).

(** The body of the [try] block: [Normal None] is [return undefined]. *)
Definition parseEmsg (emsg : Mp4BoxData) : completion (option Id3Sample) :=
  let data := subarray (data emsg) (start emsg) (end_ emsg) in
  let offset := 0 in
  let view := data in
  version <- getUint8 view offset ;;
  if negb (version =? 1) then Normal None
  else
    let offset := offset + 4 in
    timescale <- getUint32 view offset ;;
    let offset := offset + 4 in
    presentationTime <- getBigUint64 view offset ;;
    let offset := offset + 8 in
    eventDuration <- getUint32 view offset ;;
    let offset := offset + 4 in
    id <- getUint32 view offset ;;
    let offset := offset + 4 in
    let schemeIdUri := readNullTerminatedString data offset in
    if negb (existsb (String.eqb schemeIdUri) ID3_SCHEME_ID_URIS)
    then Normal None
    else
      let offset := offset + (stringLength schemeIdUri + 1) in
      let value := readNullTerminatedString data offset in
      let offset := offset + (stringLength value + 1) in
      let messageData := subarray data offset (byteLength data) in
      Normal (Some (mkId3Sample
                      timescale presentationTime presentationTime
                      (if eventDuration =? 4294967295 then None
                       else Some eventDuration)
                      id schemeIdUri value messageData)).

Definition parseId3TrackSamples (data : Uint8Array)
  : completion (list (option Id3Sample)) :=
  let emsgs := findBox (Raw data) ["emsg"%string] in
  mapM (fun emsg => tryCatch (parseEmsg emsg) (fun _ => Normal None)) emsgs.

(** What one [emsg] box contributes, read off its payload [p]: a record
    when the payload holds the 24 bytes of fixed fields, its version byte
    is 1 and its scheme URI is on the list; [None] ([undefined])
    otherwise. *)
Definition emsgEntry (emsg : Mp4BoxData) : option Id3Sample :=
  let p := subarray (data emsg) (start emsg) (end_ emsg) in
  let uri := readNullTerminatedString p 24 in
  let valueAt := 24 + (stringLength uri + 1) in
  let value := readNullTerminatedString p valueAt in
  if isByte (get p 0) 1 && (24 <=? byteLength p)
     && existsb (String.eqb uri) ID3_SCHEME_ID_URIS
  then Some (mkId3Sample
               (bigEndian32 p 4)
               (bigEndian32 p 8 * 4294967296 + bigEndian32 p 12)
               (bigEndian32 p 8 * 4294967296 + bigEndian32 p 12)
               (if bigEndian32 p 16 =? 4294967295 then None
                else Some (bigEndian32 p 16))
               (bigEndian32 p 20) uri value
               (subarray p (valueAt + (stringLength value + 1)) (byteLength p)))
  else None.

(* ================================================================== *)
(** ** [getStartDTS], [offsetStartDTS] *)

Inductive HdlrType := AUDIO | VIDEO.

Record TrackDefault := mkTrackDefault {
  default_duration : Z;
  default_flags : Z
}.

(** An entry [initData[id]]; [timescale] is [None] when the entry has
    none. *)
Record Track := mkTrack {
  timescale : option Z;
  type : HdlrType;
  default : option TrackDefault
}.

(** [initData[id]]: [None] where the table has no track. *)
Definition InitData := Z -> option Track.

(** [track.timescale || 90e3] *)
Definition timescaleOr90k (track : Track) : Z :=
  match timescale track with
  | Some t => if t =? 0 then 90000 else t
  | None => 90000
  end.

(** [tfdt.data[tfdt.start]] *)
Definition versionOf (box : Mp4BoxData) : option Z := get (data box) (start box).

(** The base decode time of a [tfdt]: 32 bits at offset 4, widened by
    the 32 bits at offset 8 when the version is 1. *)
Definition baseTimeOf (tfdt : Mp4BoxData) : Z :=
  let baseTime := readUint32 (View tfdt) 4 in
  if isByte (versionOf tfdt) 1
  then baseTime * 2 ^ 32 + readUint32 (View tfdt) 8
  else baseTime.

(** [result === null || x < result ? x : result] *)
Definition earlier (result : option Q) (x : Q) : option Q :=
  match result with
  | None => Some x
  | Some r => if JSNumber.ltb x r then Some x else Some r
  end.

(** The callback of the inner [reduce], over the [tfhd] boxes of a
    [traf]. *)
Definition startOfTfhd (initData : InitData) (tfdt : Mp4BoxData)
  (result : option Q) (tfhd : Mp4BoxData) : option Q :=
  let id := readUint32 (View tfhd) 4 in
  match initData id with
  | Some track =>
      let baseTime := baseTimeOf tfdt in
      let scale := timescaleOr90k track in
      match JSNumber.divide baseTime scale with
      | Some startTime => earlier result startTime
      | None => result
      end
  | None => result
  end.

(** The callback of the outer [reduce], over the [traf] boxes.  With no
    [tfdt] in the [traf], [tfdt] is [undefined] and [tfdt.data] throws. *)
Definition startOfTraf (initData : InitData) (result : option Q)
  (traf : Mp4BoxData) : completion (option Q) :=
  match hd_error (findBox (View traf) ["tfdt"%string]) with
  | None => Throw TypeError
  | Some tfdt =>
      let start :=
        fold_left (startOfTfhd initData tfdt)
                  (findBox (View traf) ["tfhd"%string]) None in
      Normal (match start with
              | Some s => earlier result s
              | None => result
              end)
  end.

(** [x || 0] *)
Definition orZero (x : option Q) : Q :=
  match x with
  | Some q => if Qeq_bool q 0 then 0%Q else q
  | None => 0%Q
  end.

Definition getStartDTS (initData : InitData) (fmp4 : Uint8Array)
  : completion Q :=
  result <- reduceM (startOfTraf initData)
                    (findBox (Raw fmp4) ["moof"; "traf"]%string) None ;;
  Normal (orZero result).

Definition UINT32_MAX : Z := 2 ^ 32 - 1.

(** A view found earlier, over the current contents of the one buffer
    every view of a fragment points into. *)
Definition onto (fmp4 : Uint8Array) (box : Mp4BoxData) : Mp4BoxData :=
  mkBox fmp4 (start box) (end_ box).

(** The callback over the [tfdt] boxes: the buffer after the patch.  The
    times are doubles: [readUint32] gives an integer below 2^32, and every
    operator rounds its result. *)
Definition patchTfdt (timeOffset : Double.t) (timescale : Z) (fmp4 : Uint8Array)
  (tfdt : Mp4BoxData) : Uint8Array :=
  let tfdt := onto fmp4 tfdt in
  let version := versionOf tfdt in
  let baseMediaDecodeTime := Double.ofZ (readUint32 (View tfdt) 4) in
  let offset := Double.mul timeOffset (Double.ofZ timescale) in
  if isByte version 0 then
    backing (writeUint32 (View tfdt) 4
               (Double.operand (Double.sub baseMediaDecodeTime offset)))
  else
    let baseMediaDecodeTime :=
      Double.mul baseMediaDecodeTime (Double.fin (inject_Z (2 ^ 32))) in
    let baseMediaDecodeTime :=
      Double.add baseMediaDecodeTime
                 (Double.ofZ (readUint32 (View tfdt) 8)) in
    let baseMediaDecodeTime := Double.sub baseMediaDecodeTime offset in
    let baseMediaDecodeTime := Double.max0 baseMediaDecodeTime in
    let upper :=
      Double.floor
        (Double.divBy baseMediaDecodeTime (inject_Z (UINT32_MAX + 1))) in
    let lower :=
      Double.floor
        (Double.remBy baseMediaDecodeTime (inject_Z (UINT32_MAX + 1))) in
    let patched := writeUint32 (View tfdt) 4 (Double.operand upper) in
    backing (writeUint32 patched 8 (Double.operand lower)).

(** The callback over the [tfhd] boxes of [traf]. *)
Definition offsetTfhd (initData : InitData) (timeOffset : Double.t)
  (traf : Mp4BoxData) (fmp4 : Uint8Array) (tfhd : Mp4BoxData) : Uint8Array :=
  let id := readUint32 (View (onto fmp4 tfhd)) 4 in
  match initData id with
  | None => fmp4
  | Some track =>
      let timescale := timescaleOr90k track in
      fold_left (patchTfdt timeOffset timescale)
                (findBox (View (onto fmp4 traf)) ["tfdt"%string]) fmp4
  end.

(** The callback over the [traf] boxes. *)
Definition offsetTraf (initData : InitData) (timeOffset : Double.t)
  (fmp4 : Uint8Array) (traf : Mp4BoxData) : Uint8Array :=
  fold_left (offsetTfhd initData timeOffset traf)
            (findBox (View (onto fmp4 traf)) ["tfhd"%string]) fmp4.

(** [offsetStartDTS] patches [fmp4] in place: the buffer after the call. *)
Definition offsetStartDTS (initData : InitData) (fmp4 : Uint8Array)
  (timeOffset : Double.t) : Uint8Array :=
  fold_left (offsetTraf initData timeOffset)
            (findBox (Raw fmp4) ["moof"; "traf"]%string) fmp4.

(* ================================================================== *)
(** ** [discardEmulationPreventionBytes] *)

(** The first loop: the positions of the bytes to drop, scanning from
    [i]. *)
Fixpoint findEmulationPreventionBytes (data : Uint8Array) (fuel : nat) (i : Z)
  (positions : list Z) : list Z :=
  if i <? byteLength data - 2 then
    match fuel with
    | O => positions
    | S fuel' =>
        if isByte (get data i) 0 && isByte (get data (i + 1)) 0
           && isByte (get data (i + 2)) 3
        then findEmulationPreventionBytes data fuel' (i + 2)
                                          (positions ++ [i + 2])
        else findEmulationPreventionBytes data fuel' (i + 1) positions
    end
  else positions.

(** The second loop: [newData] filled from [i] on, skipping the source
    bytes at the recorded positions. *)
Fixpoint copyWithout (data : Uint8Array) (newLength : Z) (fuel : nat)
  (i sourceIndex : Z) (positions : list Z) (newData : Uint8Array)
  : Uint8Array :=
  if i <? newLength then
    match fuel with
    | O => newData
    | S fuel' =>
        let '(sourceIndex, positions) :=
          match positions with
          | p :: rest =>
              if sourceIndex =? p then (sourceIndex + 1, rest)
              else (sourceIndex, positions)
          | [] => (sourceIndex, positions)
          end in
        let newData := set newData i (JS.int (get data sourceIndex)) in
        copyWithout data newLength fuel' (i + 1) (sourceIndex + 1)
                    positions newData
    end
  else newData.

Definition discardEmulationPreventionBytes (data : Uint8Array) : Uint8Array :=
  let length := byteLength data in
  let emulationPreventionBytesPositions :=
    findEmulationPreventionBytes data (Z.to_nat length) 1 [] in
  match emulationPreventionBytesPositions with
  | [] => data
  | _ :: _ =>
      let newLength :=
        length - Z.of_nat (List.length emulationPreventionBytesPositions) in
      let newData := repeat x00 (Z.to_nat newLength) in
      copyWithout data newLength (Z.to_nat newLength) 0 0
                  emulationPreventionBytesPositions newData
  end.

(* ================================================================== *)
(** ** Vocabulary of the further properties *)

(** [0x00 0x00 0x03] *)
Definition isTriple (b0 b1 b2 : byte) : bool :=
  (byteValue b0 =? 0) && (byteValue b1 =? 0) && (byteValue b2 =? 3).

(** Emulation prevention undone on a byte list, as H.264 words it: every
    [0x00 0x00 0x03] loses its [0x03], reading from left to right. *)
Fixpoint stripEmulationPrevention (l : list byte) : list byte :=
  match l with
  | [] => []
  | b0 :: tl =>
      match tl with
      | b1 :: b2 :: rest =>
          if isTriple b0 b1 b2
          then b0 :: b1 :: stripEmulationPrevention rest
          else b0 :: stripEmulationPrevention tl
      | _ => b0 :: stripEmulationPrevention tl
      end
  end.

(** The offsets, from the start of [l], that the first loop of
    [discardEmulationPreventionBytes] records when it scans [l]: after a
    triple the scan goes on from its third byte. *)
Fixpoint tripleOffsets (l : list byte) : list nat :=
  match l with
  | [] => []
  | b0 :: tl =>
      match tl with
      | [] => []
      | b1 :: tl2 =>
          match tl2 with
          | [] => []
          | b2 :: _ =>
              if isTriple b0 b1 b2
              then 2%nat :: map (fun p => (2 + p)%nat) (tripleOffsets tl2)
              else map S (tripleOffsets tl)
          end
      end
  end.

(** [l] without the elements at the offsets [ps], the first element of [l]
    standing at offset [k]. *)
Fixpoint deleteAt (k : nat) (ps : list nat) (l : list byte) : list byte :=
  match l with
  | [] => []
  | b :: tl =>
      match ps with
      | [] => b :: tl
      | p :: ps' =>
          if (k =? p)%nat then deleteAt (S k) ps' tl
          else b :: deleteAt (S k) ps tl
      end
  end.

(** Offsets in increasing order, none below [k], no two next to each
    other. *)
Fixpoint gapped (k : nat) (ps : list nat) : Prop :=
  match ps with
  | [] => True
  | p :: ps' => (k <= p)%nat /\ gapped (p + 2) ps'
  end.

(** The start time, in seconds, that a [tfhd] contributes: the base decode
    time of the [tfdt] over the timescale of its track, when the track id
    is in the table. *)
Definition timeOfTfhd (initData : InitData) (tfdt tfhd : Mp4BoxData)
  : list Q :=
  match initData (readUint32 (View tfhd) 4) with
  | Some track =>
      [(inject_Z (baseTimeOf tfdt) / inject_Z (timescaleOr90k track))%Q]
  | None => []
  end.

(** The start times that [getStartDTS] chooses from: for every [traf],
    those of its [tfhd] boxes against its first [tfdt]. *)
Definition startTimesOfTraf (initData : InitData) (traf : Mp4BoxData)
  : list Q :=
  match hd_error (findBox (View traf) ["tfdt"%string]) with
  | None => []
  | Some tfdt =>
      flat_map (timeOfTfhd initData tfdt) (findBox (View traf) ["tfhd"%string])
  end.

Definition startTimes (initData : InitData) (fmp4 : Uint8Array) : list Q :=
  flat_map (startTimesOfTraf initData)
           (findBox (Raw fmp4) ["moof"; "traf"]%string).

(** [r] is the earliest of [l]: nothing when [l] is empty, else a member
    of [l] that no member is below. *)
Definition earliestOf (r : option Q) (l : list Q) : Prop :=
  match r with
  | None => l = []
  | Some m => In m l /\ forall c, In c l -> (m <= c)%Q
  end.

(* ================================================================== *)
(** ** [appendUint8Array] *)

(** [target.set(source, offset)]: a [RangeError] when the source does not
    fit. *)
Definition setArray (target source : Uint8Array) (offset : Z)
  : completion Uint8Array :=
  if fits target offset (byteLength source)
  then Normal (firstn (Z.to_nat offset) target ++ source
               ++ skipn (Z.to_nat offset + length source) target)
  else Throw RangeError.

Definition appendUint8Array (data1 data2 : Uint8Array)
  : completion Uint8Array :=
  let temp := repeat x00 (Z.to_nat (byteLength data1 + byteLength data2)) in
  temp <- setArray temp data1 0 ;;
  temp <- setArray temp data2 (byteLength data1) ;;
  Normal temp.

(* ================================================================== *)
(** ** [computeRawDurationFromSamples] *)

(** [flags & mask] as a condition. *)
Definition flagSet (flags mask : Z) : bool := negb (JS.band flags mask =? 0).

(** The loop over the samples, [remaining] to go. *)
Fixpoint rawDurationLoop (trun : Mp4BoxData) (flags : Z) (remaining : nat)
  (offset duration : Z) : Z :=
  match remaining with
  | O => duration
  | S remaining' =>
      let '(duration, offset) :=
        if flagSet flags 256
        then (duration + readUint32 (View trun) offset, offset + 4)
        else (duration, offset) in
      let offset := if flagSet flags 512 then offset + 4 else offset in
      let offset := if flagSet flags 1024 then offset + 4 else offset in
      let offset := if flagSet flags 2048 then offset + 4 else offset in
      rawDurationLoop trun flags remaining' offset duration
  end.

Definition computeRawDurationFromSamples (trun : Mp4BoxData) : Z :=
  let flags := readUint32 (View trun) 0 in
  let offset := 8 in
  let offset := if flagSet flags 1 then offset + 4 else offset in
  let offset := if flagSet flags 4 then offset + 4 else offset in
  let duration := 0 in
  let sampleCount := readUint32 (View trun) 4 in
  rawDurationLoop trun flags (Z.to_nat sampleCount) offset duration.

(* ================================================================== *)
(** ** [mapToSample] *)

(** [sample?.size] as a condition: defined and not 0. *)
Definition hasSize (sample : TrunSample) : bool :=
  match size sample with Some s => negb (s =? 0) | None => false end.

Fixpoint mapToSample (offset : Z) (samples : list TrunSample)
  : option TrunSample :=
  match samples with
  | [] => None
  | sample :: rest =>
      let approximateOffset := offset in
      if hasSize sample && (approximateOffset <? JS.int (size sample))
      then Some sample
      else mapToSample
             (approximateOffset
              - (if hasSize sample then JS.int (size sample) else 0))
             rest
  end.

(* ================================================================== *)
(** ** [parseTfdt], [parseTfhd] *)





Definition parseTfhd (tfhd : Mp4BoxData) : completion TfhdInfo :=
  let data := subarray (data tfhd) (start tfhd) (end_ tfhd) in
  let view := data in
  let version := get data 0 in
  let flags := subarray data 1 4 in
  trackId <- getUint32 view 4 ;;
  let baseDataOffsetPresent := JS.band (JS.int (get flags 2)) 1 in
  let sampleDescriptionIndexPresent := JS.band (JS.int (get flags 2)) 2 in
  let defaultSampleDurationPresent := JS.band (JS.int (get flags 2)) 8 in
  let defaultSampleSizePresent := JS.band (JS.int (get flags 2)) 16 in
  let defaultSampleFlagsPresent := JS.band (JS.int (get flags 2)) 32 in
  let durationIsEmpty := JS.band (JS.int (get flags 0)) 65536 in
  let defaultBaseIsMoof := JS.band (JS.int (get flags 0)) 131072 in
  let i := 8 in
  '(baseDataOffset, i) <-
    (if baseDataOffsetPresent =? 0 then Normal (None, i)
     else
       let i := i + 4 in
       v <- getUint32 view i ;; Normal (Some v, i + 4)) ;;
  '(sampleDescriptionIndex, i) <-
    optionalUint32 view sampleDescriptionIndexPresent i ;;
  '(defaultSampleDuration, i) <-
    optionalUint32 view defaultSampleDurationPresent i ;;
  '(defaultSampleSize, i) <- optionalUint32 view defaultSampleSizePresent i ;;
  '(defaultSampleFlags, _) <-
    optionalUint32 view defaultSampleFlagsPresent i ;;
  Normal (mkTfhdInfo version flags trackId baseDataOffset
            sampleDescriptionIndex defaultSampleDuration defaultSampleSize
            defaultSampleFlags
            (if durationIsEmpty =? 0 then None else Some true)
            (if (baseDataOffsetPresent =? 0) && negb (defaultBaseIsMoof =? 0)
             then Some true else None)).

(* ================================================================== *)
(** ** [parseUserData], [parseSei] *)

(** [payloadType] and [payloadSize] are numbers that can be [NaN] (a sum
    with an absent byte): [None]. *)
Record SeiNalUnits := mkSeiNalUnits {
  payloadType : option Z;
  payloadSize : option Z;
  payload : option Uint8Array
}.

Definition parseUserData (sei : SeiNalUnits) : option Uint8Array :=
  match payload sei with
  | None => None
  | Some payload =>
      if negb (isByte (get payload 0) 181) then None
      else if negb (JS.bor (JS.shl (JS.int (get payload 1)) 8)
                           (JS.int (get payload 2)) =? 49) then None
      else if negb (String.eqb
                      (bin2str [byteOfZ (JS.int (get payload 3));
                                byteOfZ (JS.int (get payload 4));
                                byteOfZ (JS.int (get payload 5));
                                byteOfZ (JS.int (get payload 6))])
                      "GA94") then None
      else if negb (isByte (get payload 7) 3) then None
      else Some (subarray payload 8 (byteLength payload - 1))
  end.

(** [while (bytes[i] === 0xff) { sum += 255; i++; }]: the index and the
    sum after the run. *)
Fixpoint skip255 (bytes : Uint8Array) (fuel : nat) (i sum : Z) : Z * Z :=
  match fuel with
  | O => (i, sum)
  | S fuel' =>
      if isByte (get bytes i) 255 then skip255 bytes fuel' (i + 1) (sum + 255)
      else (i, sum)
  end.

(** [sum + bytes[i]]: [NaN] when the byte is absent. *)
Definition plusByte (sum : Z) (b : option Z) : option Z :=
  option_map (fun v => sum + v) b.

Definition noSei : SeiNalUnits := mkSeiNalUnits (Some (-1)) (Some 0) None.

(** The outer loop of [parseSei]; [payloadType] and [payloadSize] are 0 at
    the start of every iteration. *)
Fixpoint parseSeiFrom (bytes : Uint8Array) (fuel : nat) (i : Z)
  : SeiNalUnits :=
  match fuel with
  | O => noSei
  | S fuel' =>
      if i <? byteLength bytes then
        if isByte (get bytes i) 128 then noSei
        else
          let '(i, payloadType) := skip255 bytes (length bytes) i 0 in
          let payloadType := plusByte payloadType (get bytes i) in
          let i := i + 1 in
          let '(i, payloadSize) := skip255 bytes (length bytes) i 0 in
          let payloadSize := plusByte payloadSize (get bytes i) in
          let i := i + 1 in
          if match payloadType with Some t => t =? 4 | None => false end then
            mkSeiNalUnits payloadType payloadSize
              (Some (subarray bytes i
                       (match payloadSize with
                        | Some s => i + s
                        | None => 0
                        end)))
          else
            match payloadSize with
            | Some s => parseSeiFrom bytes fuel' (i + s)
            | None => noSei
            end
      else noSei
  end.

Definition parseSei (bytes : Uint8Array) : SeiNalUnits :=
  parseSeiFrom bytes (length bytes) 0.

(** Bit [i] of the flags of a [trun], as 0 or 1. *)
Definition bitOf (flags i : Z) : Z := Z.b2z (Z.testbit flags i).

(** Where the first sample record of a [trun] starts (after the version
    and flags, the sample count, and the data offset and first-sample
    flags when present), and how many bytes one record takes (4 for each
    of duration, size, flags and composition offset that is present). *)
Definition trunFirstRecord (flags : Z) : Z :=
  8 + 4 * bitOf flags 0 + 4 * bitOf flags 2.

Definition trunRecordSize (flags : Z) : Z :=
  4 * (bitOf flags 8 + bitOf flags 9 + bitOf flags 10 + bitOf flags 11).

(** The sum of the 32-bit words of [box] at [first], [first + step], ...,
    [count] of them. *)
Definition sumOfWords (box : Mp4BoxData) (first step : Z) (count : nat) : Z :=
  fold_right Z.add 0
    (map (fun k => readUint32 (View box) (first + step * Z.of_nat k))
         (seq 0 count)).

(** The bytes [mapToSample] counts for a sample (its size, 0 when it has
    none), and for a list of samples. *)
Definition sampleBytes (sample : TrunSample) : Z :=
  if hasSize sample then JS.int (size sample) else 0.

Definition totalBytes (samples : list TrunSample) : Z :=
  fold_right Z.add 0 (map sampleBytes samples).

(** The ITU-T T.35 header of a caption payload: country code 181,
    provider code 49, the identifier ["GA94"] and the type code 3. *)
Definition captionHeader : Uint8Array :=
  [xb5; x00; x31; x47; x41; x39; x34; x03].

(** The bytes of [l] before its first 0 byte. *)
Fixpoint untilZero (l : list byte) : list byte :=
  match l with
  | [] => []
  | b :: tl => if byteValue b =? 0 then [] else b :: untilZero tl
  end.

(** The byte ranges of a list of references lie one after the other from
    [startByte]: each starts where the one before ended and covers
    [referenceSize] bytes, its [end] being its last byte. *)
Fixpoint contiguousFrom (startByte : Z) (refs : list SidxReference) : Prop :=
  match refs with
  | [] => True
  | r :: rest =>
      info_start r = startByte /\
      info_end r = startByte + referenceSize r - 1 /\
      contiguousFrom (startByte + referenceSize r) rest
  end.

(** Whether an optional field of a sample was read. *)
Definition given {A} (x : option A) : bool :=
  match x with Some _ => true | None => false end.

(** The coding of a number in the header of an SEI message (Rec. ITU-T
    H.264, 7.3.2.3.1): a byte 0xFF for every 255 in it, then the rest; and
    a message of a payload type with its payload. *)
Definition seiNumber (n : Z) : Uint8Array :=
  repeat xff (Z.to_nat (n / 255)) ++ [byteOfZ (n mod 255)].

Definition seiMessage (m : Z * Uint8Array) : Uint8Array :=
  seiNumber (fst m) ++ seiNumber (byteLength (snd m)) ++ snd m.

(* ================================================================== *)
(** ** [parseInitSegment] *)

(** [result.audio] and [result.video]; [codec] is [None] when the track
    has no [stsd]. *)
Record InitDataTrack := mkInitDataTrack {
  idt_timescale : Z;
  idt_id : Z;
  codec : option string
}.

(** The result of [parseInitSegment]: the entries [result[trackId]] and
    the two named ones. *)
Record InitSegment := mkInitSegment {
  tracks : InitData;
  audio : option InitDataTrack;
  video : option InitDataTrack
}.

(** [result[trackId] = track] *)
Definition setTrack (tracks : InitData) (trackId : Z) (track : Track)
  : InitData :=
  fun id => if id =? trackId then Some track else tracks id.

(** [{ soun: AUDIO, vide: VIDEO }[hdlrType]]; [hdlrType] has at most four
    characters, so no inherited property of the object has its name. *)
Definition hdlrTypeOf (hdlrType : string) : option HdlrType :=
  if String.eqb hdlrType "soun" then Some AUDIO
  else if String.eqb hdlrType "vide" then Some VIDEO
  else None.

(** [version === 0 ? 12 : 20] *)
Definition versionedIndex (box : Mp4BoxData) : Z :=
  if isByte (versionOf box) 0 then 12 else 20.

(** The body of the loop over the [trak] boxes. *)
Definition addTrak (result : InitSegment) (trak : Mp4BoxData)
  : InitSegment :=
  match hd_error (findBox (View trak) ["tkhd"%string]) with
  | None => result
  | Some tkhd =>
      let trackId := readUint32 (View tkhd) (versionedIndex tkhd) in
      match hd_error (findBox (View trak) ["mdia"; "mdhd"]%string) with
      | None => result
      | Some mdhd =>
          let timescale := readUint32 (View mdhd) (versionedIndex mdhd) in
          match hd_error (findBox (View trak) ["mdia"; "hdlr"]%string) with
          | None => result
          | Some hdlr =>
              let hdlrType :=
                bin2str (subarray (data hdlr) (start hdlr + 8)
                                  (start hdlr + 12)) in
              match hdlrTypeOf hdlrType with
              | None => result
              | Some type =>
                  let stsd :=
                    hd_error (findBox (View trak)
                                ["mdia"; "minf"; "stbl"; "stsd"]%string) in
                  let codec :=
                    option_map
                      (fun stsd =>
                         bin2str (subarray (data stsd) (start stsd + 12)
                                           (start stsd + 16)))
                      stsd in
                  let tracks :=
                    setTrack (tracks result) trackId
                             (mkTrack (Some timescale) type None) in
                  let named := Some (mkInitDataTrack timescale trackId codec) in
                  match type with
                  | AUDIO => mkInitSegment tracks named (video result)
                  | VIDEO => mkInitSegment tracks (audio result) named
                  end
              end
          end
      end
  end.

(** The callback over the [trex] boxes. *)
Definition addTrex (result : InitSegment) (trex : Mp4BoxData)
  : InitSegment :=
  let trackId := readUint32 (View trex) 4 in
  match tracks result trackId with
  | None => result
  | Some track =>
      let track :=
        mkTrack (timescale track) (type track)
                (Some (mkTrackDefault (readUint32 (View trex) 12)
                                      (readUint32 (View trex) 20))) in
      mkInitSegment (setTrack (tracks result) trackId track)
                    (audio result) (video result)
  end.

Definition parseInitSegment (initSegment : Uint8Array) : InitSegment :=
  let result := mkInitSegment (fun _ => None) None None in
  let traks := findBox (Raw initSegment) ["moov"; "trak"]%string in
  let result := fold_left addTrak traks result in
  let trex := findBox (Raw initSegment) ["moov"; "mvex"; "trex"]%string in
  fold_left addTrex trex result.

(* ================================================================== *)
(** ** [getDuration] *)

(** A number that may not be finite: the duration of a reference of a
    [sidx] whose timescale is 0 is [Infinity], or [NaN] when its subsegment
    duration is 0 too.  Finite numbers are exact here. *)
Inductive Number :=
| Finite (q : Q)
| Infinity
| NaN.

(** [ref.info.duration] *)
Definition durationOf (ref : SidxReference) : Number :=
  match info_duration ref with
  | Some q => Finite q
  | None => if subsegmentDuration ref =? 0 then NaN else Infinity
  end.

(** [dur + x], for the sums of [getDuration], which are never negative. *)
Definition plus (dur x : Number) : Number :=
  match dur, x with
  | Finite a, Finite b => Finite (a + b)
  | NaN, _ | _, NaN => NaN
  | _, _ => Infinity
  end.

(** [x || 0] *)
Definition orNumberZero (x : Number) : Number :=
  match x with
  | Finite q => if Qeq_bool q 0 then Finite 0 else x
  | Infinity => Infinity
  | NaN => Finite 0
  end.

(** [sampleDuration] as a condition: defined and not 0. *)
Definition truthy (x : option Z) : bool :=
  match x with Some z => negb (z =? 0) | None => false end.

(** The body of the loop over the [trun] boxes of a [traf]: the video and
    the audio duration so far. *)
Definition addTrun (track : Track) (sampleDuration : option Z)
  (durations : Q * Q) (trun : Mp4BoxData) : Q * Q :=
  let '(videoDuration, audioDuration) := durations in
  let rawDuration :=
    if truthy sampleDuration then
      let sampleCount := readUint32 (View trun) 4 in
      JS.int sampleDuration * sampleCount
    else computeRawDurationFromSamples trun in
  let timescale := timescaleOr90k track in
  let seconds := (inject_Z rawDuration / inject_Z timescale)%Q in
  match type track with
  | VIDEO => ((videoDuration + seconds)%Q, audioDuration)
  | AUDIO => (videoDuration, (audioDuration + seconds)%Q)
  end.

(** The body of the loop over the [traf] boxes.  With no [tfhd] in the
    [traf], [tfhd] is [undefined] and [readUint32(tfhd, 4)] throws. *)
Definition addTraf (initData : InitData) (durations : Q * Q)
  (traf : Mp4BoxData) : completion (Q * Q) :=
  match hd_error (findBox (View traf) ["tfhd"%string]) with
  | None => Throw TypeError
  | Some tfhd =>
      let id := readUint32 (View tfhd) 4 in
      match initData id with
      | None => Normal durations
      | Some track =>
          let trackDefault := default track in
          let tfhdFlags :=
            JS.bor (readUint32 (View tfhd) 0)
                   (JS.int (option_map default_flags trackDefault)) in
          let sampleDuration := option_map default_duration trackDefault in
          let sampleDuration :=
            if flagSet tfhdFlags 8 then
              if flagSet tfhdFlags 2 then Some (readUint32 (View tfhd) 12)
              else Some (readUint32 (View tfhd) 8)
            else sampleDuration in
          let truns := findBox (View traf) ["trun"%string] in
          Normal (fold_left (addTrun track sampleDuration) truns durations)
      end
  end.

Definition getDuration (data : Uint8Array) (initData : InitData)
  : completion Number :=
  let trafs := findBox (Raw data) ["moof"; "traf"]%string in
  '(videoDuration, audioDuration) <-
    reduceM (addTraf initData) trafs (0%Q, 0%Q) ;;
  let fromSidx :=
    if Qeq_bool videoDuration 0 && Qeq_bool audioDuration 0 then
      match parseSegmentIndex data with
      | Some sidx =>
          Some (fold_left (fun dur ref => orNumberZero (plus dur (durationOf ref)))
                          (references sidx) (Finite 0))
      | None => None
      end
    else None in
  match fromSidx with
  | Some total => Normal total
  | None =>
      if negb (Qeq_bool videoDuration 0) then Normal (Finite videoDuration)
      else Normal (Finite audioDuration)
  end.

(* ================================================================== *)
(** ** The layout of a [sidx] box *)

(** Where ISO/IEC 14496-12 puts the reference count of a [sidx] box,
    counted from the start of its payload and read off the version byte of
    the box itself: after the version and flags, the reference id and the
    timescale (4 bytes each), the earliest presentation time and the first
    offset (4 bytes each in version 0, 8 each otherwise) and 2 reserved
    bytes.  The references follow the count, 12 bytes each, the reference
    word first. *)
Definition sidxCountOffset (sidx : Mp4BoxData) : Z :=
  if isByte (versionOf sidx) 0 then 22 else 30.

Definition sidxReferenceCount (sidx : Mp4BoxData) : Z :=
  readUint16 (View sidx) (sidxCountOffset sidx).

Definition sidxReferenceWord (sidx : Mp4BoxData) (k : Z) : Z :=
  readUint32 (View sidx) (sidxCountOffset sidx + 2 + 12 * k).
(* ================================================================== *)
(** ** Concrete buffers *)

(** Builders for the buffers the examples below run on. *)
Module Fixture.

Definition u32 (z : Z) : Uint8Array :=
  [byteOfZ (z / 16777216); byteOfZ (z / 65536); byteOfZ (z / 256); byteOfZ z].

(** A box whose size field is [size], whatever its payload. *)
Definition sized (size : Z) (name : string) (payload : Uint8Array)
  : Uint8Array :=
  u32 size ++ list_byte_of_string name ++ payload.

(** A box whose size field is its length. *)
Definition box (name : string) (payload : Uint8Array) : Uint8Array :=
  sized (8 + byteLength payload) name payload.

(** An empty [moov] whose size field says 100 bytes, and one whose size
    field says 2. *)
Definition overstated : Uint8Array := sized 100 "moov" [].
Definition understated : Uint8Array := sized 2 "moov" [].

(** A version-0 [sidx] at the start of the buffer, timescale 90000, two
    references of sizes 1000 and 2000 and duration 45000 each; in
    [sidxHierarchical] the second reference has its type bit set. *)
Definition sidxWith (second : Z) : Uint8Array :=
  box "sidx"
      (repeat x00 8 ++ u32 90000 ++ repeat x00 8 ++ [x00; x00]
       ++ [x00; x02]
       ++ u32 1000 ++ u32 45000 ++ u32 0
       ++ u32 second ++ u32 45000 ++ u32 0).

Definition sidxFlat : Uint8Array := sidxWith 2000.
Definition sidxHierarchical : Uint8Array := sidxWith (2147483648 + 2000).

(** A [trun] with a data offset and, for each of its two samples, a
    duration, a size and a composition offset; a [tfhd] of track 1 with
    no defaults. *)
Definition trunBytes : Uint8Array :=
  box "trun"
      ([x00; x00; x0b; x01] ++ u32 2 ++ u32 0
       ++ u32 1000 ++ u32 10 ++ u32 500
       ++ u32 1000 ++ u32 20 ++ u32 0).

Definition trun : Mp4BoxData := mkBox trunBytes 8 (byteLength trunBytes).

Definition tfhd : TfhdInfo :=
  mkTfhdInfo (Some 0) [x00; x00; x00] 1 None None None None None None None.

Definition trunSamples : list TrunSample :=
  [mkTrunSample None (Some 1000) (Some 10) (Some 500)
                (Some 9000) (Some 9500) (Some 1);
   mkTrunSample None (Some 1000) (Some 20) (Some 0)
                (Some 10000) (Some 10000) (Some 1)].

(** A fragment whose only [traf] holds a [tfhd] of track 1 and no
    [tfdt]. *)
Definition fragmentWithoutTfdt : Uint8Array :=
  box "moof" (box "traf" (box "tfhd" (u32 0 ++ u32 1))).

(** A fragment with one [traf]: a [tfhd] of track [track] and a [tfdt]
    of the given version whose payload after the version and flags is
    [time]. *)
Definition fragment (track : Z) (version : byte) (time : Uint8Array)
  : Uint8Array :=
  box "moof"
      (box "traf"
           (box "tfhd" (u32 0 ++ u32 track)
            ++ box "tfdt" ([version; x00; x00; x00] ++ time))).

(** An init-data table with the video track 1 at 90 kHz and the audio
    track 2 with no timescale. *)
Definition initData : InitData :=
  fun id =>
    if id =? 1 then Some (mkTrack (Some 90000) VIDEO None)
    else if id =? 2 then Some (mkTrack None AUDIO None)
    else None.

(** An [emsg] payload of the given version: timescale 90000,
    presentation time 180000, unknown duration, id 7, the scheme URI
    [uri], the value ["v"] and three bytes of ID3 data. *)
Definition emsg (version : byte) (uri : string) : Uint8Array :=
  box "emsg"
      ([version; x00; x00; x00] ++ u32 90000 ++ u32 0 ++ u32 180000
       ++ u32 4294967295 ++ u32 7
       ++ list_byte_of_string uri ++ [x00]
       ++ list_byte_of_string "v" ++ [x00]
       ++ [x49; x44; x33]).

(** The fragment of track 1 with a version-1 [tfdt] at time 900000, and
    the fragment of track 2 with a version-0 [tfdt] at time 90000. *)
Definition fragment64 : Uint8Array := fragment 1 x01 (u32 0 ++ u32 900000).
Definition fragment32 : Uint8Array := fragment 2 x00 (u32 90000).

End Fixture.

(* ================================================================== *)
(** ** An encoder for [emsg] payloads *)

(** The version-1 [emsg] payload that carries [sample]: the version and
    flags, the timescale, the 64-bit presentation time, the duration
    (0xFFFFFFFF when unknown), the id, the scheme URI and the value, each
    ended by a 0 byte, and the ID3 data. *)
Definition id3Emsg (sample : Id3Sample) : Uint8Array :=
  [x01; x00; x00; x00]
  ++ Fixture.u32 (id3_timescale sample)
  ++ Fixture.u32 (id3_pts sample / 2 ^ 32)
  ++ Fixture.u32 (id3_pts sample mod 2 ^ 32)
  ++ Fixture.u32 (match id3_duration sample with
                  | Some d => d
                  | None => 4294967295
                  end)
  ++ Fixture.u32 (id3_id sample)
  ++ list_byte_of_string (schemeIdUri sample) ++ [x00]
  ++ list_byte_of_string (id3_value sample) ++ [x00]
  ++ id3_data sample.

(** No character of [s] is the null character. *)
Definition noNul (s : string) : bool :=
  forallb (fun b => negb (byteValue b =? 0)) (list_byte_of_string s).

(** The samples [id3Emsg] can carry: the fields fit their widths (the
    presentation time the 53 bits a number holds exactly), the decode time
    is the presentation time, the scheme is one of the ID3 schemes, and
    the box fits a 32-bit size. *)
Definition id3Encodable (sample : Id3Sample) : Prop :=
  0 <= id3_timescale sample < 2 ^ 32 /\
  0 <= id3_pts sample < 2 ^ 53 /\
  id3_dts sample = id3_pts sample /\
  match id3_duration sample with
  | Some d => 0 <= d < 2 ^ 32 - 1
  | None => True
  end /\
  0 <= id3_id sample < 2 ^ 32 /\
  In (schemeIdUri sample) ID3_SCHEME_ID_URIS /\
  noNul (id3_value sample) = true /\
  8 + byteLength (id3Emsg sample) < 2 ^ 32.

(* ================================================================== *)
(** ** A track run of one-tick samples *)


(* ================================================================== *)
(** ** A version-1 segment index *)

(** A well-formed version-1 [sidx] at the start of the buffer: reference
    id 1, timescale 90000, a 64-bit earliest presentation time and first
    offset of 0, and one reference, of size 1000 and duration 45000, whose
    type bit is set. *)
Definition sidxOfVersion1 : Uint8Array :=
  Fixture.box "sidx"
    ([x01; x00; x00; x00] ++ Fixture.u32 1 ++ Fixture.u32 90000
     ++ repeat x00 8 ++ repeat x00 8 ++ [x00; x00]
     ++ [x00; x01]
     ++ Fixture.u32 (2147483648 + 1000) ++ Fixture.u32 45000 ++ Fixture.u32 0).

(* ================================================================== *)
(** ** Well-formed fragments *)

(** A box as its type and its payload; the bytes of a box and of a run of
    boxes. *)
Definition Box : Type := string * Uint8Array.

Definition boxBytes (b : Box) : Uint8Array := Fixture.box (fst b) (snd b).

Definition boxesBytes (l : list Box) : Uint8Array := flat_map boxBytes l.


(** A child of a [moof] is a [traf], given by its children, or another
    box; a box of the top level is a [moof], given by its children, or
    another box. *)
Inductive MoofChild :=
| Traf (children : list Box)
| OtherChild (b : Box).

Inductive TopBox :=
| Moof (children : list MoofChild)
| OtherBox (b : Box).

Definition moofChildBox (c : MoofChild) : Box :=
  match c with
  | Traf children => ("traf"%string, boxesBytes children)
  | OtherChild b => b
  end.

Definition topBoxBox (t : TopBox) : Box :=
  match t with
  | Moof children => ("moof"%string, boxesBytes (map moofChildBox children))
  | OtherBox b => b
  end.

Definition fragmentBytes (f : list TopBox) : Uint8Array :=
  boxesBytes (map topBoxBox f).






(** The payload of a [tfdt] after one patch, for a track of timescale
    [timescale]: in version 0 the 32-bit time less
    the offset is written as it is; otherwise the time, decoded as
    [high * 2^32 + low], less the offset and cut off at 0, is split by
    floor-division and floor-modulo by 2^32.  The arithmetic is that of
    doubles, and a word is stored modulo 2^32. *)
Definition shiftedTfdt (timeOffset : Double.t) (timescale : Z) (p : Uint8Array)
  : Uint8Array :=
  let offset := Double.mul timeOffset (Double.ofZ timescale) in
  if isByte (get p 0) 0 then
    let time := Double.sub (Double.ofZ (bigEndian32 p 4)) offset in
    firstn 4 p
    ++ Fixture.u32 (JS.NumberToInt32 (Double.operand time))
    ++ skipn 8 p
  else
    let original :=
      Double.add (Double.mul (Double.ofZ (bigEndian32 p 4))
                             (Double.fin (inject_Z (2 ^ 32))))
                 (Double.ofZ (bigEndian32 p 8)) in
    let time := Double.max0 (Double.sub original offset) in
    let upper := Double.floor (Double.divBy time (inject_Z (2 ^ 32))) in
    let lower := Double.floor (Double.remBy time (inject_Z (2 ^ 32))) in
    firstn 4 p
    ++ Fixture.u32 (JS.NumberToInt32 (Double.operand upper))
    ++ Fixture.u32 (JS.NumberToInt32 (Double.operand lower))
    ++ skipn 12 p.

Definition shiftTfdt (timeOffset : Double.t) (timescale : Z) (b : Box) : Box :=
  if String.eqb (fst b) "tfdt" then
    (fst b, shiftedTfdt timeOffset timescale (snd b))
  else b.




(** The views of the boxes of type [name] in a run of boxes that starts at
    [s], over the array [a]. *)
Fixpoint viewsOf (a : Uint8Array) (name : string) (s : Z) (l : list Box)
  : list Mp4BoxData :=
  match l with
  | [] => []
  | b :: rest =>
      (if String.eqb (fst b) name
       then [mkBox a (s + 8) (s + 8 + byteLength (snd b))]
       else [])
      ++ viewsOf a name (s + 8 + byteLength (snd b)) rest
  end.

(** A fragment as a tree of boxes: a [moof] with an [mfhd] and one [traf]
    that holds a [tfhd] for each of the tracks [ids] and a [tfdt] of the
    given version and time words, and an [mdat] after it. *)
Definition fragmentOf (ids : list Z) (version : byte) (time : Uint8Array)
  : list TopBox :=
  [Moof [OtherChild ("mfhd"%string, Fixture.u32 0 ++ Fixture.u32 1);
         Traf (map (fun id => ("tfhd"%string,
                               Fixture.u32 0 ++ Fixture.u32 id)) ids
               ++ [("tfdt"%string, [version; x00; x00; x00] ++ time)])];
   OtherBox ("mdat"%string, [x01; x02])].

(** The double nearest to 0.1. *)
Definition tenth : Double.t :=
  Double.fin (3602879701896397 # 36028797018963968).

(* ================================================================== *)
(** * Properties *)

(** ** Bytes and typed arrays *)

Lemma byteValue_range b : 0 <= byteValue b < 256.
Proof.
  unfold byteValue. pose proof (Byte.to_N_bounded b). lia.
Qed.

Lemma byteValue_byteOfZ z : byteValue (byteOfZ z) = z mod 256.
Proof.
  unfold byteOfZ, byteValue, JS.ToUint8.
  assert (Hr : 0 <= z mod 256 < 256) by (apply Z.mod_pos_bound; lia).
  destruct (Byte.of_N (Z.to_N (z mod 256))) as [b|] eqn:E.
  - apply Byte.to_of_N in E. rewrite E. lia.
  - apply Byte.of_N_None_iff in E. lia.
Qed.

Lemma get_range a i v : get a i = Some v -> 0 <= v < 256.
Proof.
  unfold get. destruct (inRange a i); [|discriminate].
  destruct (nth_error a (Z.to_nat i)); simpl; [|discriminate].
  intros [= <-]. apply byteValue_range.
Qed.

Lemma int_get_range a i : 0 <= JS.int (get a i) < 256.
Proof.
  destruct (get a i) eqn:E; simpl; [eapply get_range; eauto | lia].
Qed.

Lemma inRange_spec a i : inRange a i = true <-> 0 <= i < byteLength a.
Proof. unfold inRange. rewrite andb_true_iff, Z.leb_le, Z.ltb_lt. tauto. Qed.

Lemma length_set a i v : length (set a i v) = length a.
Proof.
  unfold set. destruct (inRange a i) eqn:E; [|reflexivity].
  apply inRange_spec in E. unfold byteLength in E.
  rewrite length_app, length_firstn. cbn [length].
  rewrite length_skipn. lia.
Qed.

Lemma byteLength_set a i v : byteLength (set a i v) = byteLength a.
Proof. unfold byteLength. now rewrite length_set. Qed.

Lemma get_set_same a i v :
  0 <= i < byteLength a -> get (set a i v) i = Some (v mod 256).
Proof.
  intros H. unfold get.
  assert (E : inRange a i = true) by now apply inRange_spec.
  assert (E' : inRange (set a i v) i = true)
    by (apply inRange_spec; now rewrite byteLength_set).
  rewrite E'. unfold set. rewrite E.
  unfold byteLength in H.
  rewrite nth_error_app2 by (rewrite length_firstn; lia).
  rewrite length_firstn.
  replace (Z.to_nat i - Nat.min (Z.to_nat i) (length a))%nat with 0%nat by lia.
  simpl. now rewrite byteValue_byteOfZ.
Qed.

Lemma get_set_other a i j v : i <> j -> get (set a i v) j = get a j.
Proof.
  intros Hij. unfold get.
  replace (inRange (set a i v) j) with (inRange a j)
    by (unfold inRange; now rewrite byteLength_set).
  destruct (inRange a j) eqn:Ej; [|reflexivity].
  unfold set. destruct (inRange a i) eqn:Ei; [|reflexivity].
  apply inRange_spec in Ei, Ej. unfold byteLength in Ei, Ej.
  f_equal.
  destruct (Z.lt_ge_cases j i) as [Hlt|Hge].
  - rewrite nth_error_app1 by (rewrite length_firstn; lia).
    rewrite nth_error_firstn.
    destruct (Nat.ltb_spec (Z.to_nat j) (Z.to_nat i)); [reflexivity | lia].
  - rewrite nth_error_app2 by (rewrite length_firstn; lia).
    rewrite length_firstn.
    replace (Z.to_nat j - Nat.min (Z.to_nat i) (length a))%nat
      with (S (Z.to_nat j - S (Z.to_nat i)))%nat by lia.
    cbn [nth_error]. rewrite nth_error_skipn. f_equal. lia.
Qed.

(** ** The 32-bit operators on bytes *)

Lemma ToInt32_small z :
  -2147483648 <= z < 2147483648 -> JS.ToInt32 z = z.
Proof. unfold JS.ToInt32. intros H. rewrite Z.mod_small; lia. Qed.

Lemma ToInt32_range z : -2147483648 <= JS.ToInt32 z < 2147483648.
Proof. unfold JS.ToInt32. Z.div_mod_to_equations. lia. Qed.

Lemma ToInt32_mod z : JS.ToInt32 z mod 4294967296 = z mod 4294967296.
Proof. unfold JS.ToInt32. Z.div_mod_to_equations. lia. Qed.

Lemma lor_disjoint a b k :
  0 <= k -> 0 <= b < 2 ^ k -> Z.lor (a * 2 ^ k) b = a * 2 ^ k + b.
Proof.
  intros Hk Hb.
  assert (Hland : Z.land (a * 2 ^ k) b = 0).
  { apply Z.bits_inj'. intros n Hn. rewrite Z.land_spec, Z.bits_0.
    destruct (Z.lt_ge_cases n k) as [Hlt|Hge].
    - rewrite Z.mul_pow2_bits_low by lia. reflexivity.
    - replace b with (b mod 2 ^ k) by (apply Z.mod_small; lia).
      rewrite Z.mod_pow2_bits_high by lia. apply andb_false_r. }
  rewrite Z.add_nocarry_lxor by exact Hland.
  now rewrite Z.lxor_lor.
Qed.

Lemma shl_byte_8 b : 0 <= b < 256 -> JS.shl b 8 = b * 256.
Proof.
  intros H. unfold JS.shl. rewrite (ToInt32_small b) by lia.
  rewrite Z.shiftl_mul_pow2 by lia. change (2 ^ 8) with 256.
  apply ToInt32_small. lia.
Qed.

Lemma shl_byte_16 b : 0 <= b < 256 -> JS.shl b 16 = b * 65536.
Proof.
  intros H. unfold JS.shl. rewrite (ToInt32_small b) by lia.
  rewrite Z.shiftl_mul_pow2 by lia. change (2 ^ 16) with 65536.
  apply ToInt32_small. lia.
Qed.

(** The top byte reaches the sign bit: the shifted value is negative from
    128 on. *)
Lemma shl_byte_24 b :
  0 <= b < 256 ->
  JS.shl b 24 = (if b <? 128 then b else b - 256) * 16777216.
Proof.
  intros H. unfold JS.shl. rewrite (ToInt32_small b) by lia.
  rewrite Z.shiftl_mul_pow2 by lia. change (2 ^ 24) with 16777216.
  unfold JS.ToInt32. destruct (Z.ltb_spec b 128); Z.div_mod_to_equations; lia.
Qed.

Lemma bor_disjoint a b k :
  0 <= k -> 0 <= b < 2 ^ k ->
  -2147483648 <= a * 2 ^ k < 2147483648 -> 2 ^ k <= 2147483648 ->
  JS.bor (a * 2 ^ k) b = a * 2 ^ k + b.
Proof.
  intros Hk Hb Ha Hp. unfold JS.bor.
  rewrite !ToInt32_small by lia. now apply lor_disjoint.
Qed.

(** What the reader computes: the big-endian value of the four bytes. *)
Lemma readUint32_bigEndian buffer offset :
  readUint32 buffer offset =
  bigEndian32 (backing buffer) (absolute buffer offset).
Proof.
  unfold readUint32, bigEndian32.
  set (a := backing buffer). set (i := absolute buffer offset).
  pose proof (int_get_range a i) as H0.
  pose proof (int_get_range a (i + 1)) as H1.
  pose proof (int_get_range a (i + 2)) as H2.
  pose proof (int_get_range a (i + 3)) as H3.
  set (b0 := JS.int (get a i)) in *.
  set (b1 := JS.int (get a (i + 1))) in *.
  set (b2 := JS.int (get a (i + 2))) in *.
  set (b3 := JS.int (get a (i + 3))) in *.
  rewrite shl_byte_24, shl_byte_16, shl_byte_8 by assumption.
  set (t := if b0 <? 128 then b0 else b0 - 256).
  assert (Ht : -128 <= t < 128 /\ (t = b0 \/ t = b0 - 256))
    by (unfold t; destruct (Z.ltb_spec b0 128); lia).
  change 16777216 with (2 ^ 24).
  rewrite (bor_disjoint t (b1 * 65536) 24) by lia.
  replace (t * 2 ^ 24 + b1 * 65536) with ((t * 256 + b1) * 2 ^ 16) by lia.
  rewrite (bor_disjoint (t * 256 + b1) (b2 * 256) 16) by lia.
  replace ((t * 256 + b1) * 2 ^ 16 + b2 * 256)
    with ((t * 65536 + b1 * 256 + b2) * 2 ^ 8) by lia.
  rewrite (bor_disjoint (t * 65536 + b1 * 256 + b2) b3 8) by lia.
  destruct (Z.ltb_spec ((t * 65536 + b1 * 256 + b2) * 2 ^ 8 + b3) 0); lia.
Qed.

Lemma readUint32_range buffer offset :
  0 <= readUint32 buffer offset < 4294967296.
Proof.
  rewrite readUint32_bigEndian. unfold bigEndian32.
  set (a := backing buffer). set (i := absolute buffer offset).
  pose proof (int_get_range a i). pose proof (int_get_range a (i + 1)).
  pose proof (int_get_range a (i + 2)). pose proof (int_get_range a (i + 3)).
  lia.
Qed.

Lemma readUint16_bigEndian buffer offset :
  readUint16 buffer offset =
  JS.int (get (backing buffer) (absolute buffer offset)) * 256
  + JS.int (get (backing buffer) (absolute buffer offset + 1)).
Proof.
  unfold readUint16.
  set (a := backing buffer). set (i := absolute buffer offset).
  pose proof (int_get_range a i) as H0.
  pose proof (int_get_range a (i + 1)) as H1.
  rewrite shl_byte_8 by assumption.
  change 256 with (2 ^ 8).
  rewrite bor_disjoint by lia.
  destruct (Z.ltb_spec (JS.int (get a i) * 2 ^ 8 + JS.int (get a (i + 1))) 0);
    lia.
Qed.

Lemma readUint16_range buffer offset : 0 <= readUint16 buffer offset < 65536.
Proof.
  rewrite readUint16_bigEndian.
  pose proof (int_get_range (backing buffer) (absolute buffer offset)).
  pose proof (int_get_range (backing buffer) (absolute buffer offset + 1)).
  lia.
Qed.

(** ** Writing, then reading *)

Lemma sar_small v k :
  -2147483648 <= v < 2147483648 -> 0 <= k -> JS.sar v k = v / 2 ^ k.
Proof.
  intros Hv Hk. unfold JS.sar. rewrite ToInt32_small by lia.
  now apply Z.shiftr_div_pow2.
Qed.

Lemma band_255 x :
  -2147483648 <= x < 2147483648 -> JS.band x 255 = x mod 256.
Proof.
  intros Hx. unfold JS.band. rewrite !ToInt32_small by lia.
  change 255 with (Z.ones 8). now rewrite Z.land_ones by lia.
Qed.

Lemma truncate_inject_Z z : JS.truncate (inject_Z z) = z.
Proof.
  unfold JS.truncate.
  destruct (Qle_bool 0 (inject_Z z)); [apply Qfloor_Z | apply Qceiling_Z].
Qed.

Lemma backing_rebase buffer a : backing (rebase buffer a) = a.
Proof. now destruct buffer. Qed.

Lemma absolute_rebase buffer a offset :
  absolute (rebase buffer a) offset = absolute buffer offset.
Proof. now destruct buffer. Qed.

Lemma backing_writeUint32_length buffer offset value :
  byteLength (backing (writeUint32 buffer offset value)) =
  byteLength (backing buffer).
Proof.
  unfold writeUint32. rewrite backing_rebase. now rewrite !byteLength_set.
Qed.

(** The four bytes stored by [writeUint32], read back one by one. *)
Lemma get_writeUint32 buffer offset value :
  let i := absolute buffer offset in
  let a := backing (writeUint32 buffer offset value) in
  let v := JS.NumberToInt32 value in
  0 <= i -> i + 3 < byteLength (backing buffer) ->
  get a i = Some ((v / 16777216) mod 256) /\
  get a (i + 1) = Some ((v / 65536) mod 256) /\
  get a (i + 2) = Some ((v / 256) mod 256) /\
  get a (i + 3) = Some (v mod 256).
Proof.
  intros i a v Hi Hlen. subst a. unfold writeUint32.
  rewrite backing_rebase. fold i. fold v.
  assert (Hv : -2147483648 <= v < 2147483648) by apply ToInt32_range.
  assert (H24 : JS.sar v 24 = v / 16777216) by (now rewrite sar_small by lia).
  assert (H16 : JS.band (JS.sar v 16) 255 = (v / 65536) mod 256).
  { rewrite sar_small by lia. change (2 ^ 16) with 65536.
    rewrite band_255; [reflexivity | Z.div_mod_to_equations; lia]. }
  assert (H8 : JS.band (JS.sar v 8) 255 = (v / 256) mod 256).
  { rewrite sar_small by lia. change (2 ^ 8) with 256.
    rewrite band_255; [reflexivity | Z.div_mod_to_equations; lia]. }
  assert (H0 : JS.band v 255 = v mod 256) by now apply band_255.
  rewrite H24, H16, H8, H0.
  set (a0 := backing buffer) in *.
  repeat split.
  - rewrite !get_set_other by lia. now rewrite get_set_same by lia.
  - rewrite !get_set_other by lia.
    rewrite get_set_same by (rewrite byteLength_set; lia).
    now rewrite Z.mod_mod by lia.
  - rewrite get_set_other by lia.
    rewrite get_set_same by (rewrite !byteLength_set; lia).
    now rewrite Z.mod_mod by lia.
  - rewrite get_set_same by (rewrite !byteLength_set; lia).
    now rewrite Z.mod_mod by lia.
Qed.

(** A store leaves every byte outside the four it patches alone. *)
Lemma get_writeUint32_other buffer offset value j :
  let i := absolute buffer offset in
  (j < i \/ i + 3 < j) ->
  get (backing (writeUint32 buffer offset value)) j = get (backing buffer) j.
Proof.
  intros i Hj. unfold writeUint32. rewrite backing_rebase. fold i.
  now rewrite !get_set_other by lia.
Qed.

Lemma readUint32_writeUint32_number buffer offset value :
  0 <= absolute buffer offset ->
  absolute buffer offset + 3 < byteLength (backing buffer) ->
  readUint32 (writeUint32 buffer offset value) offset =
  JS.truncate value mod 4294967296.
Proof.
  intros Hi Hlen. rewrite readUint32_bigEndian. unfold bigEndian32.
  replace (absolute (writeUint32 buffer offset value) offset)
    with (absolute buffer offset)
    by (unfold writeUint32; now rewrite absolute_rebase).
  destruct (get_writeUint32 buffer offset value Hi Hlen)
    as (E0 & E1 & E2 & E3).
  rewrite E0, E1, E2, E3. cbn [JS.int].
  rewrite <- (ToInt32_mod (JS.truncate value)).
  fold (JS.NumberToInt32 value).
  Z.div_mod_to_equations. lia.
Qed.

(** C9. A 32-bit big-endian read at an in-bounds offset, straight after a
    write of [value] there, returns [value mod 2^32]; this holds for a raw
    array and for a box view alike (the offset is then relative to the
    view's start). *)
Theorem readUint32_writeUint32 buffer offset (value : Z) :
  0 <= absolute buffer offset ->
  absolute buffer offset + 3 < byteLength (backing buffer) ->
  readUint32 (writeUint32 buffer offset (inject_Z value)) offset =
  value mod 2 ^ 32.
Proof.
  intros Hi Hlen. rewrite readUint32_writeUint32_number by assumption.
  now rewrite truncate_inject_Z.
Qed.

Lemma readUint32_writeUint32_witness :
  readUint32 (writeUint32 (Raw [x00; x00; x00; x00; x00; x00]) 1
                          (inject_Z (-2))) 1 = (-2) mod 2 ^ 32.
Proof.
  apply (readUint32_writeUint32 (Raw [x00; x00; x00; x00; x00; x00]) 1 (-2));
    vm_compute; [discriminate | reflexivity].
Defined.

(** ** [findBox]: termination and the equations of the search *)

Section ScanFacts.

Variable data : Uint8Array.
Variable limit : Z.

(** One iteration moves the cursor forward: by the size field when it is
    greater than 1, to the end of the container otherwise. *)
Lemma boxEnd_advances i :
  i < limit ->
  let size := readUint32 (Raw data) i in
  i < boxEnd data limit i /\
  (1 < size -> boxEnd data limit i = i + size /\ i + 2 <= boxEnd data limit i) /\
  (size <= 1 -> boxEnd data limit i = limit).
Proof.
  intros Hi size. unfold boxEnd. fold size.
  destruct (Z.gtb_spec size 1); repeat split; lia.
Qed.

Lemma boxEnd_gt i : i < limit -> i < boxEnd data limit i.
Proof. intros H. now apply boxEnd_advances. Qed.

(** Induction along the cursor positions of one sibling loop. *)
Lemma cursor_ind (P : Z -> Prop) :
  (forall i, limit <= i -> P i) ->
  (forall i, i < limit -> P (boxEnd data limit i) -> P i) ->
  forall i, P i.
Proof.
  intros Hdone Hstep i.
  remember (Z.to_nat (limit - i)) as n eqn:En.
  revert i En. induction n as [n IH] using lt_wf_ind. intros i En.
  destruct (Z.lt_ge_cases i limit) as [Hlt|Hge]; [|now apply Hdone].
  apply Hstep; [assumption|].
  pose proof (boxEnd_gt i Hlt).
  apply (IH (Z.to_nat (limit - boxEnd data limit i))); [lia | reflexivity].
Qed.

Variable name : string.
Variable deeper : option (Z -> Z -> option (list Mp4BoxData)).

(** With as many iterations as bytes left, the loop ends with a result. *)
Lemma scan_total :
  deeperTotal deeper ->
  forall fuel i, limit - i <= Z.of_nat fuel ->
  exists r, scan data name deeper limit fuel i = Some r.
Proof.
  intros Hd fuel. induction fuel as [|fuel IH]; intros i Hf.
  - simpl. destruct (Z.ltb_spec i limit); [lia | eauto].
  - simpl. destruct (Z.ltb_spec i limit) as [Hlt|]; [|eauto].
    pose proof (boxEnd_gt i Hlt).
    destruct (IH (boxEnd data limit i)) as [r Hr]; [lia|].
    rewrite Hr.
    destruct (String.eqb (boxType data i) name); [|eauto].
    destruct deeper as [search|] eqn:E; [|eauto].
    destruct (Hd search eq_refl (i + 8) (boxEnd data limit i)) as [r' Hr'].
    rewrite Hr'. eauto.
Qed.

(** More iterations than needed change nothing. *)
Lemma scan_fuel_irrelevant :
  forall fuel fuel' i r,
    scan data name deeper limit fuel i = Some r ->
    (fuel <= fuel')%nat ->
    scan data name deeper limit fuel' i = Some r.
Proof.
  induction fuel as [|fuel IH]; intros fuel' i r H Hle.
  - simpl in H. destruct fuel'; simpl;
      destruct (i <? limit); congruence.
  - destruct fuel' as [|fuel']; [lia|].
    simpl in *. destruct (i <? limit); [|assumption].
    destruct (scan data name deeper limit fuel (boxEnd data limit i))
      as [rest|] eqn:E.
    + rewrite (IH fuel' _ rest E) by lia. assumption.
    + destruct (if String.eqb (boxType data i) name
                then match deeper with
                     | Some search => search (i + 8) (boxEnd data limit i)
                     | None => Some [mkBox data (i + 8) (boxEnd data limit i)]
                     end
                else Some []); discriminate.
Qed.

End ScanFacts.

Lemma findBoxIn_total path :
  forall data start end_, exists r, findBoxIn path data start end_ = Some r.
Proof.
  induction path as [|name rest IH]; intros data start end_.
  - simpl. eauto.
  - simpl. apply scan_total; [|lia].
    intros search E s e. destruct rest; [discriminate|].
    injection E as <-. apply IH.
Qed.

Lemma findBoxRun_total input path :
  exists r, findBoxRun input path = Some r.
Proof. apply findBoxIn_total. Qed.

Lemma findBox_run input path : findBoxRun input path = Some (findBox input path).
Proof.
  unfold findBox. destruct (findBoxRun_total input path) as [r ->].
  reflexivity.
Qed.

(** The equations of the search, as the source reads. *)

Lemma findBox_nil input : findBox input [] = [].
Proof. reflexivity. Qed.

Lemma findBox_raw a path :
  findBox (Raw a) path = findBox (View (mkBox a 0 (byteLength a))) path.
Proof. reflexivity. Qed.

Lemma findBox_done data i limit path :
  limit <= i -> findBox (View (mkBox data i limit)) path = [].
Proof.
  intros H. unfold findBox, findBoxRun. simpl.
  destruct path as [|name rest]; [reflexivity|]. simpl.
  destruct (Z.to_nat (limit - i)); simpl;
    destruct (Z.ltb_spec i limit); (lia || reflexivity).
Qed.

Lemma Some_eq {A} (x y : A) : Some x = Some y -> x = y.
Proof. intros H. now injection H. Qed.

Lemma findBoxRun_view a s e path :
  findBoxRun (View (mkBox a s e)) path = findBoxIn path a s e.
Proof. reflexivity. Qed.

Lemma findBoxRun_cons a i limit name rest :
  findBoxRun (View (mkBox a i limit)) (name :: rest) =
  scan a name (deeperOf rest a) limit (Z.to_nat (limit - i)) i.
Proof. reflexivity. Qed.

Lemma scan_S a name deeper limit fuel i :
  i < limit ->
  scan a name deeper limit (S fuel) i =
  match
    (if String.eqb (boxType a i) name then
       match deeper with
       | None => Some [mkBox a (i + 8) (boxEnd a limit i)]
       | Some search => search (i + 8) (boxEnd a limit i)
       end
     else Some []),
    scan a name deeper limit fuel (boxEnd a limit i)
  with
  | Some subresults, Some results => Some (subresults ++ results)
  | _, _ => None
  end.
Proof.
  intros Hi. cbn [scan]. destruct (Z.ltb_spec i limit); [reflexivity | lia].
Qed.

Lemma findBox_step a i limit name rest :
  i < limit ->
  findBox (View (mkBox a i limit)) (name :: rest) =
  (if String.eqb (boxType a i) name then matched a rest limit i else [])
  ++ findBox (View (mkBox a (boxEnd a limit i) limit)) (name :: rest).
Proof.
  intros Hi. pose proof (boxEnd_gt a limit i Hi) as Hadv.
  apply Some_eq. rewrite <- findBox_run, findBoxRun_cons.
  destruct (Z.to_nat (limit - i)) as [|fuel] eqn:Ef; [lia|].
  rewrite scan_S by assumption.
  assert (Hnext :
    scan a name (deeperOf rest a) limit fuel (boxEnd a limit i) =
    Some (findBox (View (mkBox a (boxEnd a limit i) limit)) (name :: rest))).
  { apply (scan_fuel_irrelevant _ _ _ _
             (Z.to_nat (limit - boxEnd a limit i))); [|lia].
    rewrite <- findBoxRun_cons. apply findBox_run. }
  rewrite Hnext.
  destruct (String.eqb (boxType a i) name); [|reflexivity].
  unfold matched, deeperOf. destruct rest as [|name' rest']; [reflexivity|].
  pose proof (findBox_run (View (mkBox a (i + 8) (boxEnd a limit i)))
                (name' :: rest')) as Hsub.
  rewrite findBoxRun_view in Hsub. rewrite Hsub. reflexivity.
Qed.

(** C10. [findBox] ends with a result on every input and every path,
    whatever the size fields say.  Each iteration of a sibling loop moves
    the cursor forward (by at least 2 bytes when the size field is above 1,
    to the end of the container when it is 0 or 1), so a loop over a range
    of [n] bytes ends within [n] iterations, for any inner search that
    itself ends; the recursion goes down the path, one segment a level. *)
Theorem findBox_terminates input path :
  (exists boxes, findBoxRun input path = Some boxes) /\
  (forall a name deeper limit i fuel,
      deeperTotal deeper -> limit - i <= Z.of_nat fuel ->
      exists boxes, scan a name deeper limit fuel i = Some boxes) /\
  (forall a limit i,
      i < limit ->
      let size := readUint32 (Raw a) i in
      i < boxEnd a limit i /\
      (1 < size -> i + 2 <= boxEnd a limit i) /\
      (size <= 1 -> boxEnd a limit i = limit)).
Proof.
  split; [apply findBoxRun_total|]. split.
  - intros a name deeper limit i fuel Hd Hf. now apply scan_total.
  - intros a limit i Hi size.
    destruct (boxEnd_advances a limit i Hi) as (H1 & H2 & H3).
    repeat split; [assumption | | assumption].
    intros Hs. now destruct (H2 Hs).
Qed.

(** ** [findBox]: where the views it returns lie *)

Lemma findBox_single a name limit :
  forall i b,
    In b (findBox (View (mkBox a i limit)) [name]) ->
    exists j, i <= j < limit /\ boxType a j = name /\
              b = mkBox a (j + 8) (boxEnd a limit j).
Proof.
  intros i. pattern i. apply (cursor_ind a limit); clear i.
  - intros i Hge b Hb. rewrite findBox_done in Hb by assumption. destruct Hb.
  - intros i Hlt IH b Hb. rewrite findBox_step in Hb by assumption.
    pose proof (boxEnd_gt a limit i Hlt) as Hadv.
    apply in_app_or in Hb. destruct Hb as [Hb|Hb].
    + destruct (String.eqb_spec (boxType a i) name) as [E|]; [|destruct Hb].
      simpl in Hb. destruct Hb as [<-|[]].
      exists i. repeat split; (lia || assumption).
    + destruct (IH b Hb) as (j & Hj & Ht & Eb).
      exists j. repeat split; (lia || assumption).
Qed.

(** A search along [path ++ [name]] is the search for [name] inside every
    box found along [path]. *)
Lemma findBox_snoc a name path :
  path <> [] ->
  forall limit i,
    findBox (View (mkBox a i limit)) (path ++ [name]) =
    flat_map (fun c => findBox (View c) [name])
             (findBox (View (mkBox a i limit)) path).
Proof.
  induction path as [|p rest IH]; [congruence|]. intros _ limit i.
  pattern i. apply (cursor_ind a limit); clear i.
  - intros i Hge. cbn [app]. now rewrite !findBox_done by assumption.
  - intros i Hlt IHi. cbn [app] in *.
    rewrite (findBox_step a i limit p (rest ++ [name])) by assumption.
    rewrite (findBox_step a i limit p rest) by assumption.
    rewrite flat_map_app, <- IHi. f_equal.
    destruct (String.eqb (boxType a i) p); [|reflexivity].
    unfold matched. destruct rest as [|q rest'].
    + cbn [flat_map]. rewrite app_nil_r. reflexivity.
    + cbn [app]. apply (IH ltac:(discriminate)).
Qed.

Lemma findBox_data input path b :
  In b (findBox input path) -> data b = backing input.
Proof.
  assert (H : forall a path limit i b,
             In b (findBox (View (mkBox a i limit)) path) -> data b = a).
  { clear. intros a path. induction path as [|p rest IH]; intros limit i b.
    - rewrite findBox_nil. intros [].
    - pattern i. apply (cursor_ind a limit); clear i.
      + intros i Hge Hb. rewrite findBox_done in Hb by assumption. destruct Hb.
      + intros i Hlt IHi Hb. rewrite findBox_step in Hb by assumption.
        apply in_app_or in Hb. destruct Hb as [Hb|Hb]; [|now apply IHi].
        destruct (String.eqb (boxType a i) p); [|destruct Hb].
        unfold matched in Hb. destruct rest.
        * destruct Hb as [<-|[]]. reflexivity.
        * eapply IH; eassumption. }
  destruct input as [a|[a s e]]; [rewrite findBox_raw|]; apply H.
Qed.

Lemma findBox_view input path :
  findBox input path = findBox (View (container input)) path.
Proof. now destruct input as [a|[a s e]]. Qed.

(** C2, as the code has it.  A view returned for [path ++ [name]] starts 8
    bytes after a header offset [i] inside its enclosing container (the
    input's range, or a box found along [path]) and ends at [i + size] when
    the size field is above 1, at the container's end otherwise: the size
    field is not clamped.  So [start <= end <= container end] holds exactly
    for the headers whose size field stays inside the container. *)
Theorem findBox_view_bounds input path name b :
  In b (findBox input (path ++ [name])) ->
  exists c i,
    enclosing input path c /\
    data b = backing input /\
    start c <= i < end_ c /\
    start b = i + 8 /\
    end_ b = boxEnd (backing input) (end_ c) i /\
    (sizeFits (backing input) (end_ c) i ->
     start b <= end_ b /\ end_ b <= end_ c).
Proof.
  intros Hb.
  assert (Hc : exists c, enclosing input path c /\ data c = backing input /\
                         In b (findBox (View c) [name])).
  { destruct path as [|p rest].
    - exists (container input). repeat split.
      now rewrite <- findBox_view.
    - rewrite findBox_view in Hb. unfold container in Hb.
      rewrite findBox_snoc in Hb by discriminate.
      apply in_flat_map in Hb. destruct Hb as (c & Hc & Hb).
      exists c.
      change (mkBox (backing input) (fst (bounds input)) (snd (bounds input)))
        with (container input) in Hc.
      rewrite <- findBox_view in Hc.
      repeat split; [assumption | | assumption].
      now apply findBox_data in Hc. }
  destruct Hc as ([a s e] & Henc & Hdata & Hin). simpl in Hdata. subst a.
  apply findBox_single in Hin. destruct Hin as (j & Hj & _ & ->).
  exists (mkBox (backing input) s e), j. cbn [data start end_].
  repeat split; try (assumption || lia || reflexivity).
  - destruct H as [H1 H2]. unfold boxEnd.
    destruct (Z.gtb_spec (readUint32 (Raw (backing input)) j) 1); lia.
  - destruct H as [H1 H2]. unfold boxEnd.
    destruct (Z.gtb_spec (readUint32 (Raw (backing input)) j) 1); lia.
Qed.

Lemma findBox_view_bounds_witness :
  exists c i,
    enclosing (Raw (Fixture.box "moof" (Fixture.box "traf" []))) ["moof"%string] c /\
    data (mkBox (Fixture.box "moof" (Fixture.box "traf" [])) 16 16) =
      Fixture.box "moof" (Fixture.box "traf" []) /\
    start c <= i < end_ c /\
    16 = i + 8 /\
    16 = boxEnd (Fixture.box "moof" (Fixture.box "traf" [])) (end_ c) i /\
    (sizeFits (Fixture.box "moof" (Fixture.box "traf" [])) (end_ c) i ->
     16 <= 16 /\ 16 <= end_ c).
Proof.
  apply (findBox_view_bounds
           (Raw (Fixture.box "moof" (Fixture.box "traf" [])))
           ["moof"%string] "traf"
           (mkBox (Fixture.box "moof" (Fixture.box "traf" [])) 16 16)).
  vm_compute. left. reflexivity.
Defined.

(** C2, the claim as worded fails: a size field that overstates the box
    gives a view that ends past its container (here past the buffer), and
    one below 8 gives a view that ends before it starts. *)
Lemma findBox_size_not_clamped :
  (exists b, In b (findBox (Raw Fixture.overstated) ["moov"%string]) /\
             b = mkBox Fixture.overstated 8 100 /\
             byteLength Fixture.overstated < end_ b) /\
  (exists b, In b (findBox (Raw Fixture.understated) ["moov"%string]) /\
             b = mkBox Fixture.understated 8 2 /\
             end_ b < start b).
Proof.
  split.
  - exists (mkBox Fixture.overstated 8 100). vm_compute.
    split; [left; reflexivity | split; reflexivity].
  - exists (mkBox Fixture.understated 8 2). vm_compute.
    split; [left; reflexivity | split; reflexivity].
Qed.

(** ** [segmentValidRange] *)

Lemma subarray_prefix a h :
  0 <= h <= byteLength a -> subarray a 0 h = firstn (Z.to_nat h) a.
Proof.
  intros H. unfold subarray, relIndex.
  destruct (Z.ltb_spec 0 0); [lia|]. destruct (Z.ltb_spec h 0); [lia|].
  rewrite Z.min_l, Z.min_l by lia. simpl. f_equal. lia.
Qed.

Lemma subarray_suffix a h :
  0 <= h <= byteLength a ->
  subarray a h (byteLength a) = skipn (Z.to_nat h) a.
Proof.
  intros H. unfold subarray, relIndex.
  destruct (Z.ltb_spec h 0); [lia|].
  destruct (Z.ltb_spec (byteLength a) 0); [unfold byteLength in *; lia|].
  rewrite Z.min_l, Z.min_l by lia.
  apply firstn_all2. rewrite length_skipn. unfold byteLength in *. lia.
Qed.

Lemma findBox_top a name b :
  In b (findBox (Raw a) [name]) ->
  exists h, 0 <= h < byteLength a /\ boxType a h = name /\
            b = mkBox a (h + 8) (boxEnd a (byteLength a) h).
Proof. rewrite findBox_raw. apply findBox_single. Qed.

(** C7. With fewer than two [moof] boxes the whole buffer is the
    remainder and nothing is valid.  With two or more, the valid part is
    the bytes before the 8-byte header of the last [moof], the remainder
    is the bytes from that header on, and the two put end to end are the
    buffer. *)
Theorem segmentValidRange_split (buffer : Uint8Array) :
  let moofs := findBox (Raw buffer) ["moof"%string] in
  ((length moofs < 2)%nat ->
   segmentValidRange buffer = mkSegmentedRange None (Some buffer)) /\
  ((2 <= length moofs)%nat ->
   exists last h v r,
     nth_error moofs (length moofs - 1) = Some last /\
     start last = h + 8 /\ 0 <= h < byteLength buffer /\
     boxType buffer h = "moof"%string /\
     segmentValidRange buffer = mkSegmentedRange (Some v) (Some r) /\
     v = firstn (Z.to_nat h) buffer /\
     r = skipn (Z.to_nat h) buffer /\
     v ++ r = buffer).
Proof.
  intros moofs. unfold segmentValidRange. fold moofs.
  assert (Hlen : length (rev moofs) = length moofs) by apply length_rev.
  split; intros H.
  - destruct (rev moofs) as [|x [|y l]]; simpl in Hlen; try reflexivity. lia.
  - destruct (rev moofs) as [|last [|y l]] eqn:E; simpl in Hlen; try lia.
    assert (Em : moofs = rev (y :: l) ++ [last]).
    { rewrite <- (rev_involutive moofs), E. reflexivity. }
    assert (Hin : In last moofs) by (rewrite Em; apply in_or_app; right; now left).
    destruct (findBox_top buffer "moof" last Hin) as (h & Hh & Ht & ->).
    exists (mkBox buffer (h + 8) (boxEnd buffer (byteLength buffer) h)), h.
    exists (firstn (Z.to_nat h) buffer), (skipn (Z.to_nat h) buffer).
    cbn [start]. replace (h + 8 - 8) with h by lia.
    repeat split; try (assumption || lia).
    + rewrite Em at 1. rewrite nth_error_app2 by (rewrite Em, length_app; simpl; lia).
      rewrite Em, length_app. simpl.
      replace (length (rev l ++ [y]) + 1 - 1 - length (rev l ++ [y]))%nat
        with 0%nat by lia.
      reflexivity.
    + unfold sliceUint8.
      rewrite subarray_prefix, subarray_suffix by lia. reflexivity.
    + apply firstn_skipn.
Qed.

(** ** [parseSegmentIndex] *)

Lemma land_high_bits a :
  Z.land a (-2147483648) = a / 2147483648 * 2147483648.
Proof.
  change (-2147483648) with (Z.lnot (Z.ones 31)).
  rewrite <- Z.ldiff_land, Z.ldiff_ones_r by lia.
  rewrite Z.shiftl_mul_pow2, Z.shiftr_div_pow2 by lia. reflexivity.
Qed.

(** The reference type is the top bit of the 32-bit reference word. *)
Lemma referenceTypeOf_testbit w :
  0 <= w < 4294967296 ->
  (referenceTypeOf w =? 1) = Z.testbit w 31.
Proof.
  intros Hw. unfold referenceTypeOf, JS.shr, JS.band, JS.ToUint32.
  change (JS.ToInt32 2147483648) with (-2147483648).
  rewrite land_high_bits, Z.shiftr_div_pow2 by lia.
  change (2 ^ 31) with 2147483648.
  destruct (Z.testbit w 31) eqn:Eb.
  - apply Z.testbit_true in Eb; [|lia]. change (2 ^ 31) with 2147483648 in Eb.
    apply Z.eqb_eq. unfold JS.ToInt32. Z.div_mod_to_equations. lia.
  - apply Z.eqb_neq. intros Hc.
    assert (Ht : Z.testbit w 31 = true).
    { apply Z.testbit_true; [lia|]. change (2 ^ 31) with 2147483648.
      revert Hc. unfold JS.ToInt32. Z.div_mod_to_equations. lia. }
    congruence.
Qed.

Section SidxLoop.

Variable sidx : Mp4BoxData.
Variable timescale : Z.

Lemma sidxReferences_length :
  forall n index startByte refs result,
    sidxReferences sidx timescale n index startByte refs = Some result ->
    length result = (length refs + n)%nat.
Proof.
  induction n as [|n IH]; intros index startByte refs result H.
  - simpl in H. injection H as <-. lia.
  - cbn [sidxReferences] in H. cbv zeta in H.
    destruct (referenceTypeOf (readUint32 (View sidx) index) =? 1);
      [discriminate|].
    apply IH in H. rewrite length_app in H. simpl in H. lia.
Qed.

(** A reference word with the top bit set among the [n] to come makes
    the loop give up. *)
Lemma sidxReferences_hierarchical :
  forall n index startByte refs k,
    (k < n)%nat ->
    Z.testbit (readUint32 (View sidx) (index + 12 * Z.of_nat k)) 31 = true ->
    sidxReferences sidx timescale n index startByte refs = None.
Proof.
  induction n as [|n IH]; intros index startByte refs k Hk Hbit; [lia|].
  cbn [sidxReferences]. cbv zeta.
  destruct (referenceTypeOf (readUint32 (View sidx) index) =? 1) eqn:E;
    [reflexivity|].
  destruct k as [|k].
  - rewrite referenceTypeOf_testbit in E by apply readUint32_range.
    replace (index + 12 * Z.of_nat 0) with index in Hbit by lia.
    congruence.
  - apply (IH _ _ _ k); [lia|].
    replace (index + 4 + 4 + 4 + 12 * Z.of_nat k)
      with (index + 12 * Z.of_nat (S k)) by lia.
    assumption.
Qed.

End SidxLoop.

Lemma parseSegmentIndex_first initSegment sidx others :
  findBox (Raw initSegment) ["sidx"%string] = sidx :: others ->
  let version := get (data sidx) 0 in
  let count := readUint16 (View sidx) (sidxCountIndex version) in
  parseSegmentIndex initSegment =
  match sidxReferences sidx
          (readUint32 (View sidx) (if isByte version 0 then 8 else 16))
          (Z.to_nat count) (sidxCountIndex version + 2) (end_ sidx + 0) []
  with
  | None => None
  | Some references =>
      Some (mkSidxInfo 0
              (readUint32 (View sidx) (if isByte version 0 then 8 else 16))
              version count references
              (option_map end_
                 (hd_error (findBox (Raw initSegment) ["moov"%string]))))
  end.
Proof.
  intros H version count. unfold parseSegmentIndex. rewrite H. reflexivity.
Qed.

(** Two flat references: their byte ranges are counted from the end of the
    box, and each lasts half a second. *)
Example parseSegmentIndex_flat :
  option_map references (parseSegmentIndex Fixture.sidxFlat) =
  Some [mkSidxReference 1000 45000 (Some (45000 / 90000)%Q) 56 1055;
        mkSidxReference 2000 45000 (Some (45000 / 90000)%Q) 1056 3055].
Proof. vm_compute. reflexivity. Qed.

(** ** [parseId3TrackSamples] *)

Lemma fits_spec view offset width :
  fits view offset width = true <->
  0 <= offset /\ offset + width <= byteLength view.
Proof. unfold fits. rewrite andb_true_iff, Z.leb_le, Z.leb_le. tauto. Qed.

Lemma get_inRange a i :
  0 <= i < byteLength a -> exists v, get a i = Some v.
Proof.
  intros H. unfold get.
  destruct (inRange a i) eqn:E; [|apply inRange_spec in H; congruence].
  destruct (nth_error a (Z.to_nat i)) eqn:En; simpl; [eauto|].
  apply nth_error_None in En. unfold byteLength in H. lia.
Qed.

(** Inside [try ... catch], an [emsg] box gives the record its payload
    describes, or [undefined]. *)
Lemma parseEmsg_caught emsg :
  tryCatch (parseEmsg emsg) (fun _ => Normal None) = Normal (emsgEntry emsg).
Proof.
  unfold parseEmsg, emsgEntry.
  set (p := subarray (data emsg) (start emsg) (end_ emsg)).
  unfold getUint8, getUint32, getBigUint64.
  destruct (fits p 0 1) eqn:F1.
  - apply fits_spec in F1.
    destruct (get_inRange p 0 ltac:(lia)) as [v Hv]. rewrite Hv.
    cbn [bind JS.int isByte].
    destruct (v =? 1) eqn:Ev; cbn [negb andb]; [|reflexivity].
    destruct (Z.leb_spec 24 (byteLength p)) as [Hlen|Hlen].
    + replace (fits p (0 + 4) 4) with true by (symmetry; apply fits_spec; lia).
      cbn [bind].
      replace (fits p (0 + 4 + 4) 8) with true
        by (symmetry; apply fits_spec; lia).
      cbn [bind].
      replace (fits p (0 + 4 + 4 + 8) 4) with true
        by (symmetry; apply fits_spec; lia).
      cbn [bind].
      replace (fits p (0 + 4 + 4 + 8 + 4) 4) with true
        by (symmetry; apply fits_spec; lia).
      cbn [bind]. cbn [Z.add Pos.add Pos.succ].
      destruct (existsb (String.eqb (readNullTerminatedString p 24))
                        ID3_SCHEME_ID_URIS); reflexivity.
    + cbn [andb].
      destruct (fits p (0 + 4) 4) eqn:F2; [|reflexivity]. cbn [bind].
      destruct (fits p (0 + 4 + 4) 8) eqn:F3; [|reflexivity]. cbn [bind].
      destruct (fits p (0 + 4 + 4 + 8) 4) eqn:F4; [|reflexivity]. cbn [bind].
      destruct (fits p (0 + 4 + 4 + 8 + 4) 4) eqn:F5; [|reflexivity].
      apply fits_spec in F5. lia.
  - cbn [bind tryCatch].
    assert (Hn : get p 0 = None).
    { unfold get. destruct (inRange p 0) eqn:E; [|reflexivity].
      apply inRange_spec in E.
      assert (fits p 0 1 = true) by (apply fits_spec; lia). congruence. }
    rewrite Hn. reflexivity.
Qed.

Lemma mapM_caught {A B} (f : A -> completion B) (g : A -> B) l :
  (forall x, f x = Normal (g x)) -> mapM f l = Normal (map g l).
Proof.
  intros H. induction l as [|x l IH]; simpl; [reflexivity|].
  now rewrite H, IH.
Qed.

(** An [emsg] payload too short for its fixed fields makes the decoding
    throw, when its version byte is 1. *)
Lemma parseEmsg_truncated emsg :
  let p := subarray (data emsg) (start emsg) (end_ emsg) in
  isByte (get p 0) 1 = true -> byteLength p < 24 ->
  parseEmsg emsg = Throw RangeError.
Proof.
  intros p Hv Hlen. unfold parseEmsg. fold p.
  unfold getUint8, getUint32, getBigUint64.
  destruct (get p 0) as [v|] eqn:Eg; [|discriminate]. simpl in Hv.
  assert (F1 : fits p 0 1 = true).
  { apply fits_spec. unfold get in Eg.
    destruct (inRange p 0) eqn:E; [|discriminate].
    apply inRange_spec in E. lia. }
  rewrite F1. cbn [bind JS.int]. rewrite Hv. cbn [negb].
  destruct (fits p (0 + 4) 4) eqn:F2; [|reflexivity]. cbn [bind].
  destruct (fits p (0 + 4 + 4) 8) eqn:F3; [|reflexivity]. cbn [bind].
  destruct (fits p (0 + 4 + 4 + 8) 4) eqn:F4; [|reflexivity]. cbn [bind].
  destruct (fits p (0 + 4 + 4 + 8 + 4) 4) eqn:F5; [|reflexivity].
  apply fits_spec in F5. lia.
Qed.

(** C5, as the code has it.  [parseId3TrackSamples] never throws; its
    result has one entry for every [emsg] box, in document order: the
    record of the box, or [undefined] when the version byte is not 1, the
    scheme URI is not on the list, or the decoding throws.  An entry is
    [undefined] in exactly these cases, and no box changes the entry of
    another. *)
Theorem parseId3TrackSamples_entries buffer :
  let emsgs := findBox (Raw buffer) ["emsg"%string] in
  parseId3TrackSamples buffer = Normal (map emsgEntry emsgs) /\
  forall emsg,
    let p := subarray (data emsg) (start emsg) (end_ emsg) in
    emsgEntry emsg = None <->
    (isByte (get p 0) 1 = false \/
     existsb (String.eqb (readNullTerminatedString p 24))
             ID3_SCHEME_ID_URIS = false \/
     exists e, parseEmsg emsg = Throw e).
Proof.
  intros emsgs. split.
  - unfold parseId3TrackSamples. apply mapM_caught. apply parseEmsg_caught.
  - intros emsg p. split.
    + intros Hnone. unfold emsgEntry in Hnone. fold p in Hnone.
      destruct (isByte (get p 0) 1) eqn:Ev; [|now left]. right.
      destruct (existsb (String.eqb (readNullTerminatedString p 24))
                        ID3_SCHEME_ID_URIS) eqn:Eu; [|now left]. right.
      destruct (Z.leb_spec 24 (byteLength p)); [discriminate|].
      exists RangeError. now apply parseEmsg_truncated.
    + intros [Hv|[Hu|[e He]]].
      * unfold emsgEntry. fold p. now rewrite Hv.
      * unfold emsgEntry. fold p. rewrite Hu.
        now rewrite andb_false_r.
      * pose proof (parseEmsg_caught emsg) as Hc. rewrite He in Hc.
        simpl in Hc. now injection Hc as <-.
Qed.

(** C5, the claim as worded fails: an [emsg] box of version 0 is not left
    out of the result, it stands in it as [undefined]. *)
Lemma parseId3TrackSamples_keeps_undefined :
  parseId3TrackSamples (Fixture.emsg x00 "https://aomedia.org/emsg/ID3")
  = Normal [None] /\
  length (findBox (Raw (Fixture.emsg x00 "https://aomedia.org/emsg/ID3"))
                  ["emsg"%string]) = 1%nat.
Proof. vm_compute. split; reflexivity. Qed.

Example parseId3TrackSamples_run :
  parseId3TrackSamples
    (Fixture.emsg x00 "https://aomedia.org/emsg/ID3"
     ++ Fixture.emsg x01 "urn:example"
     ++ Fixture.emsg x01 "https://aomedia.org/emsg/ID3"
     ++ Fixture.sized 12 "emsg" [x01; x00; x00; x00])
  = Normal [None; None;
            Some (mkId3Sample 90000 180000 180000 None 7
                    "https://aomedia.org/emsg/ID3" "v" [x49; x44; x33]);
            None].
Proof. vm_compute. reflexivity. Qed.

(** ** [getStartDTS] *)

Lemma reduceM_startOfTraf_throws initData trafs :
  forall result,
    (exists traf, In traf trafs /\ findBox (View traf) ["tfdt"%string] = []) ->
    reduceM (startOfTraf initData) trafs result = Throw TypeError.
Proof.
  induction trafs as [|traf trafs IH]; intros result (bad & Hin & Hbad).
  - destruct Hin.
  - simpl. unfold startOfTraf at 1.
    destruct (findBox (View traf) ["tfdt"%string]) as [|tfdt l] eqn:E.
    + reflexivity.
    + cbn [hd_error bind]. apply IH. exists bad. split; [|assumption].
      destruct Hin as [<-|Hin]; [congruence | assumption].
Qed.

(** C6, where the code departs from the claim: on a fragment whose [traf]
    has no [tfdt], [getStartDTS] throws a [TypeError] instead of returning
    0, whatever the init-data table. *)
Theorem getStartDTS_throws_without_tfdt :
  findBox (Raw Fixture.fragmentWithoutTfdt) ["moof"; "traf"; "tfdt"]%string = []
  /\ getStartDTS Fixture.initData Fixture.fragmentWithoutTfdt = Throw TypeError.
Proof. vm_compute. split; reflexivity. Qed.

(** ** Helpers *)

Lemma truncate_nonneg x : (0 <= x)%Q -> JS.truncate x = Qfloor x.
Proof.
  intros H. unfold JS.truncate.
  apply Qle_bool_iff in H. now rewrite H.
Qed.

Lemma Qfloor_nonneg x : (0 <= x)%Q -> 0 <= Qfloor x.
Proof.
  intros H. change 0 with (Qfloor (inject_Z 0)). now apply Qfloor_resp_le.
Qed.

Lemma onto_self box : onto (data box) box = box.
Proof. now destruct box. Qed.

Lemma findBox_start_lower a path :
  forall limit i b,
    In b (findBox (View (mkBox a i limit)) path) -> i + 8 <= start b.
Proof.
  induction path as [|p rest IH]; intros limit i b.
  - rewrite findBox_nil. intros [].
  - pattern i. apply (cursor_ind a limit); clear i.
    + intros i Hge Hb. rewrite findBox_done in Hb by assumption. destruct Hb.
    + intros i Hlt IHi Hb. rewrite findBox_step in Hb by assumption.
      pose proof (boxEnd_gt a limit i Hlt).
      apply in_app_or in Hb. destruct Hb as [Hb|Hb]; [|apply IHi in Hb; lia].
      destruct (String.eqb (boxType a i) p); [|destruct Hb].
      unfold matched in Hb. destruct rest.
      * destruct Hb as [<-|[]]. cbn [start]. lia.
      * apply IH in Hb. lia.
Qed.

Lemma fold_left_single {A B} (f : A -> B -> A) x a : fold_left f [x] a = f a x.
Proof. reflexivity. Qed.

(** C1, where the code departs from the claim: the scan for
    [0x00 0x00 0x03] starts at index 1, so a triple at the very start of
    the input is not seen and its [0x03] stays, while the same bytes one
    place further on are stripped. *)
Theorem discardEmulationPreventionBytes_misses_index_0 :
  discardEmulationPreventionBytes [x00; x00; x03; x01]
  = [x00; x00; x03; x01] /\
  discardEmulationPreventionBytes [x06; x00; x00; x03; x01]
  = [x06; x00; x00; x01].
Proof. vm_compute. split; reflexivity. Qed.
(** ** [discardEmulationPreventionBytes], from index 1 on *)

Lemma byteOfZ_byteValue b : byteOfZ (byteValue b) = b.
Proof.
  unfold byteOfZ, JS.ToUint8. pose proof (byteValue_range b) as H.
  rewrite Z.mod_small by exact H. unfold byteValue.
  rewrite N2Z.id, Byte.of_to_N. reflexivity.
Qed.

Lemma get_app_offset pre suffix k :
  get (pre ++ suffix) (Z.of_nat (length pre + k)) =
  option_map byteValue (nth_error suffix k).
Proof.
  unfold get, inRange, byteLength. rewrite length_app.
  destruct (nth_error suffix k) as [b|] eqn:E.
  - assert (k < length suffix)%nat by (apply nth_error_Some; congruence).
    destruct (Z.leb_spec 0 (Z.of_nat (length pre + k))); [|lia].
    destruct (Z.ltb_spec (Z.of_nat (length pre + k))
                (Z.of_nat (length pre + length suffix))); [|lia].
    cbn [andb]. rewrite Nat2Z.id, nth_error_app2 by lia.
    replace (length pre + k - length pre)%nat with k by lia.
    now rewrite E.
  - apply nth_error_None in E.
    destruct (Z.ltb_spec (Z.of_nat (length pre + k))
                (Z.of_nat (length pre + length suffix))); [lia|].
    now rewrite andb_false_r.
Qed.

Lemma get_app_head pre b tl :
  get (pre ++ b :: tl) (Z.of_nat (length pre)) = Some (byteValue b).
Proof.
  pose proof (get_app_offset pre (b :: tl) 0) as H.
  now rewrite Nat.add_0_r in H.
Qed.

Lemma tripleOffsets_short l : (length l < 3)%nat -> tripleOffsets l = [].
Proof.
  destruct l as [|b0 [|b1 [|b2 rest]]]; simpl; intros H;
    (reflexivity || lia).
Qed.

Lemma tripleOffsets_cons3 b0 b1 b2 rest :
  tripleOffsets (b0 :: b1 :: b2 :: rest) =
  if isTriple b0 b1 b2
  then 2%nat :: map (fun p => (2 + p)%nat) (tripleOffsets (b2 :: rest))
  else map S (tripleOffsets (b1 :: b2 :: rest)).
Proof. reflexivity. Qed.

(** The first loop records, from index [length pre] on, the offsets of
    [tripleOffsets]. *)
Lemma findEmulationPreventionBytes_offsets fuel :
  forall suffix pre positions,
    (length suffix <= fuel)%nat ->
    findEmulationPreventionBytes (pre ++ suffix) fuel
                                 (Z.of_nat (length pre)) positions =
    positions
    ++ map (fun p => Z.of_nat (length pre + p)) (tripleOffsets suffix).
Proof.
  induction fuel as [|fuel IH]; intros suffix pre positions Hf.
  - destruct suffix; [|simpl in Hf; lia].
    simpl. rewrite !app_nil_r.
    destruct (Z.of_nat (length pre) <? byteLength pre - 2); reflexivity.
  - cbn [findEmulationPreventionBytes].
    destruct (Nat.lt_ge_cases (length suffix) 3) as [Hs|Hs].
    + rewrite tripleOffsets_short by assumption. simpl. rewrite app_nil_r.
      destruct (Z.ltb_spec (Z.of_nat (length pre))
                  (byteLength (pre ++ suffix) - 2)) as [H|H]; [|reflexivity].
      unfold byteLength in H. rewrite length_app in H. lia.
    + destruct suffix as [|b0 [|b1 [|b2 rest]]]; simpl in Hs; try lia.
      destruct (Z.ltb_spec (Z.of_nat (length pre))
                  (byteLength (pre ++ b0 :: b1 :: b2 :: rest) - 2)) as [H|H].
      2:{ unfold byteLength in H. rewrite length_app in H. simpl in H. lia. }
      rewrite get_app_head.
      replace (Z.of_nat (length pre) + 1) with (Z.of_nat (length pre + 1)) by lia.
      replace (Z.of_nat (length pre) + 2) with (Z.of_nat (length pre + 2)) by lia.
      rewrite !get_app_offset. cbn [nth_error option_map isByte].
      rewrite tripleOffsets_cons3. fold (isTriple b0 b1 b2).
      destruct (isTriple b0 b1 b2).
      * replace (pre ++ b0 :: b1 :: b2 :: rest)
          with ((pre ++ [b0; b1]) ++ b2 :: rest)
          by (rewrite <- app_assoc; reflexivity).
        replace (Z.of_nat (length pre + 2))
          with (Z.of_nat (length (pre ++ [b0; b1])))
          by (rewrite length_app; reflexivity).
        rewrite IH by (simpl in *; lia).
        rewrite <- app_assoc. cbn [app map]. rewrite map_map.
        rewrite length_app. cbn [length].
        do 2 f_equal. apply map_ext. intros p. f_equal. lia.
      * replace (pre ++ b0 :: b1 :: b2 :: rest)
          with ((pre ++ [b0]) ++ b1 :: b2 :: rest)
          by (rewrite <- app_assoc; reflexivity).
        replace (Z.of_nat (length pre + 1))
          with (Z.of_nat (length (pre ++ [b0])))
          by (rewrite length_app; reflexivity).
        rewrite IH by (simpl in *; lia).
        rewrite map_map, length_app. cbn [length].
        f_equal. apply map_ext. intros p. f_equal. lia.
Qed.

Lemma isTriple_third b0 b1 b2 : isTriple b0 b1 b2 = true -> byteValue b2 = 3.
Proof.
  unfold isTriple. rewrite !andb_true_iff, !Z.eqb_eq. tauto.
Qed.

Lemma isTriple_first b0 b1 b2 : byteValue b0 <> 0 -> isTriple b0 b1 b2 = false.
Proof.
  intros H. unfold isTriple. destruct (Z.eqb_spec (byteValue b0) 0); [lia|].
  reflexivity.
Qed.

(** A byte other than 0 starts no triple. *)
Lemma tripleOffsets_skip b l :
  byteValue b <> 0 -> tripleOffsets (b :: l) = map S (tripleOffsets l).
Proof.
  intros H. destruct l as [|b1 [|b2 rest]]; try reflexivity.
  rewrite tripleOffsets_cons3, isTriple_first by assumption. reflexivity.
Qed.

Lemma deleteAt_nil k l : deleteAt k [] l = l.
Proof. destruct l; reflexivity. Qed.

Lemma deleteAt_cons_ne k p ps b tl :
  k <> p -> deleteAt k (p :: ps) (b :: tl) = b :: deleteAt (S k) (p :: ps) tl.
Proof.
  intros H. cbn [deleteAt]. destruct (Nat.eqb_spec k p); [contradiction|].
  reflexivity.
Qed.

Lemma deleteAt_cons_eq k ps b tl :
  deleteAt k (k :: ps) (b :: tl) = deleteAt (S k) ps tl.
Proof. cbn [deleteAt]. now rewrite Nat.eqb_refl. Qed.

Lemma gapped_weaken ps : forall k k', (k' <= k)%nat -> gapped k ps -> gapped k' ps.
Proof. destruct ps as [|p ps]; simpl; [tauto|]. intros k k' H [H1 H2]. split; [lia|assumption]. Qed.

(** The recorded offsets lie at least 2 in, inside the list, and at least
    3 apart. *)
Lemma tripleOffsets_gapped n :
  forall l k, (length l <= n)%nat ->
    gapped (k + 2) (map (fun p => (k + p)%nat) (tripleOffsets l)) /\
    Forall (fun p => (p < length l)%nat) (tripleOffsets l).
Proof.
  induction n as [|n IH]; intros l k Hn.
  - destruct l; [|simpl in Hn; lia]. simpl. auto.
  - destruct l as [|b0 [|b1 [|b2 rest]]]; try (simpl; auto; fail).
    rewrite tripleOffsets_cons3.
    destruct (isTriple b0 b1 b2) eqn:Et.
    + rewrite tripleOffsets_skip
        by (apply isTriple_third in Et; lia).
      destruct (IH rest (k + 3)%nat ltac:(simpl in Hn; lia)) as [Hg Hr].
      cbn [map]. rewrite !map_map. split.
      * cbn [gapped]. split; [lia|].
        apply (gapped_weaken _ (k + 3 + 2)%nat); [lia|].
        erewrite map_ext; [exact Hg|]. intros p. cbv beta. lia.
      * constructor; [simpl; lia|].
        apply Forall_map. eapply Forall_impl; [|exact Hr].
        intros p Hp. cbv beta in *. simpl. lia.
    + destruct (IH (b1 :: b2 :: rest) (k + 1)%nat ltac:(simpl in Hn |- *; lia))
        as [Hg Hr].
      rewrite map_map. split.
      * apply (gapped_weaken _ (k + 1 + 2)%nat); [lia|].
        erewrite map_ext; [exact Hg|]. intros p. cbv beta. lia.
      * apply Forall_map. eapply Forall_impl; [|exact Hr].
        intros p Hp. cbv beta in *. simpl in *. lia.
Qed.

(** Taking the recorded bytes out is undoing emulation prevention. *)
Lemma deleteAt_tripleOffsets n :
  forall l k, (length l <= n)%nat ->
    deleteAt k (map (fun p => (k + p)%nat) (tripleOffsets l)) l =
    stripEmulationPrevention l.
Proof.
  induction n as [|n IH]; intros l k Hn.
  - destruct l; [reflexivity | simpl in Hn; lia].
  - destruct l as [|b0 [|b1 [|b2 rest]]]; try reflexivity.
    rewrite tripleOffsets_cons3.
    change (stripEmulationPrevention (b0 :: b1 :: b2 :: rest))
      with (if isTriple b0 b1 b2
            then b0 :: b1 :: stripEmulationPrevention rest
            else b0 :: stripEmulationPrevention (b1 :: b2 :: rest)).
    destruct (isTriple b0 b1 b2) eqn:Et.
    + rewrite tripleOffsets_skip by (apply isTriple_third in Et; lia).
      cbn [map]. rewrite !map_map.
      rewrite !deleteAt_cons_ne by lia.
      replace (k + 2)%nat with (S (S k)) by lia. rewrite deleteAt_cons_eq.
      do 2 f_equal.
      rewrite <- (IH rest (S (S (S k)))) by (simpl in Hn; lia).
      f_equal. apply map_ext. intros p. lia.
    + rewrite map_map.
      rewrite <- (IH (b1 :: b2 :: rest) (S k)) by (simpl in Hn |- *; lia).
      destruct (tripleOffsets (b1 :: b2 :: rest)) as [|p ps] eqn:Eo.
      * cbn [map]. rewrite !deleteAt_nil. reflexivity.
      * cbn [map]. rewrite deleteAt_cons_ne by lia.
        do 2 f_equal. f_equal; [lia|].
        apply map_ext. intros q. lia.
Qed.

Lemma set_app_next out x rest v :
  set (out ++ x :: rest) (Z.of_nat (length out)) v = out ++ byteOfZ v :: rest.
Proof.
  unfold set.
  assert (E : inRange (out ++ x :: rest) (Z.of_nat (length out)) = true).
  { apply inRange_spec. unfold byteLength. rewrite length_app. simpl. lia. }
  rewrite E, Nat2Z.id.
  rewrite firstn_app, firstn_all, Nat.sub_diag. cbn [firstn].
  rewrite app_nil_r. f_equal. f_equal.
  rewrite skipn_app, skipn_all2 by lia.
  replace (S (length out) - length out)%nat with 1%nat by lia. reflexivity.
Qed.

Lemma length_deleteAt l :
  forall k ps,
    gapped k ps -> Forall (fun p => (p < k + length l)%nat) ps ->
    (length (deleteAt k ps l) + length ps = length l)%nat.
Proof.
  induction l as [|b tl IH]; intros k ps Hg Hr.
  - destruct ps as [|p ps]; [reflexivity|].
    destruct Hg as [Hk _]. inversion Hr; subst. simpl in *. lia.
  - destruct ps as [|p ps]; [simpl; lia|].
    destruct Hg as [Hk Hg]. inversion Hr as [|? ? Hp Hr']; subst.
    cbn [deleteAt]. destruct (Nat.eqb_spec k p) as [->|Hne].
    + cbn [length]. rewrite <- (IH (S p) ps); [lia | |].
      * apply (gapped_weaken _ (p + 2)%nat); [lia | assumption].
      * eapply Forall_impl; [|exact Hr']. intros q Hq. simpl in Hq. lia.
    + cbn [length]. rewrite <- (IH (S k) (p :: ps)); [simpl; lia | |].
      * split; [lia | assumption].
      * eapply Forall_impl; [|exact Hr]. intros q Hq. simpl in Hq. lia.
Qed.

(** The second loop fills the rest of [newData] with the source bytes
    from index [length pre] on, the recorded ones left out. *)
Lemma copyWithout_deleteAt n :
  forall suffix pre ps out fuel,
    (length suffix <= n)%nat ->
    gapped (length pre) ps ->
    let kept := deleteAt (length pre) ps suffix in
    (length kept <= fuel)%nat ->
    copyWithout (pre ++ suffix) (Z.of_nat (length out + length kept)) fuel
                (Z.of_nat (length out)) (Z.of_nat (length pre))
                (map Z.of_nat ps) (out ++ repeat x00 (length kept))
    = out ++ kept.
Proof.
  induction n as [|n IH]; intros suffix pre ps out fuel Hn Hg kept Hf.
  - destruct suffix; [|simpl in Hn; lia]. subst kept. cbn [deleteAt length repeat].
    destruct fuel; cbn [copyWithout];
      destruct (Z.ltb_spec (Z.of_nat (length out))
                  (Z.of_nat (length out + 0))); (lia || reflexivity).
  - destruct suffix as [|b tl].
    { subst kept. cbn [deleteAt length repeat].
      destruct fuel; cbn [copyWithout];
        destruct (Z.ltb_spec (Z.of_nat (length out))
                    (Z.of_nat (length out + 0))); (lia || reflexivity). }
    assert (Hcopy : forall pre' suffix' ps' b',
              pre ++ b :: tl = pre' ++ suffix' ->
              (length suffix' <= n)%nat ->
              gapped (length pre') ps' ->
              kept = b' :: deleteAt (length pre') ps' suffix' ->
              copyWithout (pre ++ b :: tl)
                (Z.of_nat (length out + length kept)) (pred fuel)
                (Z.of_nat (length out) + 1) (Z.of_nat (length pre'))
                (map Z.of_nat ps')
                (out ++ b' :: repeat x00 (length kept - 1))
              = out ++ kept).
    { intros pre' suffix' ps' b' Hd Hs' Hg' Hk. rewrite Hd, Hk.
      pose proof (IH suffix' pre' ps' (out ++ [b']) (pred fuel) Hs' Hg') as H.
      cbv zeta in H. rewrite length_app in H. cbn [length] in H.
      rewrite <- !app_assoc in H. cbn [app] in H.
      cbn [length]. rewrite Nat.sub_succ, Nat.sub_0_r.
      replace (Z.of_nat (length out) + 1) with (Z.of_nat (length out + 1)) by lia.
      replace (length out + S (length (deleteAt (length pre') ps' suffix')))%nat
        with (length out + 1 + length (deleteAt (length pre') ps' suffix'))%nat
        by lia.
      apply H. rewrite Hk in Hf. simpl in Hf. lia. }
    destruct kept as [|k0 kept'] eqn:Ek.
    { cbn [length repeat].
      destruct fuel; cbn [copyWithout];
        destruct (Z.ltb_spec (Z.of_nat (length out))
                    (Z.of_nat (length out + 0))); (lia || reflexivity). }
    destruct fuel as [|fuel]; [simpl in Hf; lia|].
    cbn [copyWithout].
    destruct (Z.ltb_spec (Z.of_nat (length out))
                (Z.of_nat (length out + length (k0 :: kept'))));
      [|simpl in *; lia].
    cbn [pred] in Hcopy. cbn [length repeat].
    destruct ps as [|p ps'].
    + (* nothing left to skip *)
      cbn [map]. rewrite get_app_head. cbn [JS.int].
      rewrite set_app_next, byteOfZ_byteValue.
      subst kept. rewrite deleteAt_nil in Ek. injection Ek as <- <-.
      replace (Z.of_nat (length pre) + 1)
        with (Z.of_nat (length (pre ++ [b])))
        by (rewrite length_app; simpl; lia).
      change (@nil Z) with (map Z.of_nat []).
      replace (length tl) with (length (b :: tl) - 1)%nat at 2 by (simpl; lia).
      apply (Hcopy (pre ++ [b]) tl [] b).
      * now rewrite <- app_assoc.
      * simpl in Hn. lia.
      * exact I.
      * now rewrite deleteAt_nil.
    + destruct Hg as [Hk Hg]. cbn [map].
      destruct (Z.eqb_spec (Z.of_nat (length pre)) (Z.of_nat p)) as [Heq|Hne].
      * (* the byte at the cursor is skipped, the next one copied *)
        apply Nat2Z.inj in Heq. subst p. subst kept.
        rewrite deleteAt_cons_eq in Ek.
        destruct tl as [|b' tl']; [discriminate|].
        assert (Ek' : k0 :: kept' =
                      b' :: deleteAt (S (S (length pre))) ps' tl').
        { rewrite <- Ek. destruct ps' as [|q ps'']; [now rewrite !deleteAt_nil|].
          destruct Hg as [Hq _]. rewrite deleteAt_cons_ne by lia. reflexivity. }
        replace (Z.of_nat (length pre) + 1) with (Z.of_nat (length pre + 1)) by lia.
        rewrite get_app_offset. cbn [nth_error option_map JS.int].
        rewrite set_app_next, byteOfZ_byteValue.
        replace (Z.of_nat (length pre + 1) + 1)
          with (Z.of_nat (length (pre ++ [b; b'])))
          by (rewrite length_app; simpl; lia).
        replace (length kept') with (length (k0 :: kept') - 1)%nat at 2
          by (simpl; lia).
        apply (Hcopy (pre ++ [b; b']) tl' ps' b').
        -- now rewrite <- app_assoc.
        -- simpl in Hn. lia.
        -- rewrite length_app. simpl.
           apply (gapped_weaken _ (length pre + 2)%nat); [lia | assumption].
        -- rewrite length_app. simpl.
           replace (length pre + 2)%nat with (S (S (length pre))) by lia.
           exact Ek'.
      * assert (length pre <> p) by (intros E; apply Hne; now rewrite E).
        subst kept. rewrite deleteAt_cons_ne in Ek by assumption.
        injection Ek as <- Ek.
        rewrite get_app_head. cbn [JS.int].
        rewrite set_app_next, byteOfZ_byteValue.
        replace (Z.of_nat (length pre) + 1)
          with (Z.of_nat (length (pre ++ [b])))
          by (rewrite length_app; simpl; lia).
        change (Z.of_nat p :: map Z.of_nat ps') with (map Z.of_nat (p :: ps')).
        replace (length kept') with (length (b :: kept') - 1)%nat at 2
          by (simpl; lia).
        apply (Hcopy (pre ++ [b]) tl (p :: ps') b).
        -- now rewrite <- app_assoc.
        -- simpl in Hn. lia.
        -- rewrite length_app. simpl. split; [lia | assumption].
        -- rewrite length_app. simpl.
           replace (length pre + 1)%nat with (S (length pre)) by lia.
           now rewrite Ek.
Qed.

Lemma match_nonempty {A B} (l : list A) (x y : B) :
  l <> [] -> match l with [] => x | _ :: _ => y end = y.
Proof. destruct l; [contradiction | reflexivity]. Qed.

(** X1. [discardEmulationPreventionBytes] keeps its first byte and undoes
    emulation prevention on the rest: from index 1 on, every
    [0x00 0x00 0x03] loses its [0x03] and every other byte stays, in
    order.  On an input that does not begin with such a triple this is
    emulation prevention undone on the whole input. *)
Theorem discardEmulationPreventionBytes_strips_tail (bytes : Uint8Array) :
  discardEmulationPreventionBytes bytes =
    match bytes with
    | [] => []
    | b :: tl => b :: stripEmulationPrevention tl
    end /\
  ((forall b0 b1 b2 rest,
       bytes = b0 :: b1 :: b2 :: rest -> isTriple b0 b1 b2 = false) ->
   discardEmulationPreventionBytes bytes = stripEmulationPrevention bytes).
Proof.
  assert (Hmain : discardEmulationPreventionBytes bytes =
                  match bytes with
                  | [] => []
                  | b :: tl => b :: stripEmulationPrevention tl
                  end).
  { destruct bytes as [|b tl]; [reflexivity|].
    unfold discardEmulationPreventionBytes. cbv zeta.
    pose proof (findEmulationPreventionBytes_offsets
                  (Z.to_nat (byteLength (b :: tl))) tl [b] []) as Hpos.
    cbn [app length] in Hpos. change (Z.of_nat 1) with 1 in Hpos.
    rewrite Hpos by (unfold byteLength; simpl; lia). clear Hpos.
    destruct (tripleOffsets_gapped (length tl) tl 1 (Nat.le_refl _))
      as [Hg Hr].
    pose proof (deleteAt_tripleOffsets (length tl) tl 1 (Nat.le_refl _))
      as Hstrip.
    set (ps := map (fun p => (1 + p)%nat) (tripleOffsets tl)) in *.
    assert (Hps : map (fun p => Z.of_nat (1 + p)) (tripleOffsets tl)
                  = map Z.of_nat ps)
      by (unfold ps; now rewrite map_map).
    rewrite Hps. rewrite <- Hstrip.
    destruct ps as [|p ps'] eqn:Eps.
    - cbn [map]. now rewrite deleteAt_nil.
    - rewrite <- Eps in *. 
      assert (Hg0 : gapped (length (@nil byte)) ps)
        by (apply (gapped_weaken _ (1 + 2)%nat); [simpl; lia | exact Hg]).
      assert (Hr0 : Forall (fun q => (q < 0 + length (b :: tl))%nat) ps).
      { unfold ps. apply Forall_map. eapply Forall_impl; [|exact Hr].
        intros q Hq. cbv beta in *. simpl. lia. }
      pose proof (length_deleteAt (b :: tl) 0 ps Hg0 Hr0) as Hlen.
      assert (Hhead : deleteAt 0 ps (b :: tl) = b :: deleteAt 1 ps tl).
      { rewrite Eps. apply deleteAt_cons_ne.
        rewrite Eps in Hg. destruct Hg as [Hp _]. lia. }
      pose proof (copyWithout_deleteAt (length (b :: tl)) (b :: tl) [] ps []
                    (length (deleteAt 0 ps (b :: tl)))
                    (Nat.le_refl _) Hg0 (Nat.le_refl _)) as Hcopy.
      cbn [app length Nat.add] in Hcopy. change (Z.of_nat 0) with 0 in Hcopy.
      rewrite Hhead in Hcopy.
      assert (Hn : byteLength (b :: tl) - Z.of_nat (length (map Z.of_nat ps))
                   = Z.of_nat (length (b :: deleteAt 1 ps tl))).
      { rewrite length_map. rewrite Hhead in Hlen. unfold byteLength. lia. }
      rewrite match_nonempty by (rewrite Eps; discriminate).
      rewrite Hn, Nat2Z.id. exact Hcopy. }
  split; [exact Hmain|].
  intros Hno. rewrite Hmain.
  destruct bytes as [|b0 [|b1 [|b2 rest]]]; try reflexivity.
  cbn [stripEmulationPrevention].
  now rewrite (Hno b0 b1 b2 rest eq_refl).
Qed.
(** ** [getStartDTS], when every [traf] has a [tfdt] *)

Lemma timescaleOr90k_nonzero track : timescaleOr90k track <> 0.
Proof.
  unfold timescaleOr90k. destruct (timescale track) as [t|]; [|lia].
  destruct (Z.eqb_spec t 0); lia.
Qed.

Lemma ltb_lt x r : JSNumber.ltb x r = true -> (x < r)%Q.
Proof.
  unfold JSNumber.ltb. intros H. apply negb_true_iff in H.
  destruct (Qlt_le_dec x r) as [Hlt|Hle]; [assumption|].
  apply Qle_bool_iff in Hle. congruence.
Qed.

Lemma ltb_ge x r : JSNumber.ltb x r = false -> (r <= x)%Q.
Proof.
  unfold JSNumber.ltb. intros H. apply negb_false_iff in H.
  now apply Qle_bool_iff.
Qed.

Lemma earliestOf_earlier r l x :
  earliestOf r l -> earliestOf (earlier r x) (l ++ [x]).
Proof.
  destruct r as [m|]; simpl.
  - intros [Hin Hmin]. destruct (JSNumber.ltb x m) eqn:E; simpl.
    + apply ltb_lt in E. split; [apply in_or_app; right; now left|].
      intros c Hc. apply in_app_or in Hc. destruct Hc as [Hc|[<-|[]]].
      * apply Qle_trans with m; [now apply Qlt_le_weak | now apply Hmin].
      * apply Qle_refl.
    + apply ltb_ge in E. split; [apply in_or_app; now left|].
      intros c Hc. apply in_app_or in Hc. destruct Hc as [Hc|[<-|[]]].
      * now apply Hmin.
      * assumption.
  - intros ->. simpl. split; [now left|].
    intros c [<-|[]]. apply Qle_refl.
Qed.

Lemma earliestOf_merge r l s l' :
  earliestOf r l -> earliestOf s l' ->
  earliestOf (match s with Some x => earlier r x | None => r end) (l ++ l').
Proof.
  intros Hr Hs. destruct s as [x|]; simpl in Hs.
  - destruct Hs as [Hin Hmin].
    pose proof (earliestOf_earlier r l x Hr) as H.
    destruct (earlier r x) as [m|] eqn:E; simpl in *.
    + destruct H as [Hm Hle]. split.
      * apply in_app_or in Hm. apply in_or_app.
        destruct Hm as [Hm|[<-|[]]]; [now left | now right].
      * intros c Hc. apply in_app_or in Hc. destruct Hc as [Hc|Hc].
        -- apply Hle. apply in_or_app. now left.
        -- apply Qle_trans with x; [|now apply Hmin].
           apply Hle. apply in_or_app. right. now left.
    + destruct l; discriminate.
  - subst l'. now rewrite app_nil_r.
Qed.

Section StartTimes.

Variable initData : InitData.

Lemma startOfTfhd_earliest tfdt tfhds :
  forall r l,
    earliestOf r l ->
    earliestOf (fold_left (startOfTfhd initData tfdt) tfhds r)
               (l ++ flat_map (timeOfTfhd initData tfdt) tfhds).
Proof.
  induction tfhds as [|tfhd tfhds IH]; intros r l Hr.
  - simpl. now rewrite app_nil_r.
  - cbn [fold_left flat_map]. rewrite app_assoc. apply IH.
    unfold startOfTfhd, timeOfTfhd.
    destruct (initData (readUint32 (View tfhd) 4)) as [track|];
      [|now rewrite app_nil_r].
    unfold JSNumber.divide.
    destruct (Z.eqb_spec (timescaleOr90k track) 0) as [E|_];
      [now apply timescaleOr90k_nonzero in E|].
    now apply earliestOf_earlier.
Qed.

Lemma startOfTraf_earliest trafs :
  (forall traf, In traf trafs -> findBox (View traf) ["tfdt"%string] <> []) ->
  forall r l,
    earliestOf r l ->
    exists r',
      reduceM (startOfTraf initData) trafs r = Normal r' /\
      earliestOf r' (l ++ flat_map (startTimesOfTraf initData) trafs).
Proof.
  induction trafs as [|traf trafs IH]; intros Hall r l Hr.
  - exists r. simpl. now rewrite app_nil_r.
  - cbn [reduceM flat_map]. unfold startOfTraf at 1, startTimesOfTraf at 1.
    destruct (findBox (View traf) ["tfdt"%string]) as [|tfdt others] eqn:E.
    + exfalso. apply (Hall traf); [now left | assumption].
    + cbn [hd_error bind]. rewrite app_assoc. apply IH.
      * intros t Ht. apply Hall. now right.
      * apply earliestOf_merge; [assumption|].
        apply (startOfTfhd_earliest tfdt _ None []). reflexivity.
Qed.

End StartTimes.

(** X2. When every [traf] of the fragment has a [tfdt], [getStartDTS]
    returns the earliest of the start times: one of them, below or equal
    to all of them; with no start time to choose from (no [traf], or no
    [tfhd] of a known track) it returns 0. *)
Theorem getStartDTS_earliest (initData : InitData) (fmp4 : Uint8Array) :
  (forall traf,
      In traf (findBox (Raw fmp4) ["moof"; "traf"]%string) ->
      findBox (View traf) ["tfdt"%string] <> []) ->
  exists q,
    getStartDTS initData fmp4 = Normal q /\
    (startTimes initData fmp4 = [] -> q = 0%Q) /\
    (startTimes initData fmp4 <> [] ->
     (exists c, In c (startTimes initData fmp4) /\ (q == c)%Q) /\
     (forall c, In c (startTimes initData fmp4) -> (q <= c)%Q)).
Proof.
  intros Hall. unfold getStartDTS.
  destruct (startOfTraf_earliest initData _ Hall None [] eq_refl)
    as (r & Hrun & Hr).
  rewrite Hrun. cbn [bind app] in *. fold (startTimes initData fmp4) in Hr.
  exists (orZero r). split; [reflexivity|]. split.
  - intros Hnone. rewrite Hnone in Hr. destruct r as [m|]; [|reflexivity].
    destruct Hr as [[] _].
  - intros Hsome. destruct r as [m|]; [|contradiction].
    destruct Hr as [Hin Hmin]. cbn [orZero].
    destruct (Qeq_bool m 0) eqn:E.
    + apply Qeq_bool_iff in E. split.
      * exists m. split; [assumption | now symmetry].
      * intros c Hc. rewrite <- E. now apply Hmin.
    + split; [exists m; split; [assumption | reflexivity] | exact Hmin].
Qed.

Lemma getStartDTS_earliest_witness :
  exists q,
    getStartDTS Fixture.initData Fixture.fragment64 = Normal q /\
    (startTimes Fixture.initData Fixture.fragment64 = [] -> q = 0%Q) /\
    (startTimes Fixture.initData Fixture.fragment64 <> [] ->
     (exists c, In c (startTimes Fixture.initData Fixture.fragment64)
                /\ (q == c)%Q) /\
     (forall c, In c (startTimes Fixture.initData Fixture.fragment64)
                -> (q <= c)%Q)).
Proof.
  apply (getStartDTS_earliest Fixture.initData Fixture.fragment64).
  intros traf Hin. vm_compute in Hin. destruct Hin as [<-|[]].
  vm_compute. discriminate.
Defined.
(** ** [appendUint8Array] *)

(** X3. [appendUint8Array] never throws and returns the bytes of the first
    array followed by the bytes of the second. *)
Theorem appendUint8Array_concat (data1 data2 : Uint8Array) :
  appendUint8Array data1 data2 = Normal (data1 ++ data2).
Proof.
  unfold appendUint8Array, setArray, byteLength.
  rewrite <- Nat2Z.inj_add, Nat2Z.id.
  assert (F1 : fits (repeat x00 (length data1 + length data2)) 0
                    (Z.of_nat (length data1)) = true).
  { apply fits_spec. unfold byteLength. rewrite repeat_length. lia. }
  rewrite F1. cbn [bind]. change (Z.to_nat 0) with 0%nat.
  cbn [firstn Nat.add app]. rewrite repeat_app, skipn_app, repeat_length.
  rewrite skipn_all2 by (rewrite repeat_length; lia).
  rewrite Nat.sub_diag. cbn [skipn app].
  assert (F2 : fits (data1 ++ repeat x00 (length data2))
                    (Z.of_nat (length data1)) (Z.of_nat (length data2)) = true).
  { apply fits_spec. unfold byteLength.
    rewrite length_app, repeat_length. lia. }
  rewrite F2. cbn [bind]. rewrite Nat2Z.id.
  rewrite firstn_app, firstn_all, Nat.sub_diag. cbn [firstn].
  rewrite app_nil_r.
  rewrite skipn_all2 by (rewrite length_app, repeat_length; lia).
  now rewrite app_nil_r.
Qed.

(** ** [computeRawDurationFromSamples] *)

Lemma land_pow2 a i :
  0 <= i -> Z.land a (2 ^ i) = Z.b2z (Z.testbit a i) * 2 ^ i.
Proof.
  intros Hi. apply Z.bits_inj'. intros n Hn.
  rewrite Z.land_spec, Z.pow2_bits_eqb by lia.
  destruct (Z.testbit a i) eqn:Ea; cbn [Z.b2z].
  - rewrite Z.mul_1_l, Z.pow2_bits_eqb by lia.
    destruct (Z.eqb_spec i n) as [->|]; [now rewrite Ea | apply andb_false_r].
  - rewrite Z.mul_0_l, Z.bits_0.
    destruct (Z.eqb_spec i n) as [->|]; [now rewrite Ea | apply andb_false_r].
Qed.

Lemma testbit_ToInt32 z i :
  0 <= i < 32 -> Z.testbit (JS.ToInt32 z) i = Z.testbit z i.
Proof.
  intros Hi.
  rewrite <- (Z.mod_pow2_bits_low (JS.ToInt32 z) 32 i) by lia.
  rewrite <- (Z.mod_pow2_bits_low z 32 i) by lia.
  change (2 ^ 32) with 4294967296. now rewrite ToInt32_mod.
Qed.

(** A flag test with a one-bit mask below the sign bit reads that bit. *)
Lemma flagSet_testbit flags i :
  0 <= i < 31 -> flagSet flags (2 ^ i) = Z.testbit flags i.
Proof.
  intros Hi. unfold flagSet, JS.band.
  assert (Hp : 0 < 2 ^ i < 2147483648).
  { split; [apply Z.pow_pos_nonneg; lia|].
    change 2147483648 with (2 ^ 31). apply Z.pow_lt_mono_r; lia. }
  rewrite (ToInt32_small (2 ^ i)) by lia.
  rewrite land_pow2, testbit_ToInt32 by lia.
  destruct (Z.testbit flags i); cbn [Z.b2z].
  - destruct (Z.eqb_spec (1 * 2 ^ i) 0); [lia | reflexivity].
  - reflexivity.
Qed.
Lemma sumOfWords_S box first step n :
  sumOfWords box first step (S n) =
  readUint32 (View box) first + sumOfWords box (first + step) step n.
Proof.
  unfold sumOfWords. cbn [seq map fold_right].
  rewrite Z.mul_0_r, Z.add_0_r. f_equal.
  rewrite <- seq_shift, map_map. f_equal.
  apply map_ext. intros k. f_equal. lia.
Qed.

Lemma rawDurationLoop_sum trun flags n :
  forall offset duration,
    rawDurationLoop trun flags n offset duration =
    duration
    + (if Z.testbit flags 8
       then sumOfWords trun offset (trunRecordSize flags) n
       else 0).
Proof.
  pose proof (flagSet_testbit flags 8 ltac:(lia)) as H8.
  pose proof (flagSet_testbit flags 9 ltac:(lia)) as H9.
  pose proof (flagSet_testbit flags 10 ltac:(lia)) as H10.
  pose proof (flagSet_testbit flags 11 ltac:(lia)) as H11.
  change (2 ^ 8) with 256 in H8. change (2 ^ 9) with 512 in H9.
  change (2 ^ 10) with 1024 in H10. change (2 ^ 11) with 2048 in H11.
  induction n as [|n IH]; intros offset duration.
  - cbn [rawDurationLoop]. unfold sumOfWords. cbn [seq map fold_right].
    destruct (Z.testbit flags 8); lia.
  - cbn [rawDurationLoop]. rewrite H8, H9, H10, H11, sumOfWords_S.
    assert (Hs : trunRecordSize flags =
                 4 * (Z.b2z (Z.testbit flags 8) + Z.b2z (Z.testbit flags 9)
                      + Z.b2z (Z.testbit flags 10)
                      + Z.b2z (Z.testbit flags 11))) by reflexivity.
    set (s := trunRecordSize flags) in *.
    destruct (Z.testbit flags 8) eqn:E8, (Z.testbit flags 9) eqn:E9,
      (Z.testbit flags 10) eqn:E10, (Z.testbit flags 11) eqn:E11;
      cbn [Z.b2z] in Hs; cbv beta iota zeta; rewrite IH; fold s;
      try lia;
      match goal with
      | |- _ + sumOfWords trun ?a s n = _ =>
          replace a with (offset + s) by lia
      end; lia.
Qed.

(** X4. [computeRawDurationFromSamples] adds up the duration fields of
    the sample records of a [trun] and nothing else: with the
    sample-duration bit (0x100) set it is the sum of the 32-bit words at
    the start of each of the [sample_count] records, the first record
    standing after the 8 fixed bytes and 4 more for each of the
    data-offset (0x1) and first-sample-flags (0x4) bits, every record
    taking 4 bytes for each of the bits 0x100, 0x200, 0x400 and 0x800 that
    is set; with the bit clear it is 0. *)
Theorem computeRawDurationFromSamples_sum (trun : Mp4BoxData) :
  let flags := readUint32 (View trun) 0 in
  let sampleCount := readUint32 (View trun) 4 in
  computeRawDurationFromSamples trun =
  if Z.testbit flags 8
  then sumOfWords trun (trunFirstRecord flags) (trunRecordSize flags)
                  (Z.to_nat sampleCount)
  else 0.
Proof.
  intros flags sampleCount. unfold computeRawDurationFromSamples.
  fold flags. fold sampleCount. cbv zeta.
  rewrite rawDurationLoop_sum.
  pose proof (flagSet_testbit flags 0 ltac:(lia)) as H0.
  pose proof (flagSet_testbit flags 2 ltac:(lia)) as H2.
  change (2 ^ 0) with 1 in H0. change (2 ^ 2) with 4 in H2.
  rewrite H0, H2.
  destruct (Z.testbit flags 8); [|reflexivity].
  rewrite Z.add_0_l. f_equal.
  unfold trunFirstRecord, bitOf.
  destruct (Z.testbit flags 0), (Z.testbit flags 2); reflexivity.
Qed.

(** ** [mapToSample] *)

Lemma totalBytes_cons s l : totalBytes (s :: l) = sampleBytes s + totalBytes l.
Proof. reflexivity. Qed.

(** X5. For an offset that is not negative, [mapToSample] returns the
    sample whose window of bytes holds the offset, the windows being laid
    end to end in sample order with the size of each sample (a sample
    without size, or of size 0, has an empty window and is never
    returned); it returns nothing exactly when the offset is at or past
    the end of the last window. *)
Theorem mapToSample_window (samples : list TrunSample) :
  forall offset,
    0 <= offset ->
    match mapToSample offset samples with
    | Some sample =>
        exists before after,
          samples = before ++ sample :: after /\
          totalBytes before <= offset < totalBytes before + sampleBytes sample
    | None => totalBytes samples <= offset
    end.
Proof.
  induction samples as [|s rest IH]; intros offset Hoff.
  - cbn [mapToSample]. unfold totalBytes. cbn [map fold_right]. lia.
  - cbn [mapToSample]. rewrite totalBytes_cons.
    assert (Hsb : sampleBytes s = if hasSize s then JS.int (size s) else 0)
      by reflexivity.
    destruct (hasSize s) eqn:Hs; cbn [andb].
    + destruct (Z.ltb_spec offset (JS.int (size s))) as [Hlt|Hge].
      * exists [], rest. split; [reflexivity|].
        change (totalBytes []) with 0. lia.
      * specialize (IH (offset - JS.int (size s)) ltac:(lia)).
        destruct (mapToSample (offset - JS.int (size s)) rest) as [found|].
        -- destruct IH as (before & after & Hrest & Hw).
           exists (s :: before), after. split; [now rewrite Hrest|].
           rewrite totalBytes_cons. lia.
        -- lia.
    + rewrite Z.sub_0_r. specialize (IH offset Hoff).
      destruct (mapToSample offset rest) as [found|].
      * destruct IH as (before & after & Hrest & Hw).
        exists (s :: before), after. split; [now rewrite Hrest|].
        rewrite totalBytes_cons. lia.
      * lia.
Qed.

Lemma mapToSample_window_witness :
  match mapToSample 12 Fixture.trunSamples with
  | Some sample =>
      exists before after,
        Fixture.trunSamples = before ++ sample :: after /\
        totalBytes before <= 12 < totalBytes before + sampleBytes sample
  | None => totalBytes Fixture.trunSamples <= 12
  end.
Proof. apply (mapToSample_window Fixture.trunSamples 12). lia. Defined.
(** ** [parseTfdt] *)


Lemma subarray_inside a s e :
  0 <= s <= e -> e <= byteLength a ->
  subarray a s e = firstn (Z.to_nat (e - s)) (skipn (Z.to_nat s) a).
Proof.
  intros Hs He. unfold subarray, relIndex.
  destruct (Z.ltb_spec s 0); [lia|]. destruct (Z.ltb_spec e 0); [lia|].
  now rewrite !Z.min_l by lia.
Qed.



(** ** [parseTfhd] *)

Lemma optionalUint32_Normal view present offset v offset' :
  optionalUint32 view present offset = Normal (v, offset') ->
  v = (if present =? 0 then None else Some (bigEndian32 view offset)) /\
  offset' = (if present =? 0 then offset else offset + 4).
Proof.
  unfold optionalUint32, getUint32.
  destruct (present =? 0); [intros [= <- <-]; auto|].
  destruct (fits view offset 4); [|discriminate].
  cbn [bind]. intros [= <- <-]. auto.
Qed.

Lemma band_bit x i :
  0 <= i < 31 -> (JS.band x (2 ^ i) =? 0) = negb (Z.testbit x i).
Proof.
  intros Hi. rewrite <- (flagSet_testbit x i Hi). unfold flagSet.
  now rewrite negb_involutive.
Qed.

(** A mask above the low 8 bits never meets a byte. *)
Lemma band_byte_high x i :
  0 <= x < 256 -> 8 <= i < 31 -> (JS.band x (2 ^ i) =? 0) = true.
Proof.
  intros Hx Hi. rewrite band_bit by lia.
  replace x with (x mod 2 ^ 8) by (apply Z.mod_small; simpl; lia).
  now rewrite Z.mod_pow2_bits_high by lia.
Qed.

(** X7. [parseTfhd] throws a [RangeError] on a payload shorter than 8
    bytes.  When it returns, the track id is the 32-bit word at offset 4;
    the default sample duration and size are present exactly when bits
    0x08 and 0x10 of the last flags byte are set, and are read after the
    8-byte base data offset (bit 0x01), the sample description index
    (bit 0x02) and each other; and [durationIsEmpty] and
    [baseDataOffsetIsMoof] are never set, whatever the flags say: their
    masks 0x010000 and 0x020000 are applied to a single flags byte. *)
Theorem parseTfhd_fields (tfhd : Mp4BoxData) :
  let p := subarray (data tfhd) (start tfhd) (end_ tfhd) in
  let f := JS.int (get (subarray p 1 4) 2) in
  let durationAt := 8 + 8 * bitOf f 0 + 4 * bitOf f 1 in
  (byteLength p < 8 -> parseTfhd tfhd = Throw RangeError) /\
  (forall info,
      parseTfhd tfhd = Normal info ->
      tfhd_trackId info = bigEndian32 p 4 /\
      defaultSampleDuration info =
        (if Z.testbit f 3 then Some (bigEndian32 p durationAt) else None) /\
      defaultSampleSize info =
        (if Z.testbit f 4
         then Some (bigEndian32 p (durationAt + 4 * bitOf f 3))
         else None) /\
      durationIsEmpty info = None /\
      baseDataOffsetIsMoof info = None).
Proof.
  intros p f durationAt. split.
  - intros Hlen. unfold parseTfhd. fold p. unfold getUint32.
    destruct (fits p 4 4) eqn:F; [|reflexivity].
    apply fits_spec in F. lia.
  - intros info. unfold parseTfhd. fold p. fold f.
    unfold getUint32 at 1.
    destruct (fits p 4 4); [|discriminate]. cbn [bind].
    pose proof (int_get_range (subarray p 1 4) 0) as H0.
    assert (H16 : (JS.band (JS.int (get (subarray p 1 4) 0)) 65536 =? 0) = true)
      by (apply (band_byte_high _ 16 H0); lia).
    assert (H17 : (JS.band (JS.int (get (subarray p 1 4) 0)) 131072 =? 0) = true)
      by (apply (band_byte_high _ 17 H0); lia).
    assert (Hb0 : (JS.band f 1 =? 0) = negb (Z.testbit f 0))
      by (apply (band_bit f 0); lia).
    rewrite H16, H17, Hb0. cbn [negb]. rewrite andb_false_r.
    set (base := if negb (Z.testbit f 0)
                 then Normal (None, 8)
                 else v <- getUint32 p (8 + 4) ;; Normal (Some v, 8 + 4 + 4)).
    assert (Hbase : forall b i, base = Normal (b, i) -> i = 8 + 8 * bitOf f 0).
    { intros b i. unfold base, bitOf, getUint32.
      destruct (Z.testbit f 0); cbn [negb Z.b2z].
      - destruct (fits p (8 + 4) 4); [|discriminate]. cbn [bind].
        intros [= <- <-]. reflexivity.
      - intros [= <- <-]. reflexivity. }
    destruct base as [[b i0]|] eqn:Eb; [|discriminate]. cbn [bind].
    specialize (Hbase b i0 eq_refl).
    destruct (optionalUint32 p (JS.band f 2) i0) as [[sdi i1]|] eqn:E1;
      [|discriminate]. cbn [bind].
    destruct (optionalUint32 p (JS.band f 8) i1) as [[dur i2]|] eqn:E2;
      [|discriminate]. cbn [bind].
    destruct (optionalUint32 p (JS.band f 16) i2) as [[sz i3]|] eqn:E3;
      [|discriminate]. cbn [bind].
    destruct (optionalUint32 p (JS.band f 32) i3) as [[fl i4]|] eqn:E4;
      [|discriminate]. cbn [bind].
    intros [= <-]. cbn [tfhd_trackId defaultSampleDuration defaultSampleSize
                        durationIsEmpty baseDataOffsetIsMoof].
    apply optionalUint32_Normal in E1, E2, E3.
    destruct E1 as [_ Hi1], E2 as [Hdur Hi2], E3 as [Hsz _].
    assert (Hb1 : (JS.band f 2 =? 0) = negb (Z.testbit f 1))
      by (apply (band_bit f 1); lia).
    assert (Hb3 : (JS.band f 8 =? 0) = negb (Z.testbit f 3))
      by (apply (band_bit f 3); lia).
    assert (Hb4 : (JS.band f 16 =? 0) = negb (Z.testbit f 4))
      by (apply (band_bit f 4); lia).
    rewrite Hb1 in Hi1. rewrite Hb3 in Hdur, Hi2. rewrite Hb4 in Hsz.
    assert (Ei1 : i1 = durationAt).
    { subst i1 i0. unfold durationAt, bitOf.
      destruct (Z.testbit f 1); cbn [negb Z.b2z]; lia. }
    assert (Ei2 : i2 = durationAt + 4 * bitOf f 3).
    { subst i2. rewrite Ei1. unfold bitOf.
      destruct (Z.testbit f 3); cbn [negb Z.b2z]; lia. }
    rewrite Ei1 in Hdur. rewrite Ei2 in Hsz.
    repeat split.
    + rewrite Hdur. destruct (Z.testbit f 3); reflexivity.
    + rewrite Hsz. destruct (Z.testbit f 4); reflexivity.
Qed.
(** ** [parseUserData] *)

Lemma get_nth a k :
  get a (Z.of_nat k) = option_map byteValue (nth_error a k).
Proof. apply (get_app_offset [] a k). Qed.

Lemma byteValue_inj b c : byteValue b = byteValue c -> b = c.
Proof.
  intros H. rewrite <- (byteOfZ_byteValue b), <- (byteOfZ_byteValue c).
  now rewrite H.
Qed.

Lemma subarray_header_tail rest :
  subarray (captionHeader ++ rest)
           8 (byteLength (captionHeader ++ rest) - 1) = removelast rest.
Proof.
  destruct rest as [|r rest']; [reflexivity|]. set (rest := r :: rest').
  assert (Hlen : byteLength (captionHeader ++ rest)
                 = 8 + Z.of_nat (length rest))
    by (unfold byteLength; rewrite length_app; simpl length; lia).
  assert (0 < Z.of_nat (length rest)) by (simpl; lia).
  rewrite subarray_inside by lia. rewrite Hlen.
  change (Z.to_nat 8) with (length captionHeader).
  rewrite skipn_app, skipn_all, Nat.sub_diag. cbn [skipn app].
  rewrite removelast_firstn_len. f_equal. lia.
Qed.

(** X8. [parseUserData] accepts exactly the payloads that begin with the
    eight bytes [0xB5 0x00 0x31 'G' 'A' '9' '4' 0x03], and returns what
    follows them without its last byte. *)
Theorem parseUserData_caption (sei : SeiNalUnits) (userData : Uint8Array) :
  parseUserData sei = Some userData <->
  exists rest,
    payload sei = Some (captionHeader ++ rest) /\
    userData = removelast rest.
Proof.
  unfold parseUserData. split.
  - destruct (payload sei) as [p|]; [|discriminate].
    destruct (isByte (get p 0) 181) eqn:E0; cbn [negb]; [|discriminate].
    destruct (JS.bor (JS.shl (JS.int (get p 1)) 8) (JS.int (get p 2)) =? 49)
      eqn:Eprov; cbn [negb]; [|discriminate].
    destruct (String.eqb _ "GA94") eqn:Eid; cbn [negb]; [|discriminate].
    destruct (isByte (get p 7) 3) eqn:E7; cbn [negb]; [|discriminate].
    revert E0 Eprov Eid E7.
    change 0 with (Z.of_nat 0). change 1 with (Z.of_nat 1) at 1.
    change 2 with (Z.of_nat 2) at 1. change 3 with (Z.of_nat 3) at 1.
    change 4 with (Z.of_nat 4) at 1. change 5 with (Z.of_nat 5) at 1.
    change 6 with (Z.of_nat 6) at 1. change 7 with (Z.of_nat 7) at 1.
    rewrite !get_nth. intros E0 Eprov Eid E7.
    destruct p as [|b0 [|b1 [|b2 [|b3 [|b4 [|b5 [|b6 [|b7 rest]]]]]]]];
      cbn [nth_error option_map isByte JS.int] in E0, Eprov, Eid, E7;
      try discriminate.
    intros [= <-]. exists rest.
    repeat match goal with
           | H : (byteValue _ =? _) = true |- _ => apply Z.eqb_eq in H
           end.
    match goal with
    | H : (JS.bor _ _ =? 49) = true |- _ =>
        apply Z.eqb_eq in H;
        rewrite shl_byte_8 in H by apply byteValue_range;
        change 256 with (2 ^ 8) in H;
        rewrite bor_disjoint in H
          by (pose proof (byteValue_range b1); pose proof (byteValue_range b2);
              lia);
        rename H into Hprov
    end.
    match goal with
    | H : String.eqb _ _ = true |- _ =>
        apply String.eqb_eq in H;
        apply (f_equal list_byte_of_string) in H;
        unfold bin2str in H;
        rewrite list_byte_of_string_of_list_byte, !byteOfZ_byteValue in H;
        injection H as -> -> -> ->
    end.
    pose proof (byteValue_range b1). pose proof (byteValue_range b2).
    assert (byteValue b1 = 0) by lia. assert (byteValue b2 = 49) by lia.
    replace b0 with xb5 by (apply byteValue_inj; symmetry; assumption).
    replace b1 with x00 by (apply byteValue_inj; symmetry; assumption).
    replace b2 with x31 by (apply byteValue_inj; symmetry; assumption).
    replace b7 with x03 by (apply byteValue_inj; symmetry; assumption).
    split; [reflexivity|].
    exact (subarray_header_tail rest).
  - intros (rest & -> & ->).
    rewrite <- (subarray_header_tail rest).
    change 0 with (Z.of_nat 0). change 1 with (Z.of_nat 1) at 1.
    change 2 with (Z.of_nat 2) at 1. change 3 with (Z.of_nat 3) at 1.
    change 4 with (Z.of_nat 4) at 1. change 5 with (Z.of_nat 5) at 1.
    change 6 with (Z.of_nat 6) at 1. change 7 with (Z.of_nat 7) at 1.
    rewrite !get_nth. reflexivity.
Qed.

(** ** [readNullTerminatedString] *)

Lemma skipn_cons_nth {A} (l : list A) k b tl :
  skipn k l = b :: tl ->
  nth_error l k = Some b /\ skipn (S k) l = tl /\ (k < length l)%nat.
Proof.
  revert l. induction k as [|k IH]; intros [|x l] H; try discriminate.
  - injection H as -> ->. cbn. repeat split. lia.
  - cbn [skipn] in H. destruct (IH l H) as (Hn & Hs & Hl).
    cbn [nth_error length]. repeat split; [exact Hn | exact Hs | lia].
Qed.

Lemma skipn_nil_length {A} (l : list A) k :
  skipn k l = [] -> (length l <= k)%nat.
Proof.
  intros H. apply (f_equal (@length A)) in H. rewrite length_skipn in H.
  cbn in H. lia.
Qed.

Lemma untilZero_prefix l : firstn (length (untilZero l)) l = untilZero l.
Proof.
  induction l as [|b tl IH]; [reflexivity|]. cbn [untilZero].
  destruct (byteValue b =? 0); [reflexivity|].
  cbn [length firstn]. now rewrite IH.
Qed.

Lemma untilZero_length l : (length (untilZero l) <= length l)%nat.
Proof.
  induction l as [|b tl IH]; [cbn; lia|]. cbn [untilZero].
  destruct (byteValue b =? 0); cbn [length]; lia.
Qed.

Lemma terminatorFrom_spec buffer fuel k :
  (length buffer - k <= fuel)%nat ->
  terminatorFrom buffer fuel (Z.of_nat k) =
  Z.of_nat (k + length (untilZero (skipn k buffer))).
Proof.
  revert k. induction fuel as [|fuel IH]; intros k Hf.
  - cbn [terminatorFrom]. rewrite skipn_all2 by lia. cbn. lia.
  - cbn [terminatorFrom]. rewrite get_nth.
    destruct (skipn k buffer) as [|b tl] eqn:E.
    + apply skipn_nil_length in E.
      destruct (Z.ltb_spec (Z.of_nat k) (byteLength buffer)) as [H|H];
        [unfold byteLength in H; lia|].
      rewrite andb_false_r. cbn. lia.
    + destruct (skipn_cons_nth _ _ _ _ E) as (Hn & Hs & Hl).
      rewrite Hn. cbn [option_map JS.int untilZero].
      destruct (byteValue b =? 0); cbn [negb andb length].
      * lia.
      * destruct (Z.ltb_spec (Z.of_nat k) (byteLength buffer)) as [H|H];
          [|unfold byteLength in H; lia].
        replace (Z.of_nat k + 1) with (Z.of_nat (S k)) by lia.
        rewrite IH by lia. rewrite Hs. lia.
Qed.

Lemma readNullTerminatedString_spec (buffer : Uint8Array) (offset : Z) :
  readNullTerminatedString buffer offset =
  if 0 <=? offset
  then bin2str (untilZero (skipn (Z.to_nat offset) buffer))
  else EmptyString.
Proof.
  unfold readNullTerminatedString.
  destruct (Z.leb_spec 0 offset) as [H|H].
  - rewrite <- (Z2Nat.id offset) at 1 2 by exact H.
    set (k := Z.to_nat offset).
    rewrite terminatorFrom_spec by lia.
    set (u := untilZero (skipn k buffer)).
    assert (Hu : (length u <= length (skipn k buffer))%nat)
      by apply untilZero_length.
    rewrite length_skipn in Hu.
    destruct (Nat.le_gt_cases (length buffer) k) as [Hk|Hk].
    + assert (Hnil : u = []).
      { unfold u. now rewrite skipn_all2 by exact Hk. }
      rewrite Hnil. cbn [length]. rewrite Nat.add_0_r.
      f_equal. unfold subarray, relIndex.
      destruct (Z.ltb_spec (Z.of_nat k) 0); [lia|].
      now rewrite Z.sub_diag.
    + f_equal. rewrite subarray_inside by (unfold byteLength; lia).
      rewrite Nat2Z.id.
      replace (Z.to_nat (Z.of_nat (k + length u) - Z.of_nat k))
        with (length u) by lia.
      apply untilZero_prefix.
  - assert (Ht : terminatorFrom buffer (length buffer) offset = offset).
    { destruct (length buffer); [reflexivity|]. cbn [terminatorFrom].
      unfold get, inRange. destruct (Z.leb_spec 0 offset); [lia|].
      reflexivity. }
    rewrite Ht. unfold subarray. now rewrite Z.sub_diag.
Qed.

(** X9. [readNullTerminatedString] returns the bytes from [offset] up to,
    not including, the first 0 byte, or up to the end of the buffer when
    there is none; the empty string for an offset past the end or a
    negative one. *)
Theorem readNullTerminatedString_until_zero (buffer : Uint8Array)
    (offset : Z) :
  readNullTerminatedString buffer offset =
  if 0 <=? offset
  then bin2str (untilZero (skipn (Z.to_nat offset) buffer))
  else EmptyString.
Proof. apply readNullTerminatedString_spec. Qed.


(** ** The readers and the writer *)

(** X10. [readUint32] and [readUint16] return the unsigned big-endian
    value of the bytes at the offset (relative to the start of a box
    view), a byte outside the buffer counting as 0: the sign repair makes
    the result non-negative even when the top bit is set. *)
Theorem readers_unsigned_bigEndian (buffer : BufferOrBox) (offset : Z) :
  let a := backing buffer in
  let i := absolute buffer offset in
  readUint32 buffer offset
    = JS.int (get a i) * 2 ^ 24 + JS.int (get a (i + 1)) * 2 ^ 16
      + JS.int (get a (i + 2)) * 2 ^ 8 + JS.int (get a (i + 3)) /\
  0 <= readUint32 buffer offset < 2 ^ 32 /\
  readUint16 buffer offset
    = JS.int (get a i) * 2 ^ 8 + JS.int (get a (i + 1)) /\
  0 <= readUint16 buffer offset < 2 ^ 16.
Proof.
  intros a i. split; [|split; [|split]].
  - apply (readUint32_bigEndian buffer offset).
  - apply (readUint32_range buffer offset).
  - apply (readUint16_bigEndian buffer offset).
  - apply (readUint16_range buffer offset).
Qed.

(** X11. [writeUint32] changes neither the length of the buffer nor any
    byte other than the four at the offset (counted from the start of the
    box when the buffer is a box view). *)
Theorem writeUint32_frame (buffer : BufferOrBox) (offset : Z) (value : Q) :
  let i := absolute buffer offset in
  let after := backing (writeUint32 buffer offset value) in
  byteLength after = byteLength (backing buffer) /\
  (forall j, j < i \/ i + 3 < j -> get after j = get (backing buffer) j).
Proof.
  intros i after. split.
  - apply backing_writeUint32_length.
  - intros j Hj. apply (get_writeUint32_other buffer offset value j Hj).
Qed.

(** ** [findBox] along a path *)

Lemma flat_map_flat_map {A B C} (f : A -> list B) (g : B -> list C) l :
  flat_map g (flat_map f l) = flat_map (fun x => flat_map g (f x)) l.
Proof.
  induction l as [|x l IH]; [reflexivity|].
  cbn [flat_map]. now rewrite flat_map_app, IH.
Qed.

Lemma findBox_app a p q :
  p <> [] -> q <> [] ->
  forall limit i,
    findBox (View (mkBox a i limit)) (p ++ q) =
    flat_map (fun c => findBox (View c) q)
             (findBox (View (mkBox a i limit)) p).
Proof.
  intros Hp. induction q as [|n q' IH] using rev_ind; [congruence|].
  intros _ limit i. destruct q' as [|n' q''].
  - apply (findBox_snoc a n p Hp).
  - rewrite app_assoc.
    rewrite findBox_snoc by (destruct p; discriminate).
    rewrite IH by discriminate.
    rewrite flat_map_flat_map. apply flat_map_ext. intros [d s e].
    symmetry. apply (findBox_snoc d n (n' :: q'')). discriminate.
Qed.

(** X12. Searching along a path is searching along its first part and then,
    inside every box found, along the rest, the results in that order:
    [findBox(x, ['moof', 'traf'])] lists the [traf] boxes of the first
    [moof], then those of the second, and so on. *)
Theorem findBox_path_composes (input : BufferOrBox) (n1 n2 : string)
    (p1 p2 : list string) :
  findBox input ((n1 :: p1) ++ n2 :: p2) =
  flat_map (fun c => findBox (View c) (n2 :: p2))
           (findBox input (n1 :: p1)).
Proof.
  rewrite (findBox_view input ((n1 :: p1) ++ n2 :: p2)).
  rewrite (findBox_view input (n1 :: p1)).
  unfold container. apply findBox_app; discriminate.
Qed.

Lemma findBox_siblings_ordered a name limit :
  forall i,
    ForallOrdPairs (fun x y => start x < start y /\ end_ x + 8 <= start y)
                   (findBox (View (mkBox a i limit)) [name]).
Proof.
  intros i. pattern i. apply (cursor_ind a limit); clear i.
  - intros i Hge. rewrite findBox_done by assumption. constructor.
  - intros i Hlt IH. rewrite findBox_step by assumption.
    destruct (String.eqb (boxType a i) name); [|exact IH].
    cbn [matched app]. constructor; [|exact IH].
    apply Forall_forall. intros y Hy.
    apply findBox_start_lower in Hy.
    pose proof (boxEnd_gt a limit i Hlt). cbn [start end_]. lia.
Qed.

(** X13. The boxes a one-name search returns are in buffer order and one
    after the other: a later result starts after an earlier one, and its
    8-byte header starts at or after the end of the earlier one. *)
Theorem findBox_in_buffer_order (input : BufferOrBox) (name : string) :
  ForallOrdPairs (fun x y => start x < start y /\ end_ x + 8 <= start y)
                 (findBox input [name]).
Proof.
  rewrite (findBox_view input [name]). apply findBox_siblings_ordered.
Qed.

(** ** [parseSegmentIndex]: the byte ranges *)

Lemma band_low31 x : 0 <= JS.band x 2147483647 < 2 ^ 31.
Proof.
  unfold JS.band. change (JS.ToInt32 2147483647) with (Z.ones 31).
  rewrite Z.land_ones by lia. apply Z.mod_pos_bound. lia.
Qed.

Lemma sidxReferences_contiguous sidx timescale :
  forall n index startByte refs result,
    sidxReferences sidx timescale n index startByte refs = Some result ->
    exists added,
      result = refs ++ added /\
      contiguousFrom startByte added /\
      Forall (fun r => 0 <= referenceSize r < 2 ^ 31 /\
                       info_duration r
                       = JSNumber.divide (subsegmentDuration r) timescale)
             added.
Proof.
  induction n as [|n IH]; intros index startByte refs result H.
  - cbn [sidxReferences] in H. apply Some_eq in H. subst result.
    exists []. rewrite app_nil_r. repeat split. constructor.
  - cbn [sidxReferences] in H. cbv beta zeta in H.
    destruct (referenceTypeOf (readUint32 (View sidx) index) =? 1);
      [discriminate|].
    apply IH in H. destruct H as (added & -> & Hc & Hf).
    eexists (_ :: added). rewrite <- app_assoc. cbn [app].
    split; [reflexivity|]. split.
    + cbn [contiguousFrom info_start info_end referenceSize].
      repeat split. exact Hc.
    + constructor; [|exact Hf].
      cbn [referenceSize info_duration subsegmentDuration].
      split; [apply band_low31 | reflexivity].
Qed.

(** X14. When [parseSegmentIndex] returns an index, the byte ranges of its
    references lie one after the other from the end of the first [sidx]
    box: each reference starts where the one before ended, spans its
    [referenceSize] bytes (a 31-bit number), and lasts its subsegment
    duration divided by the timescale of the box. *)
Theorem parseSegmentIndex_ranges (initSegment : Uint8Array)
    (info : SidxInfo) :
  parseSegmentIndex initSegment = Some info ->
  exists sidx,
    hd_error (findBox (Raw initSegment) ["sidx"%string]) = Some sidx /\
    contiguousFrom (end_ sidx) (references info) /\
    Forall (fun r => 0 <= referenceSize r < 2 ^ 31 /\
                     info_duration r
                     = JSNumber.divide (subsegmentDuration r)
                                       (sidx_timescale info))
           (references info).
Proof.
  intros H.
  destruct (findBox (Raw initSegment) ["sidx"%string]) as [|sidx others]
    eqn:E.
  - unfold parseSegmentIndex in H. rewrite E in H. discriminate.
  - exists sidx. split; [reflexivity|].
    rewrite (parseSegmentIndex_first initSegment sidx others E) in H.
    cbv zeta in H.
    destruct (sidxReferences _ _ _ _ _ _) as [refs|] eqn:Er; [|discriminate].
    apply Some_eq in H. subst info. cbn [references sidx_timescale].
    apply sidxReferences_contiguous in Er.
    destruct Er as (added & -> & Hc & Hf). cbn [app].
    rewrite Z.add_0_r in Hc. split; assumption.
Qed.

Lemma parseSegmentIndex_ranges_witness :
  exists sidx,
    hd_error (findBox (Raw Fixture.sidxFlat) ["sidx"%string]) = Some sidx /\
    contiguousFrom (end_ sidx)
      [mkSidxReference 1000 45000 (Some (45000 / 90000)%Q) 56 1055;
       mkSidxReference 2000 45000 (Some (45000 / 90000)%Q) 1056 3055] /\
    Forall (fun r => 0 <= referenceSize r < 2 ^ 31 /\
                     info_duration r
                     = JSNumber.divide (subsegmentDuration r) 90000)
      [mkSidxReference 1000 45000 (Some (45000 / 90000)%Q) 56 1055;
       mkSidxReference 2000 45000 (Some (45000 / 90000)%Q) 1056 3055].
Proof.
  apply (parseSegmentIndex_ranges Fixture.sidxFlat
           (mkSidxInfo 0 90000 (Some 0) 2
              [mkSidxReference 1000 45000 (Some (45000 / 90000)%Q) 56 1055;
               mkSidxReference 2000 45000 (Some (45000 / 90000)%Q) 1056 3055]
              None)).
  vm_compute. reflexivity.
Defined.

(** ** [parseTrun]: the samples it returns *)

Lemma bind_Normal {A B} (c : completion A) (k : A -> completion B) r :
  bind c k = Normal r -> exists a, c = Normal a /\ k a = Normal r.
Proof. destruct c as [a|e]; [|discriminate]. intros H. now exists a. Qed.

Lemma optionalUint32_given view present offset v offset' :
  optionalUint32 view present offset = Normal (v, offset') ->
  given v = negb (present =? 0).
Proof.
  intros H. apply optionalUint32_Normal in H. destruct H as [-> _].
  now destruct (present =? 0).
Qed.

Section TrunLoop.

Variable view : Uint8Array.
Variables dp sp fp cp : Z.

Let read (s : TrunSample) : Prop :=
  given (duration s) = negb (dp =? 0) /\
  given (size s) = negb (sp =? 0) /\
  given (compositionTimeOffset s) = negb (cp =? 0) /\
  dts s = None /\ pts s = None /\ trackId s = None.

Lemma trunLoop_samples :
  forall n offset samples result,
    trunLoop view dp sp fp cp n offset samples = Normal result ->
    exists added,
      result = samples ++ added /\ length added = n /\
      Forall (fun s => read s /\ given (flags s) = negb (fp =? 0)) added.
Proof.
  induction n as [|n IH]; intros offset samples result H.
  - cbn [trunLoop] in H. injection H as <-. exists [].
    rewrite app_nil_r. repeat split. constructor.
  - cbn [trunLoop] in H.
    apply bind_Normal in H. destruct H as ([d o1] & Hd & H).
    apply bind_Normal in H. destruct H as ([s o2] & Hs & H).
    destruct (fp =? 0) eqn:Ef;
      apply bind_Normal in H; destruct H as ([c o3] & Hc & H);
      apply IH in H; destruct H as (added & -> & Hl & Hf);
      eexists (_ :: added); rewrite <- app_assoc; cbn [app length];
      (split; [reflexivity|]); (split; [now rewrite Hl|]);
      (constructor; [|exact Hf]);
      unfold read;
      cbn [duration size compositionTimeOffset dts pts trackId flags given
           negb];
      rewrite (optionalUint32_given _ _ _ _ _ Hd),
              (optionalUint32_given _ _ _ _ _ Hs),
              (optionalUint32_given _ _ _ _ _ Hc);
      repeat split.
Qed.

End TrunLoop.

Lemma bigEndian32_nonneg a i : 0 <= bigEndian32 a i.
Proof.
  pose proof (readUint32_range (Raw a) i) as H.
  rewrite readUint32_bigEndian in H. cbn [backing absolute] in H. lia.
Qed.

(** X15. When [parseTrun] returns, it returns as many samples as the sample
    count of the box says.  Every sample has a duration, a size and a
    composition offset exactly when the flag for it (0x100, 0x200, 0x800)
    is set, and no time stamps or track yet; every sample after the first
    has flags exactly when 0x400 is set. *)
Theorem parseTrun_samples (trun : Mp4BoxData) (info : TrunInfo) :
  parseTrun trun = Normal info ->
  let p := subarray (data trun) (start trun) (end_ trun) in
  let present mask :=
    negb (JS.band (JS.int (get (trun_flags info) 1)) mask =? 0) in
  Z.of_nat (length (samples info)) = bigEndian32 p 4 /\
  Forall (fun s => given (duration s) = present 1 /\
                   given (size s) = present 2 /\
                   given (compositionTimeOffset s) = present 8 /\
                   dts s = None /\ pts s = None /\ trackId s = None)
         (samples info) /\
  (forall k s, nth_error (samples info) (S k) = Some s ->
               given (flags s) = present 4).
Proof.
  intros H p present. unfold parseTrun in H. fold p in H.
  apply bind_Normal in H. destruct H as (count & Hcount & H).
  apply bind_Normal in H. destruct H as ([dataOff o1] & _ & H).
  apply bind_Normal in H. destruct H as ([[first count'] o2] & Hfirst & H).
  apply bind_Normal in H. destruct H as (all & Hloop & H).
  injection H as <-. cbn [samples trun_flags] in *.
  apply trunLoop_samples in Hloop.
  destruct Hloop as (added & -> & Hlen & Hadded).
  assert (Hc : count = bigEndian32 p 4 /\ 0 <= count).
  { unfold getUint32 in Hcount. destruct (fits p 4 4); [|discriminate].
    injection Hcount as <-. split; [reflexivity | apply bigEndian32_nonneg]. }
  destruct Hc as [Hc Hc0].
  destruct (negb (JS.band (JS.int (get (subarray p 1 4) 2)) 4 =? 0)
            && negb (count =? 0)) eqn:Ef.
  - apply andb_prop in Ef. destruct Ef as [_ Hnz].
    apply negb_true_iff, Z.eqb_neq in Hnz.
    apply bind_Normal in Hfirst. destruct Hfirst as ([d o3] & Hd & Hfirst).
    apply bind_Normal in Hfirst. destruct Hfirst as ([s o4] & Hs & Hfirst).
    apply bind_Normal in Hfirst. destruct Hfirst as ([c o5] & Hcto & Hfirst).
    injection Hfirst as <- <- <-.
    cbn [app length]. rewrite Hlen. split; [lia|]. split.
    + constructor.
      * cbn [duration size compositionTimeOffset dts pts trackId].
        rewrite (optionalUint32_given _ _ _ _ _ Hd),
                (optionalUint32_given _ _ _ _ _ Hs),
                (optionalUint32_given _ _ _ _ _ Hcto).
        repeat split.
      * eapply Forall_impl; [|exact Hadded]. intros x [Hx _]. exact Hx.
    + intros k x Hk. cbn [nth_error] in Hk. apply nth_error_In in Hk.
      rewrite Forall_forall in Hadded. now destruct (Hadded _ Hk).
  - injection Hfirst as <- <- <-. cbn [app]. rewrite Hlen.
    split; [lia|]. split.
    + eapply Forall_impl; [|exact Hadded]. intros x [Hx _]. exact Hx.
    + intros k s Hk. apply nth_error_In in Hk.
      rewrite Forall_forall in Hadded. now destruct (Hadded _ Hk).
Qed.

Lemma parseTrun_samples_witness :
  exists info,
    parseTrun Fixture.trun = Normal info /\
    Z.of_nat (length (samples info)) = 2.
Proof.
  refine (let info :=
            ltac:(let v := eval vm_compute in (parseTrun Fixture.trun) in
                  match v with Normal ?i => exact i end) in _).
  assert (H : parseTrun Fixture.trun = Normal info)
    by (vm_compute; reflexivity).
  exists info. split; [exact H|].
  exact (proj1 (parseTrun_samples Fixture.trun info H)).
Defined.

(** ** [parseSampleFlags]: the bit fields *)

Lemma byte_cases (P : Z -> bool) :
  forallb P (map Z.of_nat (seq 0 256)) = true ->
  forall x, 0 <= x < 256 -> P x = true.
Proof.
  intros H x Hx. rewrite forallb_forall in H. apply H.
  apply in_map_iff. exists (Z.to_nat x). split; [lia|].
  apply in_seq. lia.
Qed.

Lemma byte_fields x :
  0 <= x < 256 ->
  JS.shr (JS.band x 12) 2 = (x / 4) mod 4 /\
  JS.band x 3 = x mod 4 /\
  JS.shr (JS.band x 192) 6 = (x / 64) mod 4 /\
  JS.shr (JS.band x 48) 4 = (x / 16) mod 4 /\
  JS.shr (JS.band x 14) 1 = (x / 2) mod 8 /\
  JS.band x 1 = x mod 2.
Proof.
  intros Hx.
  pose proof (byte_cases
    (fun x => (JS.shr (JS.band x 12) 2 =? (x / 4) mod 4)
              && (JS.band x 3 =? x mod 4)
              && (JS.shr (JS.band x 192) 6 =? (x / 64) mod 4)
              && (JS.shr (JS.band x 48) 4 =? (x / 16) mod 4)
              && (JS.shr (JS.band x 14) 1 =? (x / 2) mod 8)
              && (JS.band x 1 =? x mod 2))
    ltac:(vm_compute; reflexivity) x Hx) as H.
  cbv beta in H. rewrite !andb_true_iff, !Z.eqb_eq in H. tauto.
Qed.

(** X16. [parseSampleFlags] reads the fields of the 32-bit sample flags in
    their ISO BMFF positions: [isLeading] is bits 27-26 of the big-endian
    word, [dependsOn] bits 25-24, [isDependedOn] bits 23-22,
    [hasRedundancy] bits 21-20, [paddingValue] bits 19-17,
    [isNonSyncSample] bit 16 and [degradationPriority] the low 16 bits. *)
Theorem parseSampleFlags_fields (flags : Uint8Array) :
  let w := bigEndian32 flags 0 in
  let s := parseSampleFlags flags in
  isLeading s = (w / 2 ^ 26) mod 4 /\
  dependsOn s = (w / 2 ^ 24) mod 4 /\
  isDependedOn s = (w / 2 ^ 22) mod 4 /\
  hasRedundancy s = (w / 2 ^ 20) mod 4 /\
  paddingValue s = (w / 2 ^ 17) mod 8 /\
  isNonSyncSample s = (w / 2 ^ 16) mod 2 /\
  degradationPriority s = w mod 2 ^ 16.
Proof.
  intros w s. unfold s, parseSampleFlags, w, bigEndian32.
  cbn [isLeading dependsOn isDependedOn hasRedundancy paddingValue
       isNonSyncSample degradationPriority Z.add].
  pose proof (int_get_range flags 0) as H0.
  pose proof (int_get_range flags 1) as H1.
  pose proof (int_get_range flags 2) as H2.
  pose proof (int_get_range flags 3) as H3.
  set (f0 := JS.int (get flags 0)) in *.
  set (f1 := JS.int (get flags 1)) in *.
  set (f2 := JS.int (get flags 2)) in *.
  set (f3 := JS.int (get flags 3)) in *.
  destruct (byte_fields f0 H0) as (L0 & D0 & _).
  destruct (byte_fields f1 H1) as (_ & _ & I1 & R1 & P1 & N1).
  rewrite L0, D0, I1, R1, P1, N1.
  rewrite (shl_byte_8 f2 H2).
  replace (JS.bor (f2 * 256) f3) with (f2 * 256 + f3)
    by (symmetry; apply (bor_disjoint f2 f3 8); cbn; lia).
  change (2 ^ 26) with 67108864. change (2 ^ 24) with 16777216.
  change (2 ^ 22) with 4194304. change (2 ^ 20) with 1048576.
  change (2 ^ 17) with 131072. change (2 ^ 16) with 65536.
  change (2 ^ 8) with 256.
  repeat split; Z.div_mod_to_equations; lia.
Qed.

(** ** [offsetStartDTS]: what it leaves alone *)

Lemma fold_left_preserves {A B} (P : A -> Prop) (f : A -> B -> A) l :
  (forall a b, P a -> P (f a b)) -> forall a, P a -> P (fold_left f l a).
Proof.
  intros Hf. induction l as [|b l IH]; intros a Ha; [exact Ha|].
  cbn [fold_left]. apply IH, Hf, Ha.
Qed.

Lemma patchTfdt_length timeOffset timescale fmp4 tfdt :
  byteLength (patchTfdt timeOffset timescale fmp4 tfdt) = byteLength fmp4.
Proof.
  unfold patchTfdt. cbv zeta.
  destruct (isByte (versionOf (onto fmp4 tfdt)) 0).
  - now rewrite backing_writeUint32_length.
  - now rewrite !backing_writeUint32_length.
Qed.

(** X17. [offsetStartDTS] keeps the length of the segment, whatever it
    patches; and it leaves the segment as it is when [initData] has no
    track for any id. *)
Theorem offsetStartDTS_frame (initData : InitData) (fmp4 : Uint8Array)
    (timeOffset : Double.t) :
  byteLength (offsetStartDTS initData fmp4 timeOffset) = byteLength fmp4 /\
  ((forall id, initData id = None) ->
   offsetStartDTS initData fmp4 timeOffset = fmp4).
Proof.
  split.
  - unfold offsetStartDTS.
    apply (fold_left_preserves (fun a => byteLength a = byteLength fmp4));
      [|reflexivity].
    intros a traf Ha. unfold offsetTraf.
    apply (fold_left_preserves (fun a => byteLength a = byteLength fmp4));
      [|exact Ha].
    intros a' tfhd Ha'. unfold offsetTfhd. cbv zeta.
    destruct (initData _); [|exact Ha'].
    apply (fold_left_preserves (fun a => byteLength a = byteLength fmp4));
      [|exact Ha'].
    intros a'' tfdt Ha''. now rewrite patchTfdt_length.
  - intros Hnone. unfold offsetStartDTS.
    apply (fold_left_preserves (fun a => a = fmp4)); [|reflexivity].
    intros a traf ->. unfold offsetTraf.
    apply (fold_left_preserves (fun a => a = fmp4)); [|reflexivity].
    intros a tfhd ->. unfold offsetTfhd. cbv zeta. now rewrite Hnone.
Qed.

(** ** [parseSei] *)

Lemma skip255_run :
  forall q pre b post fuel sum,
    byteValue b <> 255 -> (q < fuel)%nat ->
    skip255 (pre ++ repeat xff q ++ b :: post) fuel
            (Z.of_nat (length pre)) sum
    = (Z.of_nat (length pre + q), sum + 255 * Z.of_nat q).
Proof.
  induction q as [|q IH]; intros pre b post fuel sum Hb Hf;
    (destruct fuel as [|fuel]; [lia|]); cbn [skip255 repeat app].
  - rewrite get_app_head. cbn [isByte].
    destruct (Z.eqb_spec (byteValue b) 255); [contradiction|].
    f_equal; lia.
  - rewrite get_app_head. change (byteValue xff) with 255.
    cbn [isByte]. rewrite Z.eqb_refl.
    replace (pre ++ xff :: repeat xff q ++ b :: post)
      with ((pre ++ [xff]) ++ repeat xff q ++ b :: post)
      by (rewrite <- app_assoc; reflexivity).
    replace (Z.of_nat (length pre) + 1)
      with (Z.of_nat (length (pre ++ [xff])))
      by (rewrite length_app; cbn [length]; lia).
    rewrite IH by (assumption || lia).
    rewrite length_app. cbn [length]. f_equal; lia.
Qed.

Lemma seiNumber_length n :
  length (seiNumber n) = S (Z.to_nat (n / 255)).
Proof.
  unfold seiNumber. rewrite length_app, repeat_length. cbn [length]. lia.
Qed.

Lemma seiNumber_last n : 0 <= n -> byteValue (byteOfZ (n mod 255)) = n mod 255.
Proof.
  intros H. rewrite byteValue_byteOfZ. apply Z.mod_small.
  pose proof (Z.mod_pos_bound n 255). lia.
Qed.

(** Reading a number back: the run of 0xFF bytes, then the last byte. *)
Lemma seiNumber_read n pre post fuel :
  0 <= n -> (Z.to_nat (n / 255) < fuel)%nat ->
  let bytes := pre ++ seiNumber n ++ post in
  let i := Z.of_nat (length pre + Z.to_nat (n / 255)) in
  skip255 bytes fuel (Z.of_nat (length pre)) 0 = (i, 255 * (n / 255)) /\
  get bytes i = Some (n mod 255) /\
  i + 1 = Z.of_nat (length (pre ++ seiNumber n)).
Proof.
  intros Hn Hf bytes i. unfold bytes, seiNumber.
  rewrite <- (app_assoc (repeat _ _)). cbn [app].
  assert (Hq : 0 <= n / 255) by (apply Z.div_pos; lia).
  pose proof (Z.mod_pos_bound n 255 ltac:(lia)) as Hr.
  split; [|split].
  - rewrite skip255_run by (rewrite ?seiNumber_last by exact Hn; lia).
    unfold i. f_equal. lia.
  - rewrite app_assoc.
    replace i with (Z.of_nat (length (pre ++ repeat xff (Z.to_nat (n / 255)))))
      by (unfold i; rewrite length_app, repeat_length; reflexivity).
    rewrite get_app_head. f_equal. apply seiNumber_last, Hn.
  - unfold i. rewrite !length_app, repeat_length. cbn [length]. lia.
Qed.

Lemma seiNumber_first n pre post :
  0 <= n ->
  get (pre ++ seiNumber n ++ post) (Z.of_nat (length pre))
  = Some (if n <? 255 then n else 255).
Proof.
  intros Hn. unfold seiNumber.
  destruct (Z.ltb_spec n 255) as [H|H].
  - rewrite Z.div_small by lia. cbn [Z.to_nat repeat app].
    rewrite get_app_head, seiNumber_last by exact Hn.
    f_equal. apply Z.mod_small. lia.
  - assert (1 <= n / 255) by (apply Z.div_le_lower_bound; lia).
    destruct (Z.to_nat (n / 255)) as [|q] eqn:E; [lia|].
    cbn [repeat app]. now rewrite get_app_head.
Qed.

Lemma parseSeiFrom_S bytes fuel i :
  parseSeiFrom bytes (S fuel) i =
  if i <? byteLength bytes then
    if isByte (get bytes i) 128 then noSei
    else
      let '(i, payloadType) := skip255 bytes (length bytes) i 0 in
      let payloadType := plusByte payloadType (get bytes i) in
      let i := i + 1 in
      let '(i, payloadSize) := skip255 bytes (length bytes) i 0 in
      let payloadSize := plusByte payloadSize (get bytes i) in
      let i := i + 1 in
      if match payloadType with Some t => t =? 4 | None => false end then
        mkSeiNalUnits payloadType payloadSize
          (Some (subarray bytes i
                   (match payloadSize with
                    | Some s => i + s
                    | None => 0
                    end)))
      else
        match payloadSize with
        | Some s => parseSeiFrom bytes fuel (i + s)
        | None => noSei
        end
  else noSei.
Proof. reflexivity. Qed.

(** One iteration of the loop at the start of a message. *)
Lemma parseSeiFrom_message t body pre post fuel :
  0 <= t -> t <> 128 ->
  let bytes := pre ++ seiMessage (t, body) ++ post in
  parseSeiFrom bytes (S fuel) (Z.of_nat (length pre)) =
  if t =? 4
  then mkSeiNalUnits (Some 4) (Some (byteLength body)) (Some body)
  else parseSeiFrom bytes fuel
         (Z.of_nat (length (pre ++ seiMessage (t, body)))).
Proof.
  intros Ht H128 bytes. rewrite parseSeiFrom_S.
  set (size := byteLength body).
  assert (Hsize : 0 <= size) by (unfold size, byteLength; lia).
  assert (Hbytes : bytes = pre ++ seiNumber t
                           ++ (seiNumber size ++ body ++ post)).
  { unfold bytes, seiMessage. cbn [fst snd]. fold size.
    now rewrite <- !app_assoc. }
  assert (Hbytes' : bytes = (pre ++ seiNumber t) ++ seiNumber size
                            ++ (body ++ post)).
  { rewrite Hbytes. now rewrite <- !app_assoc. }
  assert (Hlen : length bytes
                 = (length pre + length (seiNumber t)
                    + length (seiNumber size) + length body
                    + length post)%nat).
  { rewrite Hbytes. rewrite !length_app. lia. }
  pose proof (seiNumber_length t) as Lt.
  pose proof (seiNumber_length size) as Ls.
  destruct (Z.ltb_spec (Z.of_nat (length pre)) (byteLength bytes)) as [_|H];
    [|unfold byteLength in H; lia].
  assert (Hfirst : isByte (get bytes (Z.of_nat (length pre))) 128 = false).
  { rewrite Hbytes, seiNumber_first by exact Ht. cbn [isByte].
    destruct (Z.ltb_spec t 255); apply Z.eqb_neq; lia. }
  rewrite Hfirst.
  destruct (seiNumber_read t pre (seiNumber size ++ body ++ post)
              (length bytes) Ht ltac:(lia)) as (R1 & G1 & N1).
  rewrite <- Hbytes in R1, G1. rewrite R1. cbv beta iota zeta.
  rewrite G1, N1.
  destruct (seiNumber_read size (pre ++ seiNumber t) (body ++ post)
              (length bytes) Hsize ltac:(lia)) as (R2 & G2 & N2).
  rewrite <- Hbytes' in R2, G2. rewrite R2. cbv beta iota zeta.
  rewrite G2, N2.
  cbn [plusByte option_map].
  replace (255 * (t / 255) + t mod 255) with t
    by (rewrite <- Z.div_mod; lia).
  replace (255 * (size / 255) + size mod 255) with size
    by (rewrite <- Z.div_mod; lia).
  set (h := (pre ++ seiNumber t) ++ seiNumber size).
  assert (Hh : bytes = h ++ body ++ post).
  { rewrite Hbytes'. unfold h. now rewrite <- !app_assoc. }
  destruct (Z.eqb_spec t 4) as [->|Hne].
  - f_equal. f_equal. rewrite Hh.
    rewrite subarray_inside
      by (unfold size, byteLength; rewrite ?length_app; lia).
    rewrite Nat2Z.id, skipn_app, skipn_all, Nat.sub_diag.
    cbn [skipn app].
    replace (Z.to_nat (Z.of_nat (length h) + size - Z.of_nat (length h)))
      with (length body) by (unfold size, byteLength; lia).
    rewrite firstn_app, firstn_all, Nat.sub_diag. cbn [firstn].
    apply app_nil_r.
  - f_equal. unfold seiMessage. cbn [fst snd]. fold size.
    unfold h, size, byteLength. rewrite !length_app. lia.
Qed.

Lemma parseSeiFrom_skips :
  forall skipped pre tail fuel,
    Forall (fun m => 0 <= fst m /\ fst m <> 4 /\ fst m <> 128) skipped ->
    let bytes := pre ++ flat_map seiMessage skipped ++ tail in
    parseSeiFrom bytes (length skipped + fuel) (Z.of_nat (length pre)) =
    parseSeiFrom bytes fuel
      (Z.of_nat (length (pre ++ flat_map seiMessage skipped))).
Proof.
  induction skipped as [|[t body] skipped IH]; intros pre tail fuel Hok bytes.
  - cbn [flat_map length Nat.add]. now rewrite app_nil_r.
  - inversion Hok as [|m l (Ht & H4 & H128) Hrest]; subst.
    cbn [fst] in *. unfold bytes. cbn [flat_map length Nat.add].
    rewrite <- (app_assoc (seiMessage (t, body))).
    rewrite (parseSeiFrom_message t body pre _ _ Ht H128).
    destruct (Z.eqb_spec t 4); [contradiction|].
    rewrite (app_assoc pre (seiMessage (t, body))).
    rewrite (IH (pre ++ seiMessage (t, body)) tail fuel Hrest).
    now rewrite <- !app_assoc.
Qed.

Lemma seiMessages_length skipped :
  (length skipped <= length (flat_map seiMessage skipped))%nat.
Proof.
  induction skipped as [|m l IH]; [apply Nat.le_refl|].
  cbn [flat_map length]. rewrite length_app.
  assert (1 <= length (seiMessage m))%nat
    by (unfold seiMessage; rewrite length_app, seiNumber_length; lia).
  lia.
Qed.

(** X18. In a run of SEI messages whose payload types are neither 4 nor
    128, whatever the lengths of the numbers in their headers, [parseSei]
    skips every message; it returns the size and the payload of a message
    of type 4 that follows the run; it returns no payload when a
    trailing-bits byte (128) follows, or a message of type 128, whose
    first byte is that byte, even if a message of type 4 comes after it,
    or when the input ends. *)
Theorem parseSei_first_caption (skipped : list (Z * Uint8Array))
    (body rest : Uint8Array) :
  Forall (fun m => 0 <= fst m /\ fst m <> 4 /\ fst m <> 128) skipped ->
  parseSei (flat_map seiMessage skipped ++ seiMessage (4, body) ++ rest)
  = mkSeiNalUnits (Some 4) (Some (byteLength body)) (Some body) /\
  parseSei (flat_map seiMessage skipped ++ x80 :: rest) = noSei /\
  parseSei (flat_map seiMessage skipped ++ seiMessage (128, body) ++ rest)
  = noSei /\
  parseSei (flat_map seiMessage skipped) = noSei.
Proof.
  intros Hok. pose proof (seiMessages_length skipped) as Hl.
  assert (Htrailing : forall tail,
             parseSei (flat_map seiMessage skipped ++ x80 :: tail) = noSei).
  { intros tail. unfold parseSei.
    set (bytes := flat_map seiMessage skipped ++ x80 :: tail).
    assert (Hlen : exists fuel,
               length bytes = (length skipped + S fuel)%nat).
    { exists (length bytes - length skipped - 1)%nat. unfold bytes.
      rewrite !length_app. cbn [length]. lia. }
    destruct Hlen as (fuel & Hlen). rewrite Hlen.
    pose proof (parseSeiFrom_skips skipped [] (x80 :: tail) (S fuel) Hok)
      as H.
    cbn [app length] in H. fold bytes in H.
    change (Z.of_nat 0) with 0 in H. rewrite H.
    rewrite parseSeiFrom_S. unfold bytes at 2. rewrite get_app_head.
    destruct (_ <? _); reflexivity. }
  split; [|split; [|split]].
  - unfold parseSei.
    set (bytes := flat_map seiMessage skipped ++ seiMessage (4, body) ++ rest).
    assert (Hlen : exists fuel,
               length bytes = (length skipped + S fuel)%nat).
    { exists (length bytes - length skipped - 1)%nat. unfold bytes.
      rewrite !length_app.
      assert (1 <= length (seiMessage (4%Z, body)))%nat
        by (unfold seiMessage; rewrite length_app, seiNumber_length; lia).
      lia. }
    destruct Hlen as (fuel & ->).
    pose proof (parseSeiFrom_skips skipped [] (seiMessage (4, body) ++ rest)
                  (S fuel) Hok) as H.
    cbn [app length] in H. fold bytes in H.
    change (Z.of_nat 0) with 0 in H. rewrite H.
    pose proof (parseSeiFrom_message 4 body (flat_map seiMessage skipped)
                  rest fuel ltac:(lia) ltac:(lia)) as H4.
    cbv zeta in H4. fold bytes in H4. rewrite H4. reflexivity.
  - apply Htrailing.
  - change (seiMessage (128, body) ++ rest)
      with (x80 :: (seiNumber (byteLength body) ++ body) ++ rest).
    apply Htrailing.
  - unfold parseSei. set (bytes := flat_map seiMessage skipped).
    replace (length bytes) with (length skipped
                                 + (length bytes - length skipped))%nat
      by (unfold bytes; lia).
    pose proof (parseSeiFrom_skips skipped [] []
                  (length bytes - length skipped) Hok) as H.
    cbn [app length] in H. rewrite app_nil_r in H. fold bytes in H.
    change (Z.of_nat 0) with 0 in H. rewrite H.
    destruct (length bytes - length skipped)%nat; [reflexivity|].
    rewrite parseSeiFrom_S.
    destruct (Z.ltb_spec (Z.of_nat (length bytes)) (byteLength bytes));
      [unfold byteLength in *; lia | reflexivity].
Qed.

Lemma parseSei_first_caption_witness :
  parseSei (flat_map seiMessage [(5, [x01; x02]); (300, [x07])]
            ++ seiMessage (4, [xb5; x00; x31]) ++ [x80])
  = mkSeiNalUnits (Some 4) (Some 3) (Some [xb5; x00; x31]).
Proof.
  refine (proj1 (parseSei_first_caption
                   [(5, [x01; x02]); (300, [x07])] [xb5; x00; x31] [x80] _)).
  repeat constructor; cbn [fst]; lia.
Defined.

(** ** [findBox] on a run of well-formed boxes *)

Lemma length_list_byte_of_string s :
  length (list_byte_of_string s) = String.length s.
Proof.
  unfold list_byte_of_string. rewrite length_map.
  induction s as [|c s IH]; [reflexivity|]. cbn. now rewrite IH.
Qed.

Lemma subarray_app_mid p m q :
  subarray (p ++ m ++ q) (Z.of_nat (length p))
           (Z.of_nat (length p) + Z.of_nat (length m)) = m.
Proof.
  rewrite subarray_inside
    by (unfold byteLength; rewrite ?length_app; lia).
  rewrite Nat2Z.id, skipn_app, skipn_all, Nat.sub_diag. cbn [skipn app].
  replace (Z.to_nat (Z.of_nat (length p) + Z.of_nat (length m)
                     - Z.of_nat (length p)))
    with (length m) by lia.
  rewrite firstn_app, firstn_all, Nat.sub_diag. cbn [firstn].
  apply app_nil_r.
Qed.

Lemma int_get_app pre suffix k :
  JS.int (get (pre ++ suffix) (Z.of_nat (length pre) + Z.of_nat k)) =
  match nth_error suffix k with Some b => byteValue b | None => 0 end.
Proof.
  rewrite <- Nat2Z.inj_add, get_app_offset.
  now destruct (nth_error suffix k).
Qed.

Lemma bigEndian32_u32 pre z post :
  0 <= z < 2 ^ 32 ->
  bigEndian32 (pre ++ Fixture.u32 z ++ post) (Z.of_nat (length pre)) = z.
Proof.
  intros Hz. unfold bigEndian32.
  rewrite <- (Z.add_0_r (Z.of_nat (length pre))) at 1.
  change 0 with (Z.of_nat 0) at 1. change 1 with (Z.of_nat 1) at 1.
  change 2 with (Z.of_nat 2) at 1. change 3 with (Z.of_nat 3) at 1.
  rewrite !int_get_app. unfold Fixture.u32. cbn [app nth_error].
  rewrite !byteValue_byteOfZ. change (2 ^ 32) with 4294967296 in Hz.
  Z.div_mod_to_equations. lia.
Qed.

Section BoxRun.

Variable name : string.

Let encode (b : string * Uint8Array) : Uint8Array :=
  Fixture.box (fst b) (snd b).

Let wellFormed (b : string * Uint8Array) : Prop :=
  String.length (fst b) = 4%nat /\ 8 + byteLength (snd b) < 2 ^ 32.

Let payloadOf (v : Mp4BoxData) : Uint8Array :=
  subarray (data v) (start v) (end_ v).

Lemma encode_split n p :
  encode (n, p) = Fixture.u32 (8 + byteLength p)
                  ++ list_byte_of_string n ++ p.
Proof. reflexivity. Qed.

Lemma encode_length n p :
  String.length n = 4%nat -> length (encode (n, p)) = (8 + length p)%nat.
Proof.
  intros Hn. rewrite encode_split, !length_app.
  rewrite length_list_byte_of_string, Hn. reflexivity.
Qed.

Lemma findBox_boxes_run :
  forall boxes pre,
    Forall wellFormed boxes ->
    let a := pre ++ flat_map encode boxes in
    map payloadOf
        (findBox (View (mkBox a (Z.of_nat (length pre)) (byteLength a)))
                 [name])
    = map snd (filter (fun b => String.eqb (fst b) name) boxes).
Proof.
  induction boxes as [|[n p] boxes IH]; intros pre Hwf a.
  - unfold a. cbn [flat_map]. rewrite app_nil_r.
    rewrite findBox_done by (unfold byteLength; lia). reflexivity.
  - inversion Hwf as [|b l [Hn Hp] Hrest]; subst. cbn [fst snd] in Hn, Hp.
    set (i := Z.of_nat (length pre)).
    assert (Ha : a = pre ++ Fixture.u32 (8 + byteLength p)
                     ++ (list_byte_of_string n ++ p
                         ++ flat_map encode boxes)).
    { unfold a. cbn [flat_map]. rewrite encode_split.
      now rewrite <- !app_assoc. }
    assert (Hlen : byteLength a
                   = i + 8 + byteLength p
                     + Z.of_nat (length (flat_map encode boxes))).
    { unfold a, byteLength, i. cbn [flat_map].
      rewrite !length_app, encode_length by exact Hn. lia. }
    assert (Hpl : 0 <= byteLength p) by (unfold byteLength; lia).
    assert (Hsize : readUint32 (Raw a) i = 8 + byteLength p).
    { rewrite readUint32_bigEndian. cbn [backing absolute].
      rewrite Ha. apply bigEndian32_u32. lia. }
    assert (Hend : boxEnd a (byteLength a) i = i + 8 + byteLength p).
    { unfold boxEnd. rewrite Hsize.
      destruct (Z.gtb_spec (8 + byteLength p) 1); lia. }
    assert (Htype : boxType a i = n).
    { unfold boxType.
      replace a with ((pre ++ Fixture.u32 (8 + byteLength p))
                      ++ list_byte_of_string n
                      ++ (p ++ flat_map encode boxes))
        by (rewrite Ha; now rewrite <- !app_assoc).
      replace (i + 4)
        with (Z.of_nat (length (pre ++ Fixture.u32 (8 + byteLength p))))
        by (rewrite length_app; unfold i; cbn [length Fixture.u32]; lia).
      replace (i + 8)
        with (Z.of_nat (length (pre ++ Fixture.u32 (8 + byteLength p)))
              + Z.of_nat (length (list_byte_of_string n)))
        by (rewrite length_app, length_list_byte_of_string, Hn;
            unfold i; cbn [length Fixture.u32]; lia).
      rewrite subarray_app_mid. apply string_of_list_byte_of_string. }
    assert (Hpayload : subarray a (i + 8) (i + 8 + byteLength p) = p).
    { replace a with ((pre ++ Fixture.u32 (8 + byteLength p)
                       ++ list_byte_of_string n)
                      ++ p ++ flat_map encode boxes)
        by (rewrite Ha; now rewrite <- !app_assoc).
      replace (i + 8)
        with (Z.of_nat (length (pre ++ Fixture.u32 (8 + byteLength p)
                                ++ list_byte_of_string n)))
        by (rewrite !length_app, length_list_byte_of_string, Hn;
            unfold i; cbn [length Fixture.u32]; lia).
      apply subarray_app_mid. }
    rewrite findBox_step by lia.
    rewrite Hend, Htype, map_app. cbn [filter fst].
    assert (Hnext :
              map payloadOf
                  (findBox (View (mkBox a (i + 8 + byteLength p)
                                        (byteLength a))) [name])
              = map snd (filter (fun b => String.eqb (fst b) name) boxes)).
    { pose proof (IH (pre ++ encode (n, p)) Hrest) as H.
      cbv zeta in H.
      replace ((pre ++ encode (n, p)) ++ flat_map encode boxes) with a in H
        by (unfold a; cbn [flat_map]; now rewrite <- app_assoc).
      replace (Z.of_nat (length (pre ++ encode (n, p))))
        with (i + 8 + byteLength p) in H
        by (rewrite length_app, encode_length by exact Hn;
            unfold i, byteLength; lia).
      exact H. }
    rewrite Hnext.
    destruct (String.eqb n name); [|reflexivity].
    cbn [matched map app snd]. f_equal.
    unfold payloadOf. cbn [data start end_]. rewrite Hend. exact Hpayload.
Qed.

End BoxRun.

(** X19. On a buffer made of well-formed boxes one after the other (each
    with its size in the first four bytes, a four-character type and its
    payload), [findBox] with a one-name path returns the payloads of
    exactly the boxes of that type, in buffer order. *)
Theorem findBox_finds_all (boxes : list (string * Uint8Array))
    (name : string) :
  Forall (fun b => String.length (fst b) = 4%nat /\
                   8 + byteLength (snd b) < 2 ^ 32) boxes ->
  map (fun v => subarray (data v) (start v) (end_ v))
      (findBox (Raw (flat_map (fun b => Fixture.box (fst b) (snd b)) boxes))
               [name])
  = map snd (filter (fun b => String.eqb (fst b) name) boxes).
Proof.
  intros Hwf. rewrite findBox_raw.
  exact (findBox_boxes_run name boxes [] Hwf).
Qed.

Lemma findBox_finds_all_witness :
  map (fun v => subarray (data v) (start v) (end_ v))
      (findBox (Raw (flat_map (fun b => Fixture.box (fst b) (snd b))
                       [("moof"%string, [x01]); ("mdat"%string, [x02; x03]);
                        ("moof"%string, [])]))
               ["moof"%string])
  = [[x01]; []].
Proof.
  apply (findBox_finds_all
           [("moof"%string, [x01]); ("mdat"%string, [x02; x03]);
            ("moof"%string, [])] "moof").
  repeat constructor.
Defined.

(** ** [parseInitSegment] *)

Lemma fold_left_seen {A B} (P : list B -> A -> Prop) (f : A -> B -> A) :
  forall l a,
    P [] a ->
    (forall seen a x, P seen a -> P (seen ++ [x]) (f a x)) ->
    P l (fold_left f l a).
Proof.
  intros l a H0 Hstep.
  assert (H : forall l seen a, P seen a -> P (seen ++ l) (fold_left f l a)).
  { clear l a H0. induction l as [|x l IH]; intros seen a Ha.
    - now rewrite app_nil_r.
    - cbn [fold_left].
      replace (seen ++ x :: l) with ((seen ++ [x]) ++ l)
        by (now rewrite <- app_assoc).
      apply IH, Hstep, Ha. }
  apply (H l [] a H0).
Qed.

Section InitSegmentFacts.

(** What holds of the result at every point of the two loops: an entry
    has a 32-bit timescale and the named track of its type is there, and a
    named track has an entry under its id. *)
Let consistent (r : InitSegment) : Prop :=
  (forall id track,
      tracks r id = Some track ->
      (exists t, timescale track = Some t /\ 0 <= t < 2 ^ 32) /\
      match type track with
      | AUDIO => audio r <> None
      | VIDEO => video r <> None
      end) /\
  (forall named,
      audio r = Some named \/ video r = Some named ->
      tracks r (idt_id named) <> None).

Lemma addTrak_consistent r trak : consistent r -> consistent (addTrak r trak).
Proof.
  intros Hr. unfold addTrak.
  destruct (hd_error (findBox (View trak) ["tkhd"%string])) as [tkhd|];
    [|exact Hr].
  destruct (hd_error (findBox (View trak) ["mdia"; "mdhd"]%string))
    as [mdhd|]; [|exact Hr].
  destruct (hd_error (findBox (View trak) ["mdia"; "hdlr"]%string))
    as [hdlr|]; [|exact Hr].
  destruct (hdlrTypeOf _) as [ty|]; [|exact Hr].
  cbv zeta.
  set (trackId := readUint32 (View tkhd) (versionedIndex tkhd)).
  set (ts := readUint32 (View mdhd) (versionedIndex mdhd)).
  assert (Hts : 0 <= ts < 2 ^ 32) by apply readUint32_range.
  destruct Hr as [Htracks Hnamed].
  destruct ty; split; cbn [tracks audio video]; unfold setTrack.
  - intros id track. destruct (id =? trackId).
    + intros [= <-]. cbn [timescale type]. split; [eauto | discriminate].
    + intros H. destruct (Htracks id track H) as [H1 H2]. split; [exact H1|].
      destruct (type track); [discriminate | exact H2].
  - intros named [[= <-]|H]; cbn [idt_id].
    + rewrite Z.eqb_refl. discriminate.
    + destruct (idt_id named =? trackId); [discriminate|].
      apply Hnamed. now right.
  - intros id track. destruct (id =? trackId).
    + intros [= <-]. cbn [timescale type]. split; [eauto | discriminate].
    + intros H. destruct (Htracks id track H) as [H1 H2]. split; [exact H1|].
      destruct (type track); [exact H2 | discriminate].
  - intros named [H|[= <-]]; cbn [idt_id].
    + destruct (idt_id named =? trackId); [discriminate|].
      apply Hnamed. now left.
    + rewrite Z.eqb_refl. discriminate.
Qed.

Lemma addTrex_consistent r trex : consistent r -> consistent (addTrex r trex).
Proof.
  intros Hr. unfold addTrex. cbv zeta.
  destruct (tracks r (readUint32 (View trex) 4)) as [track|] eqn:E;
    [|exact Hr].
  destruct Hr as [Htracks Hnamed].
  split; cbn [tracks audio video]; unfold setTrack.
  - intros id track'.
    destruct (id =? readUint32 (View trex) 4); [|apply Htracks].
    intros [= <-]. cbn [timescale type]. apply (Htracks _ _ E).
  - intros named H.
    destruct (idt_id named =? readUint32 (View trex) 4); [discriminate|].
    now apply Hnamed.
Qed.

Lemma addTrak_no_default r trak :
  (forall id track, tracks r id = Some track -> default track = None) ->
  forall id track,
    tracks (addTrak r trak) id = Some track -> default track = None.
Proof.
  intros Hr id track. unfold addTrak.
  destruct (hd_error (findBox (View trak) ["tkhd"%string])) as [tkhd|];
    [|apply Hr].
  destruct (hd_error (findBox (View trak) ["mdia"; "mdhd"]%string))
    as [mdhd|]; [|apply Hr].
  destruct (hd_error (findBox (View trak) ["mdia"; "hdlr"]%string))
    as [hdlr|]; [|apply Hr].
  destruct (hdlrTypeOf _) as [ty|]; [|apply Hr].
  cbv zeta.
  destruct ty; cbn [tracks]; unfold setTrack;
    (destruct (id =? _); [intros [= <-]; reflexivity | apply Hr]).
Qed.

End InitSegmentFacts.

(** X20. The table [parseInitSegment] returns is consistent: every entry
    [result[id]] has a 32-bit timescale and a type whose named track
    ([result.audio] or [result.video]) is present; a named track has an
    entry under its id; an entry has defaults only when a [trex] box of
    the segment names its id, and then they are the two words at offsets
    12 and 20 of such a box.  With no [trak] under [moov] the table is
    empty. *)
Theorem parseInitSegment_consistent (initSegment : Uint8Array) :
  let r := parseInitSegment initSegment in
  (forall id track,
      tracks r id = Some track ->
      (exists t, timescale track = Some t /\ 0 <= t < 2 ^ 32) /\
      match type track with
      | AUDIO => audio r <> None
      | VIDEO => video r <> None
      end) /\
  (forall named,
      audio r = Some named \/ video r = Some named ->
      tracks r (idt_id named) <> None) /\
  (forall id track d,
      tracks r id = Some track -> default track = Some d ->
      exists trex,
        In trex (findBox (Raw initSegment) ["moov"; "mvex"; "trex"]%string) /\
        readUint32 (View trex) 4 = id /\
        d = mkTrackDefault (readUint32 (View trex) 12)
                           (readUint32 (View trex) 20)) /\
  (findBox (Raw initSegment) ["moov"; "trak"]%string = [] ->
   (forall id, tracks r id = None) /\ audio r = None /\ video r = None).
Proof.
  intros r. unfold r, parseInitSegment. cbv zeta.
  set (traks := findBox (Raw initSegment) ["moov"; "trak"]%string).
  set (trexes := findBox (Raw initSegment) ["moov"; "mvex"; "trex"]%string).
  set (empty := mkInitSegment (fun _ => None) None None).
  set (r1 := fold_left addTrak traks empty).
  assert (H1 : (forall id track,
                   tracks r1 id = Some track ->
                   (exists t, timescale track = Some t /\ 0 <= t < 2 ^ 32) /\
                   match type track with
                   | AUDIO => audio r1 <> None
                   | VIDEO => video r1 <> None
                   end) /\
               (forall named,
                   audio r1 = Some named \/ video r1 = Some named ->
                   tracks r1 (idt_id named) <> None)).
  { unfold r1. apply fold_left_preserves.
    - intros a b. apply addTrak_consistent.
    - split; cbn [tracks audio video empty].
      + discriminate.
      + intros named [H|H]; discriminate. }
  assert (H2 : forall id track,
             tracks r1 id = Some track -> default track = None).
  { unfold r1. apply fold_left_preserves.
    - intros a b. apply addTrak_no_default.
    - cbn [tracks empty]. discriminate. }
  split; [|split; [|split]].
  - apply (fold_left_preserves _ addTrex trexes
             (fun a b => addTrex_consistent a b) r1 H1).
  - apply (fold_left_preserves _ addTrex trexes
             (fun a b => addTrex_consistent a b) r1 H1).
  - apply (fold_left_seen
             (fun seen a =>
                forall id track d,
                  tracks a id = Some track -> default track = Some d ->
                  exists trex,
                    In trex seen /\ readUint32 (View trex) 4 = id /\
                    d = mkTrackDefault (readUint32 (View trex) 12)
                                       (readUint32 (View trex) 20))).
    + intros id track d Ht Hd. rewrite (H2 id track Ht) in Hd. discriminate.
    + intros seen a x IH id track d. unfold addTrex. cbv zeta.
      destruct (tracks a (readUint32 (View x) 4)) as [t|] eqn:E.
      * cbn [tracks]. unfold setTrack.
        destruct (Z.eqb_spec id (readUint32 (View x) 4)) as [->|Hne].
        -- intros [= <-]. cbn [default]. intros [= <-].
           exists x. split; [apply in_or_app; right; now left|]. now split.
        -- intros Ht Hd. destruct (IH id track d Ht Hd) as (y & Hy & Hrest).
           exists y. split; [apply in_or_app; now left | exact Hrest].
      * intros Ht Hd. destruct (IH id track d Ht Hd) as (y & Hy & Hrest).
        exists y. split; [apply in_or_app; now left | exact Hrest].
  - intros Hnone.
    assert (Hr1 : r1 = empty) by (unfold r1; now rewrite Hnone).
    rewrite Hr1.
    apply (fold_left_preserves
             (fun a => (forall id, tracks a id = None) /\
                       audio a = None /\ video a = None)).
    + intros a x (Ha & Hau & Hvi). unfold addTrex. cbv zeta.
      rewrite Ha. auto.
    + cbn. auto.
Qed.

(** ** [getDuration] *)

Lemma reduceM_throws {A S} (f : S -> A -> completion S) (bad : A -> Prop) :
  (forall s x, bad x -> f s x = Throw TypeError) ->
  (forall s x, ~ bad x -> exists s', f s x = Normal s') ->
  (forall x, bad x \/ ~ bad x) ->
  forall l s,
    (Exists bad l -> reduceM f l s = Throw TypeError) /\
    (~ Exists bad l -> exists s', reduceM f l s = Normal s').
Proof.
  intros Hbad Hgood Hdec. induction l as [|x l IH]; intros s.
  - split; [intros H; inversion H | intros _; now exists s].
  - cbn [reduceM]. destruct (Hdec x) as [Hx|Hx].
    + rewrite (Hbad s x Hx). cbn [bind]. split; [reflexivity|].
      intros H. exfalso. apply H. now left.
    + destruct (Hgood s x Hx) as (s' & ->). cbn [bind].
      destruct (IH s') as [IH1 IH2]. split.
      * intros H. inversion H; subst; [contradiction | now apply IH1].
      * intros H. apply IH2. intros H'. apply H. now right.
Qed.

(** X21. [getDuration] throws a [TypeError] exactly when some [traf] of
    the segment has no [tfhd] box (whether or not the tracks are known),
    and returns a number otherwise. *)
Theorem getDuration_throws_without_tfhd (data : Uint8Array)
    (initData : InitData) :
  let trafs := findBox (Raw data) ["moof"; "traf"]%string in
  let bare traf := findBox (View traf) ["tfhd"%string] = [] in
  (Exists bare trafs -> getDuration data initData = Throw TypeError) /\
  (~ Exists bare trafs -> exists d, getDuration data initData = Normal d).
Proof.
  intros trafs bare.
  destruct (reduceM_throws (addTraf initData) bare) with (l := trafs)
                                                         (s := (0%Q, 0%Q))
    as [Hthrow Hnormal].
  - intros s x Hx. unfold addTraf. unfold bare in Hx. now rewrite Hx.
  - intros s x Hx. unfold addTraf, bare in *.
    destruct (findBox (View x) ["tfhd"%string]) as [|tfhd rest];
      [contradiction|].
    cbn [hd_error]. cbv zeta. destruct (initData _); eauto.
  - intros x. unfold bare. destruct (findBox (View x) ["tfhd"%string]);
      [now left | right; discriminate].
  - split.
    + intros H. unfold getDuration. cbv zeta. fold trafs.
      now rewrite (Hthrow H).
    + intros H. destruct (Hnormal H) as ([v a] & Hs).
      unfold getDuration. cbv zeta. fold trafs. rewrite Hs. cbn [bind].
      destruct (Qeq_bool v 0 && Qeq_bool a 0);
        [destruct (parseSegmentIndex data)|];
        try destruct (negb (Qeq_bool v 0)); eauto.
Qed.

(** A fragment of the video track 1 whose [trun] gives two samples of
    1000 ticks each, at 90 kHz; and the same [traf] without its [tfhd]. *)
Example getDuration_run :
  getDuration
    (Fixture.box "moof"
       (Fixture.box "traf"
          (Fixture.box "tfhd" (Fixture.u32 0 ++ Fixture.u32 1)
           ++ Fixture.trunBytes)))
    Fixture.initData
  = Normal (Finite (0 + 2000 / 90000)%Q) /\
  getDuration
    (Fixture.box "moof" (Fixture.box "traf" Fixture.trunBytes))
    Fixture.initData
  = Throw TypeError.
Proof. split; vm_compute; reflexivity. Qed.

(** An init segment with one video track, id 1, at 90 kHz, and a [trex]
    that gives it a default duration of 3000 and default flags 0. *)
Example parseInitSegment_run :
  let init :=
    Fixture.box "moov"
      (Fixture.box "trak"
         (Fixture.box "tkhd" (repeat x00 12 ++ Fixture.u32 1)
          ++ Fixture.box "mdia"
               (Fixture.box "mdhd" (repeat x00 12 ++ Fixture.u32 90000)
                ++ Fixture.box "hdlr"
                     (repeat x00 8 ++ list_byte_of_string "vide")))
       ++ Fixture.box "mvex"
            (Fixture.box "trex"
               (repeat x00 4 ++ Fixture.u32 1 ++ Fixture.u32 1
                ++ Fixture.u32 3000 ++ Fixture.u32 0 ++ Fixture.u32 0))) in
  let r := parseInitSegment init in
  tracks r 1 = Some (mkTrack (Some 90000) VIDEO
                             (Some (mkTrackDefault 3000 0))) /\
  tracks r 2 = None /\
  video r = Some (mkInitDataTrack 90000 1 None) /\
  audio r = None.
Proof. vm_compute. repeat split. Qed.

(** ** [parseId3TrackSamples]: decoding what [id3Emsg] encodes *)

Lemma untilZero_terminated l post :
  forallb (fun b => negb (byteValue b =? 0)) l = true ->
  untilZero (l ++ x00 :: post) = l.
Proof.
  induction l as [|b l IH]; intros H.
  - reflexivity.
  - cbn [forallb] in H. apply andb_prop in H. destruct H as [Hb Hl].
    cbn [app untilZero]. apply negb_true_iff in Hb. rewrite Hb.
    now rewrite IH.
Qed.

Lemma readNullTerminatedString_terminated pre s post :
  noNul s = true ->
  readNullTerminatedString (pre ++ list_byte_of_string s ++ x00 :: post)
                           (Z.of_nat (length pre)) = s.
Proof.
  intros H. rewrite readNullTerminatedString_spec.
  destruct (Z.leb_spec 0 (Z.of_nat (length pre))); [|lia].
  rewrite Nat2Z.id, skipn_app, skipn_all, Nat.sub_diag. cbn [skipn app].
  rewrite untilZero_terminated by exact H.
  apply string_of_list_byte_of_string.
Qed.

Lemma subarray_whole a : subarray a 0 (byteLength a) = a.
Proof.
  rewrite subarray_prefix by (unfold byteLength; lia).
  unfold byteLength. rewrite Nat2Z.id. apply firstn_all.
Qed.

Lemma schemes_noNul uri : In uri ID3_SCHEME_ID_URIS -> noNul uri = true.
Proof.
  intros [<-|[<-|[]]]; vm_compute; reflexivity.
Qed.

Lemma emsgEntry_payload emsg :
  emsgEntry emsg =
  emsgEntry (let p := subarray (data emsg) (start emsg) (end_ emsg) in
             mkBox p 0 (byteLength p)).
Proof.
  unfold emsgEntry. cbn [data start end_]. cbv zeta.
  now rewrite subarray_whole.
Qed.

Lemma emsgEntry_id3Emsg sample :
  id3Encodable sample ->
  emsgEntry (mkBox (id3Emsg sample) 0 (byteLength (id3Emsg sample)))
  = Some sample.
Proof.
  intros (Hts & Hpts & Hdts & Hdur & Hid & Huri & Hval & _).
  destruct sample as [ts pts dts dur id uri value payload].
  cbn [id3_timescale id3_pts id3_dts id3_duration id3_id schemeIdUri
       id3_value id3_data] in *. subst dts.
  unfold emsgEntry. cbn [data start end_]. cbv zeta.
  rewrite subarray_whole.
  set (d := match dur with Some d => d | None => 4294967295 end).
  assert (Hd : 0 <= d < 2 ^ 32) by (unfold d; destruct dur; lia).
  set (h4 := [x01; x00; x00; x00]).
  set (p := id3Emsg _).
  set (uriBytes := list_byte_of_string uri).
  set (valueBytes := list_byte_of_string value).
  set (h24 := h4 ++ Fixture.u32 ts ++ Fixture.u32 (pts / 2 ^ 32)
              ++ Fixture.u32 (pts mod 2 ^ 32) ++ Fixture.u32 d
              ++ Fixture.u32 id).
  assert (Hp : p = h24 ++ uriBytes ++ x00 :: valueBytes ++ x00 :: payload)
    by reflexivity.
  assert (Huri' : readNullTerminatedString p 24 = uri).
  { rewrite Hp. apply (readNullTerminatedString_terminated h24 uri).
    now apply schemes_noNul. }
  rewrite Huri'.
  assert (Hat : 24 + (stringLength uri + 1)
                = Z.of_nat (length (h24 ++ uriBytes ++ [x00]))).
  { rewrite !length_app. unfold uriBytes, stringLength.
    rewrite length_list_byte_of_string.
    change (length h24) with 24%nat. cbn [length]. lia. }
  assert (Hvalue : readNullTerminatedString p (24 + (stringLength uri + 1))
                   = value).
  { rewrite Hat.
    replace p with ((h24 ++ uriBytes ++ [x00])
                    ++ valueBytes ++ x00 :: payload)
      by (rewrite Hp, <- !app_assoc; reflexivity).
    now apply readNullTerminatedString_terminated. }
  rewrite Hvalue.
  assert (Hdata : subarray p (24 + (stringLength uri + 1)
                              + (stringLength value + 1)) (byteLength p)
                  = payload).
  { replace p with ((h24 ++ uriBytes ++ x00 :: valueBytes ++ [x00])
                    ++ payload)
      by (rewrite Hp, <- !app_assoc; cbn [app]; rewrite <- !app_assoc;
          reflexivity).
    set (h := h24 ++ uriBytes ++ x00 :: valueBytes ++ [x00]).
    assert (Hh : 24 + (stringLength uri + 1) + (stringLength value + 1)
                 = Z.of_nat (length h)).
    { unfold h. rewrite !length_app. cbn [length]. rewrite length_app.
      unfold uriBytes, valueBytes, stringLength.
      rewrite !length_list_byte_of_string.
      change (length h24) with 24%nat. cbn [length]. lia. }
    rewrite Hh, subarray_suffix
      by (unfold byteLength; rewrite length_app; lia).
    rewrite Nat2Z.id, skipn_app, skipn_all, Nat.sub_diag. reflexivity. }
  rewrite Hdata.
  assert (H0 : get p 0 = Some 1) by apply (get_app_head [] x01).
  assert (H24 : (24 <=? byteLength p) = true).
  { apply Z.leb_le. rewrite Hp. unfold byteLength. rewrite length_app.
    change (length h24) with 24%nat. lia. }
  assert (Hex : existsb (String.eqb uri) ID3_SCHEME_ID_URIS = true).
  { apply existsb_exists. exists uri. split; [exact Huri|].
    apply String.eqb_refl. }
  rewrite H0, H24, Hex. cbn [isByte Z.eqb Pos.eqb andb].
  assert (Hmod : 0 <= pts mod 2 ^ 32 < 2 ^ 32)
    by (apply Z.mod_pos_bound; lia).
  assert (Hdiv : 0 <= pts / 2 ^ 32 < 2 ^ 32).
  { split; [apply Z.div_pos; lia|].
    apply Z.div_lt_upper_bound; [lia|].
    change (2 ^ 32 * 2 ^ 32) with (2 ^ 64).
    assert (2 ^ 53 < 2 ^ 64) by reflexivity. lia. }
  assert (B4 : bigEndian32 p 4 = ts)
    by (apply (bigEndian32_u32 h4 ts _ Hts)).
  assert (B8 : bigEndian32 p 8 = pts / 2 ^ 32)
    by (apply (bigEndian32_u32 (h4 ++ Fixture.u32 ts) _ _ Hdiv)).
  assert (B12 : bigEndian32 p 12 = pts mod 2 ^ 32).
  { replace p with ((h4 ++ Fixture.u32 ts ++ Fixture.u32 (pts / 2 ^ 32))
                    ++ Fixture.u32 (pts mod 2 ^ 32)
                    ++ Fixture.u32 d ++ Fixture.u32 id ++ uriBytes
                    ++ [x00] ++ valueBytes ++ [x00] ++ payload)
      by reflexivity.
    apply (bigEndian32_u32
             (h4 ++ Fixture.u32 ts ++ Fixture.u32 (pts / 2 ^ 32)) _ _ Hmod). }
  assert (B16 : bigEndian32 p 16 = d).
  { replace p with ((h4 ++ Fixture.u32 ts ++ Fixture.u32 (pts / 2 ^ 32)
                     ++ Fixture.u32 (pts mod 2 ^ 32))
                    ++ Fixture.u32 d ++ Fixture.u32 id ++ uriBytes
                    ++ [x00] ++ valueBytes ++ [x00] ++ payload)
      by reflexivity.
    apply (bigEndian32_u32
             (h4 ++ Fixture.u32 ts ++ Fixture.u32 (pts / 2 ^ 32)
              ++ Fixture.u32 (pts mod 2 ^ 32)) _ _ Hd). }
  assert (B20 : bigEndian32 p 20 = id).
  { replace p with ((h4 ++ Fixture.u32 ts ++ Fixture.u32 (pts / 2 ^ 32)
                     ++ Fixture.u32 (pts mod 2 ^ 32) ++ Fixture.u32 d)
                    ++ Fixture.u32 id ++ uriBytes
                    ++ [x00] ++ valueBytes ++ [x00] ++ payload)
      by reflexivity.
    apply (bigEndian32_u32
             (h4 ++ Fixture.u32 ts ++ Fixture.u32 (pts / 2 ^ 32)
              ++ Fixture.u32 (pts mod 2 ^ 32) ++ Fixture.u32 d) _ _ Hid). }
  rewrite B4, B8, B12, B16, B20.
  assert (Hptsv : pts / 2 ^ 32 * 4294967296 + pts mod 2 ^ 32 = pts).
  { change 4294967296 with (2 ^ 32). rewrite Z.mul_comm.
    symmetry. apply Z.div_mod. lia. }
  rewrite Hptsv. f_equal. f_equal.
  unfold d. destruct dur as [x|].
  - destruct (Z.eqb_spec x 4294967295); [lia | reflexivity].
  - reflexivity.
Qed.

(** X22. [parseId3TrackSamples] decodes what [id3Emsg] encodes: on a run
    of [emsg] boxes that carry encodable samples it returns those
    samples, in order, with their timescale, presentation time, duration
    (unknown for 0xFFFFFFFF), id, scheme, value and ID3 data. *)
Theorem parseId3TrackSamples_decodes (samples : list Id3Sample) :
  Forall id3Encodable samples ->
  parseId3TrackSamples
    (flat_map (fun sample => Fixture.box "emsg" (id3Emsg sample)) samples)
  = Normal (map Some samples).
Proof.
  intros Hok. unfold parseId3TrackSamples. cbv zeta.
  rewrite (mapM_caught _ emsgEntry) by apply parseEmsg_caught.
  f_equal.
  set (boxes := map (fun sample => ("emsg"%string, id3Emsg sample)) samples).
  assert (Hbuf : flat_map (fun sample => Fixture.box "emsg" (id3Emsg sample))
                          samples
                 = flat_map (fun b => Fixture.box (fst b) (snd b)) boxes).
  { unfold boxes. rewrite flat_map_concat_map, flat_map_concat_map, map_map.
    reflexivity. }
  rewrite Hbuf.
  assert (Hwf : Forall (fun b => String.length (fst b) = 4%nat /\
                                 8 + byteLength (snd b) < 2 ^ 32) boxes).
  { unfold boxes. apply Forall_map. eapply Forall_impl; [|exact Hok].
    intros s Hs. cbn [fst snd]. split; [reflexivity|]. apply Hs. }
  pose proof (findBox_boxes_run "emsg" boxes [] Hwf) as Hrun.
  cbv zeta in Hrun. cbn [app length] in Hrun. change (Z.of_nat 0) with 0 in Hrun.
  rewrite <- findBox_raw in Hrun.
  set (found := findBox _ _) in *.
  assert (Hall : filter (fun b => String.eqb (fst b) "emsg") boxes = boxes).
  { unfold boxes. clear. induction samples as [|s l IH]; [reflexivity|].
    cbn [map filter fst]. rewrite String.eqb_refl. now rewrite IH. }
  rewrite Hall in Hrun. unfold boxes in Hrun. rewrite map_map in Hrun.
  cbn [snd] in Hrun.
  rewrite (map_ext _ _ emsgEntry_payload).
  rewrite <- (map_map (fun v => subarray (data v) (start v) (end_ v))
                      (fun p => emsgEntry (mkBox p 0 (byteLength p)))).
  rewrite Hrun, map_map.
  apply map_ext_in. intros s Hs. apply emsgEntry_id3Emsg.
  rewrite Forall_forall in Hok. now apply Hok.
Qed.

Lemma parseId3TrackSamples_decodes_witness :
  parseId3TrackSamples
    (flat_map (fun sample => Fixture.box "emsg" (id3Emsg sample))
       [mkId3Sample 90000 180000 180000 None 7
          "https://aomedia.org/emsg/ID3" "v" [x49; x44; x33]])
  = Normal
      (map Some
         [mkId3Sample 90000 180000 180000 None 7
            "https://aomedia.org/emsg/ID3" "v" [x49; x44; x33]]).
Proof.
  apply (parseId3TrackSamples_decodes
           [mkId3Sample 90000 180000 180000 None 7
              "https://aomedia.org/emsg/ID3" "v" [x49; x44; x33]]).
  constructor; [|constructor].
  unfold id3Encodable.
  cbn [id3_timescale id3_pts id3_dts id3_duration id3_id schemeIdUri
       id3_value].
  repeat split; try lia; try reflexivity.
  now left.
Defined.

(** ** Double-precision arithmetic *)

















(** ** [parseSamples] *)

Section TimelineFacts.

Variable plus : Z -> Z -> Z.





End TimelineFacts.




Section Stamp.

Variables defaultDuration defaultSize track : Z.



End Stamp.


Example parseSamples_run :
  parseSamples [Fixture.trun] 9000 Fixture.tfhd = Normal Fixture.trunSamples.
Proof. vm_compute. reflexivity. Qed.



(** ** [parseSegmentIndex]: hierarchical references *)

(** C4 fails on a version-1 box.  The version the parser
    switches on is [sidx.data[0]], the first byte of the whole buffer, not
    the version byte of the box.  This version-1 [sidx] holds one
    reference, and that reference is hierarchical; the parser takes the
    box for version 0, reads a count of 0 out of the first offset, and
    returns a result with no references instead of none. *)
Theorem parseSegmentIndex_version1_hierarchical :
  let sidx := mkBox sidxOfVersion1 8 (byteLength sidxOfVersion1) in
  findBox (Raw sidxOfVersion1) ["sidx"%string] = [sidx] /\
  versionOf sidx = Some 1 /\
  sidxReferenceCount sidx = 1 /\
  Z.testbit (sidxReferenceWord sidx 0) 31 = true /\
  get sidxOfVersion1 0 = Some 0 /\
  parseSegmentIndex sidxOfVersion1
  = Some (mkSidxInfo 0 90000 (Some 0) 0 [] None).
Proof. vm_compute. repeat split. Qed.

(** X23. When the first byte of the buffer is 0 and the first [sidx] box
    is version 0, the parser reads the box as it is laid out: a reference
    with the type bit set, wherever it stands among the others, makes
    [parseSegmentIndex] give no result; and a result, when there is one,
    lists all the references the box counts, every one of them flat. *)
Theorem parseSegmentIndex_version0_hierarchical initSegment sidx others :
  findBox (Raw initSegment) ["sidx"%string] = sidx :: others ->
  get initSegment 0 = Some 0 ->
  versionOf sidx = Some 0 ->
  let count := sidxReferenceCount sidx in
  ((exists k, 0 <= k < count /\
              Z.testbit (sidxReferenceWord sidx k) 31 = true) ->
   parseSegmentIndex initSegment = None) /\
  (forall info,
      parseSegmentIndex initSegment = Some info ->
      referencesCount info = count /\
      Z.of_nat (length (references info)) = count /\
      forall k, 0 <= k < count ->
                Z.testbit (sidxReferenceWord sidx k) 31 = false).
Proof.
  intros Hbox Hfirst Hversion count.
  pose proof (parseSegmentIndex_first initSegment sidx others Hbox) as Hparse.
  assert (Hdata : data sidx = initSegment).
  { apply (findBox_data (Raw initSegment) ["sidx"%string]).
    rewrite Hbox. now left. }
  cbv zeta in Hparse. rewrite Hdata, Hfirst in Hparse.
  cbn [isByte Z.eqb] in Hparse.
  change (sidxCountIndex (Some 0)) with 22 in Hparse.
  assert (Hoff : sidxCountOffset sidx = 22).
  { unfold sidxCountOffset. now rewrite Hversion. }
  assert (Hcount : count = readUint16 (View sidx) 22).
  { unfold count, sidxReferenceCount. now rewrite Hoff. }
  assert (Hword : forall k, sidxReferenceWord sidx k
                            = readUint32 (View sidx) (22 + 2 + 12 * k)).
  { intros k. unfold sidxReferenceWord. now rewrite Hoff. }
  rewrite <- Hcount in Hparse.
  assert (Hhier :
    (exists k, 0 <= k < count /\
               Z.testbit (sidxReferenceWord sidx k) 31 = true) ->
    parseSegmentIndex initSegment = None).
  { intros (k & Hk & Hbit). rewrite Hparse.
    rewrite (sidxReferences_hierarchical sidx _ _ _ _ _ (Z.to_nat k));
      [reflexivity | lia |].
    rewrite Hword in Hbit. rewrite Z2Nat.id by lia. exact Hbit. }
  split; [exact Hhier|].
  intros info Hinfo.
  assert (Hc : 0 <= count < 65536)
    by (rewrite Hcount; apply readUint16_range).
  assert (Hflat : forall k, 0 <= k < count ->
                            Z.testbit (sidxReferenceWord sidx k) 31 = false).
  { intros k Hk. destruct (Z.testbit (sidxReferenceWord sidx k) 31) eqn:E;
      [|reflexivity].
    rewrite Hhier in Hinfo by (exists k; split; assumption). discriminate. }
  rewrite Hparse in Hinfo.
  destruct (sidxReferences sidx _ (Z.to_nat count) _ _ []) as [refs|] eqn:E;
    [|discriminate].
  apply Some_eq in Hinfo. subst info. cbn [referencesCount references].
  apply sidxReferences_length in E. cbn [length Nat.add] in E.
  repeat split; [lia | exact Hflat].
Qed.

Lemma parseSegmentIndex_version0_hierarchical_witness :
  parseSegmentIndex Fixture.sidxHierarchical = None.
Proof.
  refine (proj1 (parseSegmentIndex_version0_hierarchical
                   Fixture.sidxHierarchical
                   (mkBox Fixture.sidxHierarchical 8 56) [] _ _ _) _).
  - vm_compute. reflexivity.
  - vm_compute. reflexivity.
  - vm_compute. reflexivity.
  - exists 1. vm_compute. repeat split; discriminate.
Defined.

(* ================================================================== *)
(** ** Reading and writing inside a buffer *)






(** ** The bytes of boxes *)







(** ** [findBox] on a run of boxes inside a buffer *)


Lemma viewsOf_onto a a' name l :
  forall s, map (onto a) (viewsOf a' name s l) = viewsOf a name s l.
Proof.
  induction l as [|b l IH]; intros s; [reflexivity|].
  cbn [viewsOf]. rewrite map_app, IH.
  now destruct (String.eqb (fst b) name).
Qed.


(** ** One [tfdt] *)










(** ** The [tfdt] boxes of one [traf] *)





(** ** The [tfhd] boxes of one [traf] *)

Section Children.

Variable initData : InitData.
Variable timeOffset : Double.t.

(** What one [tfhd] does to the children of its [traf]. *)
Let step (children : list Box) (tfhd : Box) : list Box :=
  match initData (bigEndian32 (snd tfhd) 4) with
  | Some track => map (shiftTfdt timeOffset (timescaleOr90k track)) children
  | None => children
  end.















End Children.

(** ** The [traf] boxes of a fragment *)







(** ** The arithmetic of a patch while it is exact *)















(** ** [offsetStartDTS] on a fragment *)



(** A version-0 [tfdt] at time 10000 of a track at 90 kHz, offset by the
    double 0.1: the offset is the double 9000 and the time becomes
    1000. *)
Example offsetStartDTS_run :
  offsetStartDTS Fixture.initData
                 (fragmentBytes (fragmentOf [1] x00 (Fixture.u32 10000)))
                 tenth
  = fragmentBytes (fragmentOf [1] x00 (Fixture.u32 1000)).
Proof. vm_compute. reflexivity. Qed.

(** With two [tfhd] boxes of known tracks in the [traf], the [tfdt] is
    patched twice: half a second at 90 kHz, twice, takes 100000 to
    10000. *)
Example offsetStartDTS_two_tfhd :
  offsetStartDTS Fixture.initData
                 (fragmentBytes (fragmentOf [1; 2] x00 (Fixture.u32 100000)))
                 (Double.fin (1 # 2))
  = fragmentBytes (fragmentOf [1; 2] x00 (Fixture.u32 10000)).
Proof. vm_compute. reflexivity. Qed.




(** ** The double model on known values *)

(** The double nearest to 1/10; a tie goes to the even mantissa, so
    2^53 + 1 rounds down and 2^53 + 3 rounds up; 2^1024 is past the
    largest double; half the smallest subnormal rounds to 0. *)
Example round_known_values :
  Double.ofQ (1 # 10) = tenth /\
  Double.mul tenth (Double.ofZ 90000) = Double.ofZ 9000 /\
  Double.ofZ (2 ^ 53 + 1) = Double.fin (inject_Z (2 ^ 53)) /\
  Double.ofZ (2 ^ 53 + 3) = Double.fin (inject_Z (2 ^ 53 + 4)) /\
  Double.ofZ (2 ^ 1024) = Double.pinf /\
  Double.ofZ (2 ^ 1024 - 2 ^ 970 - 1) = Double.fin Double.maxValue /\
  Double.ofQ (1 # Z.to_pos (2 ^ 1075)) = Double.fin 0.
Proof. vm_compute. repeat split. Qed.
